(** * SABER: synchronisation and playback engine

    A shallow embedding of the core of the SABER protocol implementation
    (ring buffer, timestamped audio buffer, audio stream and its device
    callback, sync engine, sync manager and audio sync, mesh network and
    its worker, crypto envelope, protocol facade) together with the
    properties proved about it.

    Conventions.  Fixed-width C++ integers are kept as [Z] and every
    operation that can leave the range of its type is followed by the
    wrap-around of that type ([u64], [u32], [i64]).  Wall-clock and steady
    clock readings are explicit arguments.  Mutexes are left out of the
    sequential model, except where one thread takes the same mutex twice. *)

From Stdlib Require Import ZArith List Lia Bool String Floats.SpecFloat.
From stdpp Require Import base option list gmap strings sorting.
From coqutil Require Import Byte Word.LittleEndianList.

Local Open Scope Z_scope.

(** ** Machine integers *)

Definition U64_MOD : Z := 18446744073709551616.
Definition U32_MOD : Z := 4294967296.
Definition I64_HALF : Z := 9223372036854775808.

(** [uint64_t] / [size_t] arithmetic result. *)
Definition u64 (z : Z) : Z := z mod U64_MOD.
(** [uint32_t] arithmetic result. *)
Definition u32 (z : Z) : Z := z mod U32_MOD.
(** [int64_t]: conversion from a wider value, and the two's-complement
    result of a signed operation. *)
Definition i64 (z : Z) : Z := (z + I64_HALF) mod U64_MOD - I64_HALF.

Definition is_u64 (z : Z) : Prop := 0 <= z < U64_MOD.
Definition is_u32 (z : Z) : Prop := 0 <= z < U32_MOD.
Definition is_i64 (z : Z) : Prop := - I64_HALF <= z < I64_HALF.

(** [std::vector<T>::max_size()] never exceeds [PTRDIFF_MAX]; a larger
    request makes the vector constructor throw [std::length_error]. *)
Definition VECTOR_MAX_SIZE : Z := I64_HALF - 1.

(** [v.size()] of a vector or string. *)
Definition cpp_size {A} (l : list A) : Z := Z.of_nat (length l).

(** The standard exceptions the engine throws, with their [what()]. *)
Inductive exception : Type :=
  | invalid_argument (what : string)
  | length_error (what : string)
  | runtime_error (what : string).

(** ** Single-precision arithmetic *)

(** Where the engine computes with a [float], the value is kept as its
    IEEE-754 binary32 datum. *)
Definition FLT_PREC : Z := 24.
Definition FLT_EMAX : Z := 128.

(** [static_cast<float>(n)] of an unsigned integer: the nearest [float],
    ties to even. *)
Definition float_of_unsigned (n : Z) : spec_float :=
  binary_normalize FLT_PREC FLT_EMAX n 0 false.

(** [x / y] on [float]s. *)
Definition float_div (x y : spec_float) : spec_float :=
  SFdiv FLT_PREC FLT_EMAX x y.

(** [static_cast<uint32_t>(x)]: the fractional part is discarded.  The
    conversion is undefined for a value that does not fit; a finite one is
    taken modulo [2^32], an infinity or a NaN gives 0. *)
Definition u32_of_float (x : spec_float) : Z :=
  match x with
  | S754_finite s m e =>
      let magnitude :=
        if 0 <=? e then Z.pos m * 2 ^ e else Z.pos m / 2 ^ (- e) in
      u32 (if s then - magnitude else magnitude)
  | _ => 0
  end.

(** [0.5], which is a [float] as well as a [double]. *)
Definition float_half : spec_float := S754_finite false 8388608 (-24).

(** [x < 0.5] for a [float] [x]: the promotion of [x] to [double] is
    exact, and a NaN compares false. *)
Definition float_lt_half (x : spec_float) : bool := SFltb x float_half.

(** ** RingBuffer (core_audio/buffer.hpp) *)

Module RingBuffer.
Section Ring.
Context {T : Type}.

Record t : Type := mk {
  buffer_ : list T;
  capacity_ : Z;
  write_pos_ : Z;
  read_pos_ : Z;
  size_ : Z
}.

(** [explicit RingBuffer(size_t capacity)]; [dflt] is the value a
    value-initialised [T] has. *)
Definition new (dflt : T) (capacity : Z) : exception + t :=
  if VECTOR_MAX_SIZE <? capacity
  then inl (length_error "cannot create std::vector larger than max_size()")
  else if capacity =? 0
  then inl (invalid_argument "La capacità del buffer deve essere maggiore di zero")
  else inr {| buffer_ := replicate (Z.to_nat capacity) dflt;
              capacity_ := capacity;
              write_pos_ := 0;
              read_pos_ := 0;
              size_ := 0 |}.

(** [std::memcpy(&buf[pos], src, n * sizeof(T))] with [n = length src]. *)
Definition memcpy_to (buf : list T) (pos : Z) (src : list T) : list T :=
  take (Z.to_nat pos) buf ++ src ++ drop (Z.to_nat pos + length src) buf.

(** [std::memcpy(dst, &buf[pos], n * sizeof(T))]: the [n] elements read. *)
Definition memcpy_from (buf : list T) (pos : Z) (n : Z) : list T :=
  take (Z.to_nat n) (drop (Z.to_nat pos) buf).

(** [size_t write(const T* data, size_t count)]; [data] is what the
    pointer points to, of which the first [count] elements are read. *)
Definition write (rb : t) (data : list T) (count : Z) : t * Z :=
  if count =? 0 then (rb, 0)
  else
    let available := u64 (capacity_ rb - size_ rb) in
    let to_write := Z.min count available in
    if to_write =? 0 then (rb, 0)
    else
      let first_part := Z.min to_write (u64 (capacity_ rb - write_pos_ rb)) in
      let buf1 :=
        memcpy_to (buffer_ rb) (write_pos_ rb) (take (Z.to_nat first_part) data) in
      let buf2 :=
        if first_part <? to_write
        then memcpy_to buf1 0
               (take (Z.to_nat (to_write - first_part))
                     (drop (Z.to_nat first_part) data))
        else buf1 in
      ({| buffer_ := buf2;
          capacity_ := capacity_ rb;
          write_pos_ := u64 (write_pos_ rb + to_write) mod capacity_ rb;
          read_pos_ := read_pos_ rb;
          size_ := u64 (size_ rb + to_write) |},
       to_write).

(** The elements [read] and [peek] copy out: two [memcpy]s from
    [read_pos]. *)
Definition copy_out (rb : t) (to_read : Z) : list T :=
  let first_part := Z.min to_read (u64 (capacity_ rb - read_pos_ rb)) in
  memcpy_from (buffer_ rb) (read_pos_ rb) first_part ++
  (if first_part <? to_read
   then memcpy_from (buffer_ rb) 0 (to_read - first_part)
   else []).

(** [size_t read(T* data, size_t count)]: the new state, the elements
    stored through [data], and the number returned. *)
Definition read (rb : t) (count : Z) : t * list T * Z :=
  if (count =? 0) || (size_ rb =? 0) then (rb, [], 0)
  else
    let to_read := Z.min count (size_ rb) in
    ({| buffer_ := buffer_ rb;
        capacity_ := capacity_ rb;
        write_pos_ := write_pos_ rb;
        read_pos_ := u64 (read_pos_ rb + to_read) mod capacity_ rb;
        size_ := u64 (size_ rb - to_read) |},
     copy_out rb to_read,
     to_read).

(** [size_t peek(T* data, size_t count) const]. *)
Definition peek (rb : t) (count : Z) : list T * Z :=
  if (count =? 0) || (size_ rb =? 0) then ([], 0)
  else
    let to_read := Z.min count (size_ rb) in
    (copy_out rb to_read, to_read).

Definition clear (rb : t) : t :=
  {| buffer_ := buffer_ rb; capacity_ := capacity_ rb;
     write_pos_ := 0; read_pos_ := 0; size_ := 0 |}.

Definition size (rb : t) : Z := size_ rb.
Definition capacity (rb : t) : Z := capacity_ rb.
Definition available (rb : t) : Z := u64 (capacity_ rb - size_ rb).
Definition empty (rb : t) : bool := size_ rb =? 0.
Definition full (rb : t) : bool := size_ rb =? capacity_ rb.
(** [static_cast<uint8_t>((size * 100) / capacity)]. *)
Definition fill_percentage (rb : t) : Z :=
  (u64 (size_ rb * 100) / capacity_ rb) mod 256.

End Ring.
Arguments t : clear implicits.
End RingBuffer.

(** ** AudioBuffer (core_audio/buffer.hpp) *)

Module AudioBuffer.

(** A [float] sample, kept as its IEEE-754 binary32 bit pattern.  The
    engine only copies samples and zero-fills them; [memset] to zero
    yields the pattern [0], which is [+0.0f]. *)
Definition float : Type := Z.
Definition SIZEOF_FLOAT : Z := 4.

Record t : Type := mk {
  sample_rate_ : Z;
  channels_ : Z;
  buffer_ms_ : Z;
  samples_per_ms_ : Z;
  buffer_size_ : Z;
  buffer_ : RingBuffer.t float;
  timestamp_ : Z
}.

(** [AudioBuffer(uint32_t sample_rate, uint8_t channels, uint32_t buffer_ms)].
    The member initialisers run first, so the ring is built (and may
    throw) before the body validates the arguments. *)
Definition new (sample_rate channels buffer_ms : Z) : exception + t :=
  let samples_per_ms := sample_rate / 1000 in
  let buffer_size := u32 (u32 (samples_per_ms * buffer_ms) * channels) in
  match RingBuffer.new 0 buffer_size with
  | inl e => inl e
  | inr rb =>
      if (sample_rate =? 0) || (channels =? 0) || (buffer_ms =? 0)
      then inl (invalid_argument "Parametri audio non validi")
      else inr {| sample_rate_ := sample_rate;
                  channels_ := channels;
                  buffer_ms_ := buffer_ms;
                  samples_per_ms_ := samples_per_ms;
                  buffer_size_ := buffer_size;
                  buffer_ := rb;
                  timestamp_ := 0 |}
  end.

Definition set_buffer (ab : t) (rb : RingBuffer.t float) : t :=
  {| sample_rate_ := sample_rate_ ab; channels_ := channels_ ab;
     buffer_ms_ := buffer_ms_ ab; samples_per_ms_ := samples_per_ms_ ab;
     buffer_size_ := buffer_size_ ab; buffer_ := rb;
     timestamp_ := timestamp_ ab |}.

Definition set_timestamp (ab : t) (ts : Z) : t :=
  {| sample_rate_ := sample_rate_ ab; channels_ := channels_ ab;
     buffer_ms_ := buffer_ms_ ab; samples_per_ms_ := samples_per_ms_ ab;
     buffer_size_ := buffer_size_ ab; buffer_ := buffer_ ab;
     timestamp_ := ts |}.

(** [size_t write_samples(const float* samples, size_t count, uint64_t timestamp)]. *)
Definition write_samples (ab : t) (samples : list float) (count timestamp : Z)
  : t * Z :=
  let ab1 :=
    if RingBuffer.empty (buffer_ ab) then set_timestamp ab timestamp else ab in
  let '(rb, written) :=
    RingBuffer.write (buffer_ ab1) samples (u64 (count * channels_ ab1)) in
  (set_buffer ab1 rb, written / channels_ ab1).

(** The [int64_t time_diff] of [read_samples]: both timestamps are cast
    to [int64_t] and subtracted; a signed overflow is taken to wrap. *)
Definition time_diff (current_time timestamp : Z) : Z :=
  i64 (i64 current_time - i64 timestamp).

(** [size_t read_samples(float* samples, size_t count, uint64_t current_time)]:
    the new state, the samples stored through [samples] (from its start),
    and the number returned. *)
Definition read_samples (ab : t) (count current_time : Z)
  : t * list float * Z :=
  if RingBuffer.empty (buffer_ ab) then (ab, [], 0)
  else
    let time_diff := time_diff current_time (timestamp_ ab) in
    if time_diff <? 0 then
      (ab,
       replicate
         (Z.to_nat (u64 (u64 (count * channels_ ab) * SIZEOF_FLOAT) / SIZEOF_FLOAT))
         0,
       count)
    else
      let samples_to_skip :=
        Z.min (u64 (i64 (time_diff * samples_per_ms_ ab)))
              (RingBuffer.size (buffer_ ab) / channels_ ab) in
      let ab1 :=
        if 0 <? samples_to_skip then
          let '(rb, _, _) :=
            RingBuffer.read (buffer_ ab) (u64 (samples_to_skip * channels_ ab)) in
          set_timestamp (set_buffer ab rb)
            (u64 (timestamp_ ab + samples_to_skip / samples_per_ms_ ab))
        else ab in
      let '(rb, out, read) :=
        RingBuffer.read (buffer_ ab1) (u64 (count * channels_ ab1)) in
      (set_timestamp (set_buffer ab1 rb)
         (u64 (timestamp_ ab1 + (read / channels_ ab1) / samples_per_ms_ ab1)),
       out,
       read / channels_ ab1).

Definition get_fill_level (ab : t) : Z :=
  RingBuffer.fill_percentage (buffer_ ab).

(** [uint32_t get_latency_ms() const]. *)
Definition get_latency_ms (ab : t) : Z :=
  u32 ((RingBuffer.size (buffer_ ab) / channels_ ab) / samples_per_ms_ ab).

Definition clear (ab : t) : t := set_buffer ab (RingBuffer.clear (buffer_ ab)).

(** [void set_buffer_size_ms(uint32_t buffer_ms)].  The two size fields
    are assigned before the new ring is allocated, so they keep their new
    values when the allocation throws. *)
Definition set_buffer_size_ms (ab : t) (buffer_ms : Z) : t * option exception :=
  if buffer_ms =? 0
  then (ab, Some (invalid_argument "Dimensione buffer non valida"))
  else
    let buffer_size :=
      u32 (u32 (samples_per_ms_ ab * buffer_ms) * channels_ ab) in
    let ab1 :=
      {| sample_rate_ := sample_rate_ ab; channels_ := channels_ ab;
         buffer_ms_ := buffer_ms; samples_per_ms_ := samples_per_ms_ ab;
         buffer_size_ := buffer_size; buffer_ := buffer_ ab;
         timestamp_ := timestamp_ ab |} in
    match RingBuffer.new 0 buffer_size with
    | inl e => (ab1, Some e)
    | inr new_buffer =>
        if negb (RingBuffer.empty (buffer_ ab1)) then
          let '(_, temp, read) :=
            RingBuffer.read (buffer_ ab1) (RingBuffer.size (buffer_ ab1)) in
          (set_buffer ab1 (fst (RingBuffer.write new_buffer temp read)), None)
        else (set_buffer ab1 new_buffer, None)
    end.

End AudioBuffer.

(** ** SyncManager (protocol/sync.cpp) *)

Module SyncManager.

Record t : Type := mk {
  timeOffset : Z;                  (* int64_t *)
  lastBeacon : option Z;           (* steady_clock time point *)
  nodeLatencies : gmap string Z;   (* node id -> uint32_t *)
  isSynced : bool;
  maxJitterMs : Z
}.

Definition new : t :=
  {| timeOffset := 0; lastBeacon := None; nodeLatencies := ∅;
     isSynced := false; maxJitterMs := 5 |}.

(** [uint64_t now() const]; [system_ms] is what
    [system_clock::now()] reads, in milliseconds since the epoch. *)
Definition now (st : t) (system_ms : Z) : Z :=
  let currentTime := u64 system_ms in
  let offset := timeOffset st in
  if 0 <=? offset
  then u64 (currentTime + u64 offset)
  else u64 (currentTime - u64 (i64 (- offset))).

(** [bool handleTimeBeacon(uint64_t masterTime)]; [steady] is the
    reading of [steady_clock::now()]. *)
Definition handleTimeBeacon (st : t) (masterTime system_ms steady : Z) : t * bool :=
  let currentTime := u64 system_ms in
  let calculatedOffset := i64 (i64 masterTime - i64 currentTime) in
  ({| timeOffset := calculatedOffset;
      lastBeacon := Some steady;
      nodeLatencies := nodeLatencies st;
      isSynced := true;
      maxJitterMs := maxJitterMs st |},
   true).

Definition isSynchronized (st : t) : bool :=
  let hasBeacon := bool_decide (is_Some (lastBeacon st)) in
  let synced := isSynced st in
  hasBeacon && synced.

Definition updateNodeLatency (st : t) (nodeId : string) (latency : Z) : t :=
  {| timeOffset := timeOffset st; lastBeacon := lastBeacon st;
     nodeLatencies := <[nodeId := latency]> (nodeLatencies st);
     isSynced := isSynced st; maxJitterMs := maxJitterMs st |}.

Definition isNodeOutOfSync (st : t) (nodeId : string) (reportedTime system_ms : Z)
  : bool :=
  let currentTime := now st system_ms in
  let timeDiff :=
    if reportedTime <? currentTime
    then u64 (currentTime - reportedTime)
    else u64 (reportedTime - currentTime) in
  maxJitterMs st <? timeDiff.

(** [uint32_t calculateBufferAdjustment(uint32_t nodeLatency) const]. *)
Definition calculateBufferAdjustment (nodeLatency : Z) : Z :=
  let bufferSize := u32 (nodeLatency + 10) in
  Z.min bufferSize 40.

Definition emergencySync (st : t) (masterTime system_ms steady : Z) : t * bool :=
  let '(st1, result) := handleTimeBeacon st masterTime system_ms steady in
  ({| timeOffset := timeOffset st1; lastBeacon := lastBeacon st1;
      nodeLatencies := ∅;
      isSynced := isSynced st1; maxJitterMs := maxJitterMs st1 |},
   result).

(** [std::optional<float> getAverageLatency() const].  The [uint32_t] sum
    wraps around, so it is the same in whatever order the map is
    visited. *)
Definition getAverageLatency (st : t) : option spec_float :=
  if (size (nodeLatencies st) =? 0)%nat then None
  else
    let sum :=
      map_fold (fun _ latency acc => u32 (acc + latency)) 0 (nodeLatencies st) in
    Some (float_div (float_of_unsigned sum)
                    (float_of_unsigned (Z.of_nat (size (nodeLatencies st))))).

(** [uint32_t getOptimalBufferSize() const]. *)
Definition getOptimalBufferSize (st : t) : Z :=
  match getAverageLatency st with
  | Some avgLatency => calculateBufferAdjustment (u32_of_float avgLatency)
  | None => 20
  end.

End SyncManager.

(** ** AudioSync (protocol/sync.cpp) *)

(** The [SyncManager] an [AudioSync] works with is shared with its owner
    and changes behind its back: every operation that consults it takes
    its current state as [sm]. *)
Module AudioSync.

Record t : Type := mk {
  jitterBuffer : Z;
  isPlaying : bool;
  sampleRate : Z;
  bitrate : Z
}.

Definition new (isMusic : bool) : t :=
  {| jitterBuffer := 20; isPlaying := false;
     sampleRate := if isMusic then 48000 else 16000;
     bitrate := if isMusic then 128 else 64 |}.

Definition startPlayback (sm : SyncManager.t) (a : t) : t * bool :=
  if negb (SyncManager.isSynchronized sm) then (a, false)
  else
    ({| jitterBuffer := SyncManager.getOptimalBufferSize sm; isPlaying := true;
        sampleRate := sampleRate a; bitrate := bitrate a |},
     true).

Definition stopPlayback (a : t) : t :=
  {| jitterBuffer := jitterBuffer a; isPlaying := false;
     sampleRate := sampleRate a; bitrate := bitrate a |}.

Definition adjustBitrate (networkQuality : spec_float) (a : t) : t :=
  {| jitterBuffer := jitterBuffer a; isPlaying := isPlaying a;
     sampleRate := sampleRate a;
     bitrate :=
       if float_lt_half networkQuality
       then (if sampleRate a =? 48000 then 64 else 32)
       else (if sampleRate a =? 48000 then 128 else 64) |}.

Definition getCurrentLatency (sm : SyncManager.t) (a : t) : Z :=
  match SyncManager.getAverageLatency sm with
  | Some avgLatency => u32_of_float avgLatency
  | None => 0
  end.

Definition isPlaybackSynchronized (sm : SyncManager.t) (a : t) : bool :=
  SyncManager.isSynchronized sm && isPlaying a.

End AudioSync.

(** ** AudioStream and SyncEngine (core_audio/audio_stream.cpp, sync_engine.cpp) *)

(** What the PortAudio calls answer; the device is outside the engine.
    The text PortAudio appends to an error message is left out. *)
Record PortAudio : Type := {
  Pa_Initialize_ok : bool;
  Pa_GetDefaultOutputDevice_ok : bool;
  Pa_OpenStream_ok : bool;
  Pa_StartStream_ok : bool
}.

Module AudioStream.

Record t : Type := mk {
  sample_rate_ : Z;
  channels_ : Z;
  buffer_ : AudioBuffer.t;
  stream_ : bool;            (* [PaStream*] is not null *)
  is_initialized_ : bool;
  is_active : bool           (* [callback_data_->is_active] *)
}.

(** The constructor, with [initAudio] inlined. *)
Definition new (pa : PortAudio) (sample_rate channels buffer_ms : Z)
  : exception + t :=
  match AudioBuffer.new sample_rate channels buffer_ms with
  | inl e => inl e
  | inr buf =>
      if negb (Pa_Initialize_ok pa)
      then inl (runtime_error "Errore inizializzazione PortAudio")
      else if negb (Pa_GetDefaultOutputDevice_ok pa)
      then inl (runtime_error "Nessun dispositivo di output disponibile")
      else if negb (Pa_OpenStream_ok pa)
      then inl (runtime_error "Errore apertura stream audio")
      else inr {| sample_rate_ := sample_rate; channels_ := channels;
                  buffer_ := buf; stream_ := true;
                  is_initialized_ := true; is_active := false |}
  end.

Definition set_buffer (s : t) (buf : AudioBuffer.t) : t :=
  {| sample_rate_ := sample_rate_ s; channels_ := channels_ s;
     buffer_ := buf; stream_ := stream_ s;
     is_initialized_ := is_initialized_ s; is_active := is_active s |}.

Definition set_active (s : t) (b : bool) : t :=
  {| sample_rate_ := sample_rate_ s; channels_ := channels_ s;
     buffer_ := buffer_ s; stream_ := stream_ s;
     is_initialized_ := is_initialized_ s; is_active := b |}.

Definition startStream (pa : PortAudio) (s : t) : t * option exception :=
  if negb (stream_ s) then (s, None)
  else if negb (Pa_StartStream_ok pa)
  then (s, Some (runtime_error "Errore avvio stream audio"))
  else (set_active s true, None).

Definition stopStream (s : t) : t :=
  if negb (stream_ s) then s else set_active s false.

Definition writeAudio (s : t) (data : list AudioBuffer.float) (frames timestamp : Z)
  : t * Z :=
  let '(buf, n) := AudioBuffer.write_samples (buffer_ s) data frames timestamp in
  (set_buffer s buf, n).

Definition setBufferSize (s : t) (buffer_ms : Z) : t * option exception :=
  let '(buf, e) := AudioBuffer.set_buffer_size_ms (buffer_ s) buffer_ms in
  (set_buffer s buf, e).

Definition getBufferLevel (s : t) : Z := AudioBuffer.get_fill_level (buffer_ s).

(** [std::memset(dst + pos, 0, bytes)] on an array of [float]: the samples
    the bytes cover become [+0.0f]. *)
Definition memset_zero (dst : list AudioBuffer.float) (pos bytes : Z)
  : list AudioBuffer.float :=
  RingBuffer.memcpy_to dst pos
    (replicate (Z.to_nat (bytes / AudioBuffer.SIZEOF_FLOAT)) 0).

Definition paContinue : Z := 0.

(** [static int paCallback(...)], the function PortAudio calls for every
    device buffer.  [outputBuffer] is the device buffer as the callback
    finds it and [current_time] what [get_time_callback] reads; the result
    is the stream, the device buffer as the callback leaves it, and the
    code returned.  [channels_] is also the channel count kept in the
    callback data. *)
Definition paCallback (s : t) (outputBuffer : list AudioBuffer.float)
    (framesPerBuffer current_time : Z) : t * list AudioBuffer.float * Z :=
  if negb (is_active s) then
    (s,
     memset_zero outputBuffer 0
       (u64 (u64 (framesPerBuffer * channels_ s) * AudioBuffer.SIZEOF_FLOAT)),
     paContinue)
  else
    let '(buf, stored, read) :=
      AudioBuffer.read_samples (buffer_ s) framesPerBuffer current_time in
    let out := RingBuffer.memcpy_to outputBuffer 0 stored in
    (set_buffer s buf,
     (if read <? framesPerBuffer
      then memset_zero out (u64 (read * channels_ s))
             (u64 (u64 (u64 (framesPerBuffer - read) * channels_ s)
                   * AudioBuffer.SIZEOF_FLOAT))
      else out),
     paContinue).

End AudioStream.

Module SyncEngine.

Record t : Type := mk {
  sample_rate_ : Z;
  channels_ : Z;
  time_offset_ : Z;
  is_active_ : bool;
  is_synchronized_ : bool;
  time_provider_ : option (Z -> Z);         (* clock reading -> synchronised ms *)
  audio_stream_ : option AudioStream.t      (* [unique_ptr], [None] is null *)
}.

Definition new (sample_rate channels initial_buffer_ms : Z) : t :=
  {| sample_rate_ := sample_rate; channels_ := channels; time_offset_ := 0;
     is_active_ := false; is_synchronized_ := false;
     time_provider_ := None; audio_stream_ := None |}.

Definition set_stream (se : t) (s : option AudioStream.t) : t :=
  {| sample_rate_ := sample_rate_ se; channels_ := channels_ se;
     time_offset_ := time_offset_ se; is_active_ := is_active_ se;
     is_synchronized_ := is_synchronized_ se;
     time_provider_ := time_provider_ se; audio_stream_ := s |}.

Definition set_active (se : t) (b : bool) : t :=
  {| sample_rate_ := sample_rate_ se; channels_ := channels_ se;
     time_offset_ := time_offset_ se; is_active_ := b;
     is_synchronized_ := is_synchronized_ se;
     time_provider_ := time_provider_ se; audio_stream_ := audio_stream_ se |}.

(** [void initialize(std::function<uint64_t()> time_provider)]. *)
Definition initialize (pa : PortAudio) (se : t) (time_provider : option (Z -> Z))
  : t * option exception :=
  let se1 :=
    {| sample_rate_ := sample_rate_ se; channels_ := channels_ se;
       time_offset_ := time_offset_ se; is_active_ := is_active_ se;
       is_synchronized_ := is_synchronized_ se;
       time_provider_ := time_provider; audio_stream_ := audio_stream_ se |} in
  match AudioStream.new pa (sample_rate_ se1) (channels_ se1) 20 with
  | inl e => (se1, Some e)
  | inr s => (set_stream se1 (Some s), None)
  end.

(** [void start(uint32_t optimal_buffer_ms)]. *)
Definition start (pa : PortAudio) (se : t) (optimal_buffer_ms : Z)
  : t * option exception :=
  match audio_stream_ se with
  | None => (se, Some (runtime_error "SyncEngine non inizializzato"))
  | Some s =>
      match AudioStream.setBufferSize s optimal_buffer_ms with
      | (s1, Some e) => (set_stream se (Some s1), Some e)
      | (s1, None) =>
          match AudioStream.startStream pa s1 with
          | (s2, Some e) => (set_stream se (Some s2), Some e)
          | (s2, None) => (set_active (set_stream se (Some s2)) true, None)
          end
      end
  end.

Definition stop (se : t) : t :=
  match audio_stream_ se with
  | Some s =>
      if is_active_ se
      then set_active (set_stream se (Some (AudioStream.stopStream s))) false
      else se
  | None => se
  end.

Definition updateSyncState (se : t) (is_synced : bool) (time_offset : Z) : t :=
  {| sample_rate_ := sample_rate_ se; channels_ := channels_ se;
     time_offset_ := time_offset; is_active_ := is_active_ se;
     is_synchronized_ := is_synced;
     time_provider_ := time_provider_ se; audio_stream_ := audio_stream_ se |}.

(** [size_t writeAudioData(const float* data, size_t frames, uint64_t source_timestamp)]. *)
Definition writeAudioData (se : t) (data : list AudioBuffer.float)
    (frames source_timestamp : Z) : t * Z :=
  match audio_stream_ se with
  | None => (se, 0)
  | Some s =>
      let '(s1, n) := AudioStream.writeAudio s data frames source_timestamp in
      (set_stream se (Some s1), n)
  end.

Definition getBufferLevel (se : t) : Z :=
  match audio_stream_ se with
  | None => 0
  | Some s => AudioStream.getBufferLevel s
  end.

Definition isActive (se : t) : bool := is_active_ se.
Definition isSynchronized (se : t) : bool := is_synchronized_ se.

End SyncEngine.

(** ** Node, MeshPacket, MeshNetwork (protocol/mesh.cpp) *)

Inductive NodeRole : Type := Master | Repeater | Sink.

Module Node.

Record t : Type := mk {
  id : string;
  role : NodeRole;
  lastPing : option Z;     (* steady_clock time point, in seconds *)
  latency : Z;
  bufferState : Z
}.

Definition new (id : string) (role : NodeRole) : t :=
  {| id := id; role := role; lastPing := None; latency := 0; bufferState := 100 |}.

Definition updatePing (steady : Z) (n : t) : t :=
  {| id := id n; role := role n; lastPing := Some steady;
     latency := latency n; bufferState := bufferState n |}.

Definition updateBufferState (state : Z) (n : t) : t :=
  {| id := id n; role := role n; lastPing := lastPing n;
     latency := latency n; bufferState := state |}.

Definition setLatency (l : Z) (n : t) : t :=
  {| id := id n; role := role n; lastPing := lastPing n;
     latency := l; bufferState := bufferState n |}.

Definition isActive (steady : Z) (n : t) : bool :=
  match lastPing n with
  | None => false
  | Some p => steady - p <? 30
  end.

End Node.

Inductive MeshPacketType : Type :=
  | Ping | Command | Status | TimeBeacon | EmergencySync.

Inductive MeshPacket : Type :=
  | PingPacket (source : string) (timestamp : Z)
  | CommandPacket (cmdType : string) (params : gmap string string)
  | StatusPacket (nodeId : string) (buffer : Z) (latency : Z)
  | TimeBeaconPacket (masterTime : Z)
  | EmergencySyncPacket (masterTime : Z) (targetNodes : list string).

Module MeshNetwork.

(** The order of a [std::map<std::string, Node>]: [std::string] keys
    compare byte by byte, a proper prefix first. *)
Definition key_le (a b : string) : Prop := String.leb a b = true.

#[global] Instance key_le_dec : RelDecision key_le.
Proof. intros a b. unfold key_le. apply _. Defined.

Definition entry_le {V} (a b : string * V) : Prop := key_le (fst a) (fst b).

#[global] Instance entry_le_dec {V} : RelDecision (@entry_le V).
Proof. intros a b. unfold entry_le. apply _. Defined.

(** The entries of the map in the order a range-[for] visits them. *)
Definition in_key_order {V} (m : gmap string V) : list (string * V) :=
  merge_sort entry_le (map_to_list m).

(** What the other threads did by the time the worker wakes up: the
    packets they queued with [sendPacket], whether [stop] was called, and
    the steady-clock reading for the [i]-th packet of the batch. *)
Record wakeup : Type := {
  sent : list MeshPacket;
  stop_called : bool;
  clock : nat -> Z
}.

Section Network.
(** [H] is the world the registered handler acts on. *)
Context {H : Type}.

Definition getType (p : MeshPacket) : MeshPacketType :=
  match p with
  | PingPacket _ _ => Ping
  | CommandPacket _ _ => Command
  | StatusPacket _ _ _ => Status
  | TimeBeaconPacket _ => TimeBeacon
  | EmergencySyncPacket _ _ => EmergencySync
  end.

(** [std::function<void(const MeshPacket&)>]: a call changes the
    handler's world and either returns or throws. *)
Definition PacketHandler : Type := MeshPacket -> H -> H * option exception.

Record t : Type := mk {
  localNode : Node.t;
  nodes : gmap string Node.t;
  running : bool;
  packetQueue : list MeshPacket;
  packetHandler : option PacketHandler
}.

Definition new (localNode : Node.t) : t :=
  {| localNode := localNode;
     nodes := {[ Node.id localNode := localNode ]};
     running := false; packetQueue := []; packetHandler := None |}.

Definition set_nodes (st : t) (m : gmap string Node.t) : t :=
  {| localNode := localNode st; nodes := m; running := running st;
     packetQueue := packetQueue st; packetHandler := packetHandler st |}.

Definition set_queue (st : t) (q : list MeshPacket) : t :=
  {| localNode := localNode st; nodes := nodes st; running := running st;
     packetQueue := q; packetHandler := packetHandler st |}.

Definition set_running (st : t) (b : bool) : t :=
  {| localNode := localNode st; nodes := nodes st; running := b;
     packetQueue := packetQueue st; packetHandler := packetHandler st |}.

(** [start] and [stop], without the thread they create and join. *)
Definition start (st : t) : t :=
  if running st then st else set_running st true.

Definition stop (st : t) : t :=
  if negb (running st) then st else set_running st false.

Definition sendPacket (st : t) (p : MeshPacket) : t :=
  set_queue st (packetQueue st ++ [p]).

Definition setPacketHandler (st : t) (h : PacketHandler) : t :=
  {| localNode := localNode st; nodes := nodes st; running := running st;
     packetQueue := packetQueue st; packetHandler := Some h |}.

Definition registerNode (st : t) (nodeId : string) (role : NodeRole) : t :=
  match nodes st !! nodeId with
  | Some _ => st
  | None => set_nodes st (<[nodeId := Node.new nodeId role]> (nodes st))
  end.

(** [std::vector<std::string> getActiveNodes() const]; [steady] is what
    [steady_clock::now()] reads during the call. *)
Definition getActiveNodes (st : t) (steady : Z) : list string :=
  fst <$> filter (fun pair => Is_true (Node.isActive steady (snd pair)))
                 (in_key_order (nodes st)).

(** [void updateNodeStatus(...)] takes [networkMutex], a plain
    [std::mutex].  [holds_networkMutex] tells whether the calling thread
    owns it already; locking it again has no defined behaviour (the
    thread blocks on itself), which is [None]. *)
Definition updateNodeStatus (holds_networkMutex : bool) (st : t)
    (nodeId : string) (bufferState latency steady : Z) : option t :=
  if holds_networkMutex then None
  else Some (set_nodes st
               (alter (fun n => Node.updatePing steady
                                  (Node.setLatency latency
                                     (Node.updateBufferState bufferState n)))
                      nodeId (nodes st))).

Inductive outcome : Type :=
  | Returned (st : t) (env : H)
  | Thrown (st : t) (env : H) (e : exception)
  | Deadlocked (st : t) (env : H).

(** [void processPacket(const MeshPacket& packet)]: it holds
    [networkMutex] for its whole body. *)
Definition processPacket (st : t) (env : H) (packet : MeshPacket) (steady : Z)
  : outcome :=
  let updated :=
    match packet with
    | PingPacket source _ =>
        Some (set_nodes st (alter (Node.updatePing steady) source (nodes st)))
    | StatusPacket nodeId buffer latency =>
        updateNodeStatus true st nodeId buffer latency steady
    | _ => Some st
    end in
  match updated with
  | None => Deadlocked st env
  | Some st1 =>
      match packetHandler st1 with
      | None => Returned st1 env
      | Some handler =>
          match handler packet env with
          | (env1, None) => Returned st1 env1
          | (env1, Some e) => Thrown st1 env1 e
          end
      end
  end.

(** The [for (const auto& packet : packetsToProcess)] loop of
    [runNetworkLoop]; each packet comes with the steady-clock reading of
    the moment it is processed.  The second component lists the packets
    [processPacket] was called on. *)
Fixpoint process_batch (st : t) (env : H) (batch : list (MeshPacket * Z))
  : outcome * list MeshPacket :=
  match batch with
  | [] => (Returned st env, [])
  | (packet, steady) :: rest =>
      match processPacket st env packet steady with
      | Returned st1 env1 =>
          let '(o, entered) := process_batch st1 env1 rest in
          (o, packet :: entered)
      | o => (o, [packet])
      end
  end.

(** One turn of the [while (running)] loop of [runNetworkLoop], after
    the wait on the queue has ended: [None] is the [break]. *)
Definition runNetworkLoop_turn (st : t) (env : H) (readings : nat -> Z)
  : option (outcome * list MeshPacket) :=
  if negb (running st) then None
  else
    let packetsToProcess := packetQueue st in
    Some (process_batch (set_queue st []) env
            (imap (fun i packet => (packet, readings i)) packetsToProcess)).

(** The network as the worker finds it at a wake-up. *)
Definition wake (st : t) (w : wakeup) : t :=
  let st1 := foldl sendPacket st (sent w) in
  if stop_called w then stop st1 else st1.

(** [void runNetworkLoop()] along a schedule of wake-ups.  The loop has no
    exception handler: whatever leaves the batch loop leaves the worker.
    The second component lists the packets [processPacket] was called on. *)
Fixpoint runNetworkLoop (st : t) (env : H) (schedule : list wakeup)
  : outcome * list MeshPacket :=
  match schedule with
  | [] => (Returned st env, [])
  | w :: rest =>
      match runNetworkLoop_turn (wake st w) env (clock w) with
      | None => (Returned (wake st w) env, [])
      | Some (Returned st1 env1, entered) =>
          let '(o, more) := runNetworkLoop st1 env1 rest in
          (o, entered ++ more)
      | Some (o, entered) => (o, entered)
      end
  end.

End Network.
Arguments t : clear implicits.
Arguments PacketHandler : clear implicits.
Arguments outcome : clear implicits.
End MeshNetwork.

(** ** SaberProtocol (protocol/saber_protocol.cpp) *)

Module SaberConfig.

Record t : Type := mk {
  nodeId : string;
  role : NodeRole;
  btAddress : option string;
  isMusicMode : bool
}.

End SaberConfig.

(** The facade, without its console output and its idle runtime thread.
    The [SyncManager] is the one [getSyncManager] hands out. *)
Module SaberProtocol.
Section Protocol.
Context {H : Type}.

Record t : Type := mk {
  config : SaberConfig.t;
  meshNetwork : option (MeshNetwork.t H);       (* [unique_ptr] *)
  syncManager : SyncManager.t;                  (* behind the [shared_ptr] *)
  audioSync : option AudioSync.t;               (* [unique_ptr] *)
  running : bool
}.

Definition new (config : SaberConfig.t) : t :=
  {| config := config; meshNetwork := None; syncManager := SyncManager.new;
     audioSync := None; running := false |}.

Definition set_mesh (p : t) (m : option (MeshNetwork.t H)) : t :=
  {| config := config p; meshNetwork := m; syncManager := syncManager p;
     audioSync := audioSync p; running := running p |}.



(** [bool initialize()]; [thread_started] tells whether
    [MeshNetwork::start] could create its thread (it throws otherwise,
    which [initialize] catches). *)
Definition initialize (p : t) (thread_started : bool) : t * bool :=
  let localNode :=
    Node.new (SaberConfig.nodeId (config p)) (SaberConfig.role (config p)) in
  let mesh := MeshNetwork.start (MeshNetwork.new localNode) in
  if negb thread_started then (set_mesh p (Some mesh), false)
  else
    ({| config := config p; meshNetwork := Some mesh; syncManager := syncManager p;
        audioSync := Some (AudioSync.new (SaberConfig.isMusicMode (config p)));
        running := true |},
     true).




Definition getCurrentLatency (p : t) : Z :=
  match audioSync p with
  | Some a => AudioSync.getCurrentLatency (syncManager p) a
  | None => 0
  end.

Definition registerNode (p : t) (nodeId : string) (role : NodeRole)
    (address : option string) : t * bool :=
  match meshNetwork p with
  | None => (p, false)
  | Some m => (set_mesh p (Some (MeshNetwork.registerNode m nodeId role)), true)
  end.

Definition getActiveNodes (p : t) (steady : Z) : list string :=
  match meshNetwork p with
  | None => []
  | Some m => MeshNetwork.getActiveNodes m steady
  end.

Definition isSynchronized (p : t) : bool :=
  SyncManager.isSynchronized (syncManager p).

End Protocol.
Arguments t : clear implicits.
End SaberProtocol.

(** ** MeshCrypto (protocol/crypto.cpp) *)

Inductive CryptoErrorType : Type :=
  | Encryption | Decryption | Signature | Verification | KeyExchange | Hash.

(** The OpenSSL and libsodium primitives the engine calls.  [None] stands
    for a call that reports failure. *)
Record Primitives : Type := {
  (** AES-256-GCM under [key] and [nonce]: ciphertext and 16-byte tag. *)
  aes_256_gcm_seal : list byte -> list byte -> list byte -> option (list byte * list byte);
  (** AES-256-GCM opening of [ciphertext] against [tag]. *)
  aes_256_gcm_open : list byte -> list byte -> list byte -> list byte -> option (list byte);
  (** [crypto_sign_detached sk message]. *)
  crypto_sign_detached : list byte -> list byte -> option (list byte);
  (** [crypto_sign_verify_detached signature message pk == 0]. *)
  crypto_sign_verify_detached : list byte -> list byte -> list byte -> bool
}.

Module MeshCrypto.

Definition crypto_sign_BYTES : Z := 64.
Definition crypto_sign_PUBLICKEYBYTES : Z := 32.

(** The state of the engine.  The X25519 exchange key pair takes no part
    in the operations modelled here and is left out. *)
Record t : Type := mk {
  networkKey : list byte;
  signingPublicKey : list byte;
  signingSecretKey : list byte;
  knownPublicKeys : gmap string (list byte);
  nonceCounter : Z
}.

(** [MeshCrypto()]: the keys are drawn at random by the constructor and
    are arguments here; the nonce counter starts at 0. *)
Definition new (networkKey signingPublicKey signingSecretKey : list byte) : t :=
  {| networkKey := networkKey;
     signingPublicKey := signingPublicKey;
     signingSecretKey := signingSecretKey;
     knownPublicKeys := ∅;
     nonceCounter := 0 |}.

Definition set_counter (st : t) (c : Z) : t :=
  {| networkKey := networkKey st;
     signingPublicKey := signingPublicKey st;
     signingSecretKey := signingSecretKey st;
     knownPublicKeys := knownPublicKeys st;
     nonceCounter := c |}.

(** The bytes [memcpy] sees for a [uint64_t] (little-endian host). *)
Definition bytes_of_u64 (z : Z) : list byte := le_split 8 z.

(** [std::array<uint8_t, 12> generateNonce()]; [timestamp] is what
    [currentTimestamp()] reads. *)
Definition generateNonce (st : t) (timestamp : Z) : t * list byte :=
  let c := u64 (nonceCounter st + 1) in
  (set_counter st c,
   take 8 (bytes_of_u64 timestamp) ++ take 4 (bytes_of_u64 c)).

(** [encrypt]: the nonce is drawn first, so the counter moves even when
    the cipher fails. *)
Definition encrypt (P : Primitives) (st : t) (payload : list byte) (timestamp : Z)
  : t * (CryptoErrorType + list byte) :=
  let '(st1, nonce) := generateNonce st timestamp in
  match aes_256_gcm_seal P (networkKey st1) nonce payload with
  | None => (st1, inl Encryption)
  | Some (ciphertext, tag) => (st1, inr (nonce ++ ciphertext ++ tag))
  end.

Definition decrypt (P : Primitives) (st : t) (encryptedData : list byte)
  : CryptoErrorType + list byte :=
  if cpp_size encryptedData <? 12 + 16 then inl Decryption
  else
    let nonce := take 12 encryptedData in
    let tag := drop (length encryptedData - 16) encryptedData in
    let ciphertext := drop 12 (take (length encryptedData - 16) encryptedData) in
    match aes_256_gcm_open P (networkKey st) nonce ciphertext tag with
    | None => inl Decryption
    | Some plaintext => inr plaintext
    end.

Definition sign (P : Primitives) (st : t) (message : list byte)
  : CryptoErrorType + list byte :=
  match crypto_sign_detached P (signingSecretKey st) message with
  | None => inl Signature
  | Some signature => inr signature
  end.

Definition verify (P : Primitives) (st : t) (nodeId : string)
    (message signature : list byte) : CryptoErrorType + bool :=
  match knownPublicKeys st !! nodeId with
  | None => inl Verification
  | Some publicKey =>
      if negb (cpp_size publicKey =? crypto_sign_PUBLICKEYBYTES) then inl Verification
      else if negb (cpp_size signature =? crypto_sign_BYTES) then inl Verification
      else inr (crypto_sign_verify_detached P signature message publicKey)
  end.

Definition registerNodeKey (st : t) (nodeId : string) (publicKey : list byte) : t :=
  {| networkKey := networkKey st;
     signingPublicKey := signingPublicKey st;
     signingSecretKey := signingSecretKey st;
     knownPublicKeys := <[nodeId := publicKey]> (knownPublicKeys st);
     nonceCounter := nonceCounter st |}.

Definition getPublicKey (st : t) : list byte := signingPublicKey st.

(** [generateSecurityToken]; the clock is read once for the token
    ([timestamp]) and once more inside [generateNonce] ([nonce_time]). *)
Definition generateSecurityToken (P : Primitives) (st : t) (nodeId : string)
    (ttlSeconds timestamp nonce_time : Z) : t * (CryptoErrorType + list byte) :=
  let expiry := u64 (timestamp + u64 (ttlSeconds * 1000)) in
  let tokenData :=
    list_byte_of_string nodeId ++ bytes_of_u64 timestamp ++ bytes_of_u64 expiry in
  match sign P st tokenData with
  | inl e => (st, inl e)
  | inr signature => encrypt P st (tokenData ++ signature) nonce_time
  end.

(** [verifySecurityToken]; [current] is what [currentTimestamp()] reads. *)
Definition verifySecurityToken (P : Primitives) (st : t) (token : list byte)
    (current : Z) : CryptoErrorType + (string * Z) :=
  match decrypt P st token with
  | inl e => inl e
  | inr decrypted =>
      let minSize := 8 + 8 + crypto_sign_BYTES in
      if cpp_size decrypted <? minSize then inl Verification
      else
        let signature := drop (length decrypted - 64) decrypted in
        let data := take (length decrypted - 64) decrypted in
        let nodeIdSize := (length data - 16)%nat in
        let nodeId := string_of_list_byte (take nodeIdSize data) in
        let expiry := le_combine (take 8 (drop (nodeIdSize + 8) data)) in
        if expiry <? current then inl Verification
        else
          match verify P st nodeId data signature with
          | inl e => inl e
          | inr false => inl Verification
          | inr true => inr (nodeId, expiry)
          end
  end.

End MeshCrypto.

(** ** Specification vocabulary *)

(** The representation invariant of a ring of capacity [N]. *)
Record ring_inv {T} (N : Z) (rb : RingBuffer.t T) : Prop := {
  inv_capacity : RingBuffer.capacity_ rb = N;
  inv_bound : 0 < N <= VECTOR_MAX_SIZE;
  inv_buffer : length (RingBuffer.buffer_ rb) = Z.to_nat N;
  inv_write_pos : 0 <= RingBuffer.write_pos_ rb < N;
  inv_read_pos : 0 <= RingBuffer.read_pos_ rb < N;
  inv_size : 0 <= RingBuffer.size_ rb <= N;
  inv_positions :
    RingBuffer.write_pos_ rb = (RingBuffer.read_pos_ rb + RingBuffer.size_ rb) mod N
}.

(** The queued elements, oldest first: what reading everything returns. *)
Definition ring_contents {T} (rb : RingBuffer.t T) : list T :=
  RingBuffer.copy_out rb (RingBuffer.size_ rb).

(** The cell of the ring that holds the [i]-th queued element. *)
Definition ring_cell (N read_pos : Z) (i : nat) : nat :=
  Z.to_nat ((read_pos + Z.of_nat i) mod N).

(** A client operation on a ring.  A write passes a pointer to [data] and
    its length. *)
Inductive ring_op (T : Type) : Type :=
  | OpWrite (data : list T)
  | OpRead (count : Z)
  | OpPeek (count : Z).
Arguments OpWrite {T} data.
Arguments OpRead {T} count.
Arguments OpPeek {T} count.

Definition ring_op_valid {T} (o : ring_op T) : Prop :=
  match o with
  | OpWrite data => is_u64 (cpp_size data)
  | OpRead count => is_u64 count
  | OpPeek count => is_u64 count
  end.

(** One operation: the state after it and the count it returns. *)
Definition ring_step {T} (rb : RingBuffer.t T) (o : ring_op T) : RingBuffer.t T * Z :=
  match o with
  | OpWrite data => RingBuffer.write rb data (cpp_size data)
  | OpRead count => let '(rb', _, k) := RingBuffer.read rb count in (rb', k)
  | OpPeek count => (rb, snd (RingBuffer.peek rb count))
  end.

Record ring_event (T : Type) : Type := {
  ev_before : RingBuffer.t T;
  ev_op : ring_op T;
  ev_after : RingBuffer.t T;
  ev_count : Z
}.
Arguments ev_before {T} _.
Arguments ev_op {T} _.
Arguments ev_after {T} _.
Arguments ev_count {T} _.

(** The history of a sequence of operations, and the state it ends in. *)
Fixpoint ring_run {T} (rb : RingBuffer.t T) (ops : list (ring_op T))
  : list (ring_event T) * RingBuffer.t T :=
  match ops with
  | [] => ([], rb)
  | o :: ops' =>
      let '(rb', k) := ring_step rb o in
      let '(log, final) := ring_run rb' ops' in
      ({| ev_before := rb; ev_op := o; ev_after := rb'; ev_count := k |} :: log,
       final)
  end.

Definition written_by {T} (ev : ring_event T) : Z :=
  match ev_op ev with OpWrite _ => ev_count ev | _ => 0 end.

Definition read_by {T} (ev : ring_event T) : Z :=
  match ev_op ev with OpRead _ => ev_count ev | _ => 0 end.

Definition total_written {T} (log : list (ring_event T)) : Z :=
  foldr (fun ev acc => written_by ev + acc) 0 log.

Definition total_read {T} (log : list (ring_event T)) : Z :=
  foldr (fun ev acc => read_by ev + acc) 0 log.

(** What the ring-buffer contract promises of one step of the history. *)
Definition ring_event_ok {T} (N : Z) (ev : ring_event T) : Prop :=
  0 <= RingBuffer.size (ev_after ev) <= N /\
  match ev_op ev with
  | OpWrite data =>
      ev_count ev = Z.min (cpp_size data) (N - RingBuffer.size (ev_before ev)) /\
      ring_contents (ev_after ev)
      = ring_contents (ev_before ev) ++ take (Z.to_nat (ev_count ev)) data
  | OpRead count =>
      ev_count ev = Z.min count (RingBuffer.size (ev_before ev)) /\
      ring_contents (ev_after ev)
      = drop (Z.to_nat (ev_count ev)) (ring_contents (ev_before ev))
  | OpPeek count =>
      ev_count ev = Z.min count (RingBuffer.size (ev_before ev)) /\
      RingBuffer.size (ev_after ev) = RingBuffer.size (ev_before ev) /\
      RingBuffer.read_pos_ (ev_after ev) = RingBuffer.read_pos_ (ev_before ev) /\
      RingBuffer.write_pos_ (ev_after ev) = RingBuffer.write_pos_ (ev_before ev)
  end.

(** The instance after its first [n] calls of [generateNonce], the call
    number [k] (from 0) reading [clock k]; and the nonce call number [n]
    returns. *)
Definition after_nonce_calls (st : MeshCrypto.t) (clock : N -> Z) (n : N)
  : MeshCrypto.t :=
  N.peano_rect (fun _ => MeshCrypto.t) st
    (fun k acc => fst (MeshCrypto.generateNonce acc (clock k))) n.

Definition nth_nonce (st : MeshCrypto.t) (clock : N -> Z) (n : N) : list byte :=
  snd (MeshCrypto.generateNonce (after_nonce_calls st clock n) (clock n)).

(** An engine on which [initialize] has not been called: a fresh one,
    or one reached from it through the other operations. *)
Inductive never_initialized : SyncEngine.t -> Prop :=
  | ni_new sample_rate channels initial_buffer_ms :
      never_initialized (SyncEngine.new sample_rate channels initial_buffer_ms)
  | ni_start pa se optimal_buffer_ms :
      never_initialized se ->
      never_initialized (fst (SyncEngine.start pa se optimal_buffer_ms))
  | ni_stop se :
      never_initialized se -> never_initialized (SyncEngine.stop se)
  | ni_updateSyncState se is_synced time_offset :
      never_initialized se ->
      never_initialized (SyncEngine.updateSyncState se is_synced time_offset)
  | ni_writeAudioData se data frames source_timestamp :
      never_initialized se ->
      never_initialized (fst (SyncEngine.writeAudioData se data frames source_timestamp)).

(** A handler that records every packet it is given, and throws on the
    packets [bad] selects. *)
Definition recording_handler (bad : MeshPacket -> bool)
  : MeshNetwork.PacketHandler (list MeshPacket) :=
  fun packet seen =>
    (seen ++ [packet],
     if bad packet then Some (runtime_error "handler failed") else None).

Definition is_beacon_of (t : Z) (p : MeshPacket) : bool :=
  match p with
  | TimeBeaconPacket m => m =? t
  | _ => false
  end.

(** Stand-ins for the OpenSSL and libsodium calls, used to run the engine
    on concrete inputs: the cipher leaves the payload as it is under an
    all-zero tag, and a signature is the signer's public key (the second
    half of a libsodium secret key) twice.  They answer like the real
    primitives wherever those succeed: opening what was sealed gives the
    payload back, and a signature verifies under the signer's key. *)
Definition plain_primitives : Primitives :=
  {| aes_256_gcm_seal := fun key nonce payload =>
       Some (payload, replicate 16 Byte.x00);
     aes_256_gcm_open := fun key nonce ciphertext tag => Some ciphertext;
     crypto_sign_detached := fun sk message => Some (drop 32 sk ++ drop 32 sk);
     crypto_sign_verify_detached := fun signature message pk =>
       bool_decide (byte.unsigned <$> signature = byte.unsigned <$> (pk ++ pk)) |}.

(** What a verifier needs of the primitives: sealing gives a 16-byte tag
    and opens again under the same key and nonce. *)
Definition aead_correct (P : Primitives) : Prop :=
  forall key nonce payload ciphertext tag,
    aes_256_gcm_seal P key nonce payload = Some (ciphertext, tag) ->
    length tag = 16%nat /\
    aes_256_gcm_open P key nonce ciphertext tag = Some payload.

(** ... and that what [sk] signs has 64 bytes and verifies under [pk]. *)
Definition signature_correct (P : Primitives) (pk sk : list byte) : Prop :=
  forall message signature,
    crypto_sign_detached P sk message = Some signature ->
    length signature = 64%nat /\
    crypto_sign_verify_detached P signature message pk = true.

(** The expiry field of a decrypted token: the eight bytes before the
    64-byte signature. *)
Definition token_expiry (decrypted : list byte) : Z :=
  le_combine (take 8 (drop (length decrypted - 64 - 16 + 8) decrypted)).

(** A well-formed audio buffer: what the constructor establishes and every
    operation keeps. *)
Record audio_inv (ab : AudioBuffer.t) : Prop := {
  ainv_channels : 0 < AudioBuffer.channels_ ab < 256;
  ainv_samples_per_ms : 0 < AudioBuffer.samples_per_ms_ ab < U32_MOD;
  ainv_ring :
    ring_inv (RingBuffer.capacity_ (AudioBuffer.buffer_ ab)) (AudioBuffer.buffer_ ab);
  ainv_timestamp : is_u64 (AudioBuffer.timestamp_ ab)
}.

(** The [samples_to_skip] of [read_samples], in frames. *)
Definition samples_to_skip (ab : AudioBuffer.t) (current_time : Z) : Z :=
  Z.min (u64 (i64 (AudioBuffer.time_diff current_time (AudioBuffer.timestamp_ ab)
                   * AudioBuffer.samples_per_ms_ ab)))
        (RingBuffer.size (AudioBuffer.buffer_ ab) / AudioBuffer.channels_ ab).

(** A sequence of reads, each a frame count and the clock reading passed
    with it. *)
Fixpoint read_all (ab : AudioBuffer.t) (requests : list (Z * Z)) : AudioBuffer.t :=
  match requests with
  | [] => ab
  | (count, current_time) :: rest =>
      read_all (fst (fst (AudioBuffer.read_samples ab count current_time))) rest
  end.

(** Every read of the sequence finds the buffer on time or late, and both
    its skip and its read take fewer frames than one millisecond holds. *)
Fixpoint small_reads (ab : AudioBuffer.t) (requests : list (Z * Z)) : Prop :=
  match requests with
  | [] => True
  | (count, current_time) :: rest =>
      0 <= AudioBuffer.time_diff current_time (AudioBuffer.timestamp_ ab) /\
      samples_to_skip ab current_time < AudioBuffer.samples_per_ms_ ab /\
      snd (AudioBuffer.read_samples ab count current_time)
        < AudioBuffer.samples_per_ms_ ab /\
      small_reads (fst (fst (AudioBuffer.read_samples ab count current_time))) rest
  end.

(** The audio buffers a program can hold: built by the constructor from
    arguments of its parameter types, then written, read, cleared and
    resized. *)
Inductive audio_reachable : AudioBuffer.t -> Prop :=
  | ar_new sample_rate channels buffer_ms ab :
      is_u32 sample_rate -> 0 <= channels < 256 -> is_u32 buffer_ms ->
      AudioBuffer.new sample_rate channels buffer_ms = inr ab ->
      audio_reachable ab
  | ar_write ab samples count timestamp :
      audio_reachable ab -> is_u64 timestamp ->
      audio_reachable (fst (AudioBuffer.write_samples ab samples count timestamp))
  | ar_read ab count current_time :
      audio_reachable ab ->
      audio_reachable (fst (fst (AudioBuffer.read_samples ab count current_time)))
  | ar_clear ab :
      audio_reachable ab -> audio_reachable (AudioBuffer.clear ab)
  | ar_resize ab buffer_ms :
      audio_reachable ab -> is_u32 buffer_ms ->
      audio_reachable (fst (AudioBuffer.set_buffer_size_ms ab buffer_ms)).

(** What the reads of a sequence of operations hand back, in order, and
    what its writes stored: the accepted prefix of each write. *)
Fixpoint ring_delivered {T} (rb : RingBuffer.t T) (ops : list (ring_op T)) : list T :=
  match ops with
  | [] => []
  | o :: ops' =>
      match o with
      | OpRead count => snd (fst (RingBuffer.read rb count))
      | _ => []
      end ++ ring_delivered (fst (ring_step rb o)) ops'
  end.

Fixpoint ring_accepted {T} (rb : RingBuffer.t T) (ops : list (ring_op T)) : list T :=
  match ops with
  | [] => []
  | o :: ops' =>
      match o with
      | OpWrite data => take (Z.to_nat (snd (ring_step rb o))) data
      | _ => []
      end ++ ring_accepted (fst (ring_step rb o)) ops'
  end.

(** The calls a client makes on a [SyncManager] that change it; a beacon
    comes with the clock readings of the moment it is handled. *)
Inductive sync_call : Type :=
  | CallHandleTimeBeacon (masterTime system_ms steady : Z)
  | CallUpdateNodeLatency (nodeId : string) (latency : Z)
  | CallEmergencySync (masterTime system_ms steady : Z).

Definition sync_step (st : SyncManager.t) (c : sync_call) : SyncManager.t :=
  match c with
  | CallHandleTimeBeacon masterTime system_ms steady =>
      fst (SyncManager.handleTimeBeacon st masterTime system_ms steady)
  | CallUpdateNodeLatency nodeId latency =>
      SyncManager.updateNodeLatency st nodeId latency
  | CallEmergencySync masterTime system_ms steady =>
      fst (SyncManager.emergencySync st masterTime system_ms steady)
  end.

Definition sync_run (st : SyncManager.t) (calls : list sync_call) : SyncManager.t :=
  foldl sync_step st calls.

(** The master time and wall-clock reading of a call that carries a
    beacon. *)
Definition beacon_of (c : sync_call) : option (Z * Z) :=
  match c with
  | CallHandleTimeBeacon masterTime system_ms _ => Some (masterTime, system_ms)
  | CallUpdateNodeLatency _ _ => None
  | CallEmergencySync masterTime system_ms _ => Some (masterTime, system_ms)
  end.

(** The most recent beacon among the calls. *)
Definition last_beacon (calls : list sync_call) : option (Z * Z) :=
  foldl (fun acc c => match beacon_of c with Some b => Some b | None => acc end)
        None calls.

(** The network and the handler's world an outcome of the worker leaves. *)
Definition outcome_state {H} (o : MeshNetwork.outcome H) : MeshNetwork.t H :=
  match o with
  | MeshNetwork.Returned st _ => st
  | MeshNetwork.Thrown st _ _ => st
  | MeshNetwork.Deadlocked st _ => st
  end.

Definition outcome_env {H} (o : MeshNetwork.outcome H) : H :=
  match o with
  | MeshNetwork.Returned _ env => env
  | MeshNetwork.Thrown _ env _ => env
  | MeshNetwork.Deadlocked _ env => env
  end.

(** Two records of the same node that differ at most in the time of the
    last ping. *)
Definition same_but_ping (n n' : Node.t) : Prop :=
  Node.id n' = Node.id n /\ Node.role n' = Node.role n /\
  Node.latency n' = Node.latency n /\ Node.bufferState n' = Node.bufferState n.

(** A sequence of [registerNode] calls. *)
Definition register_all {H} (st : MeshNetwork.t H) (regs : list (string * NodeRole))
  : MeshNetwork.t H :=
  foldl (fun acc r => MeshNetwork.registerNode acc (fst r) (snd r)) st regs.

(** Two states of the network with the same nodes, whose records differ
    at most in the time of the last ping. *)
Definition only_pings_differ {H} (st st' : MeshNetwork.t H) : Prop :=
  forall k,
    match MeshNetwork.nodes st !! k, MeshNetwork.nodes st' !! k with
    | Some n, Some n' => same_but_ping n n'
    | None, None => True
    | _, _ => False
    end.

(** The handler's world after it was given the packets in turn. *)
Definition deliver_all {H} (h : MeshNetwork.PacketHandler H) (env : H)
    (packets : list MeshPacket) : H :=
  foldl (fun e p => fst (h p e)) env packets.

(** The engines a program can hold: built by the constructor from
    arguments of its parameter types, then driven through the public
    operations in any order. *)
Inductive engine_reachable : SyncEngine.t -> Prop :=
  | er_new sample_rate channels initial_buffer_ms :
      is_u32 sample_rate -> 0 <= channels < 256 ->
      engine_reachable (SyncEngine.new sample_rate channels initial_buffer_ms)
  | er_initialize pa se time_provider :
      engine_reachable se ->
      engine_reachable (fst (SyncEngine.initialize pa se time_provider))
  | er_start pa se optimal_buffer_ms :
      engine_reachable se ->
      engine_reachable (fst (SyncEngine.start pa se optimal_buffer_ms))
  | er_stop se :
      engine_reachable se -> engine_reachable (SyncEngine.stop se)
  | er_updateSyncState se is_synced time_offset :
      engine_reachable se ->
      engine_reachable (SyncEngine.updateSyncState se is_synced time_offset)
  | er_writeAudioData se data frames source_timestamp :
      engine_reachable se -> is_u64 source_timestamp ->
      engine_reachable (fst (SyncEngine.writeAudioData se data frames source_timestamp)).

(** What holds of the stream of an engine, when it has one. *)
Definition stream_ok (se : SyncEngine.t) (s : AudioStream.t) : Prop :=
  AudioStream.stream_ s = true /\
  AudioStream.is_initialized_ s = true /\
  AudioStream.channels_ s = SyncEngine.channels_ se /\
  AudioBuffer.channels_ (AudioStream.buffer_ s) = SyncEngine.channels_ se /\
  AudioBuffer.samples_per_ms_ (AudioStream.buffer_ s) = SyncEngine.sample_rate_ se / 1000 /\
  audio_inv (AudioStream.buffer_ s).

(** The calls a client makes on an [AudioSync]; the shared manager goes
    through [before] between one call and the next. *)
Inductive audio_call : Type :=
  | CallStartPlayback (before : list sync_call)
  | CallStopPlayback
  | CallAdjustBitrate (networkQuality : spec_float).

Definition audio_step (state : SyncManager.t * AudioSync.t) (c : audio_call)
  : SyncManager.t * AudioSync.t :=
  let '(sm, a) := state in
  match c with
  | CallStartPlayback before =>
      let sm' := sync_run sm before in
      (sm', fst (AudioSync.startPlayback sm' a))
  | CallStopPlayback => (sm, AudioSync.stopPlayback a)
  | CallAdjustBitrate networkQuality => (sm, AudioSync.adjustBitrate networkQuality a)
  end.

Definition audio_run (state : SyncManager.t * AudioSync.t) (calls : list audio_call)
  : SyncManager.t * AudioSync.t :=
  foldl audio_step state calls.






(** * Properties *)

(** ** Facts about the machine integers *)

Lemma u64_small z : is_u64 z -> u64 z = z.
Proof. intros H. apply Z.mod_small, H. Qed.

Lemma u32_small z : is_u32 z -> u32 z = z.
Proof. intros H. apply Z.mod_small, H. Qed.

Lemma u64_range z : is_u64 (u64 z).
Proof. apply Z.mod_pos_bound. reflexivity. Qed.

Lemma u32_range z : is_u32 (u32 z).
Proof. apply Z.mod_pos_bound. reflexivity. Qed.

Lemma i64_small z : is_i64 z -> i64 z = z.
Proof.
  intros [Hlo Hhi]. unfold i64.
  rewrite Z.mod_small; unfold I64_HALF, U64_MOD in *; lia.
Qed.

Lemma i64_range z : is_i64 (i64 z).
Proof.
  unfold is_i64, i64.
  pose proof (Z.mod_pos_bound (z + I64_HALF) U64_MOD eq_refl) as H.
  unfold I64_HALF, U64_MOD in *. lia.
Qed.

(** The signed and the unsigned wrap of a value agree modulo [2^64]. *)
Lemma u64_i64 z : u64 (i64 z) = u64 z.
Proof.
  unfold u64, i64.
  rewrite Zminus_mod, Zmod_mod, <- Zminus_mod.
  f_equal. lia.
Qed.

Lemma i64_u64 z : i64 (u64 z) = i64 z.
Proof.
  unfold u64, i64. f_equal.
  rewrite Zplus_mod, Zmod_mod, <- Zplus_mod. reflexivity.
Qed.

Lemma u64_add_l a b : u64 (u64 a + b) = u64 (a + b).
Proof. unfold u64. apply Zplus_mod_idemp_l. Qed.

Lemma u64_add_r a b : u64 (a + u64 b) = u64 (a + b).
Proof. unfold u64. apply Zplus_mod_idemp_r. Qed.

Lemma u64_sub_r a b : u64 (a - u64 b) = u64 (a - b).
Proof. unfold u64. apply Zminus_mod_idemp_r. Qed.

Lemma i64_sub_l a b : i64 (i64 a - b) = i64 (a - b).
Proof.
  rewrite <- (i64_u64 (i64 a - b)), <- (i64_u64 (a - b)). f_equal.
  unfold u64. rewrite <- (Zminus_mod_idemp_l (i64 a)), <- (Zminus_mod_idemp_l a).
  f_equal. f_equal. apply u64_i64.
Qed.

Lemma i64_sub_r a b : i64 (a - i64 b) = i64 (a - b).
Proof.
  rewrite <- (i64_u64 (a - i64 b)), <- (i64_u64 (a - b)). f_equal.
  unfold u64. rewrite <- (Zminus_mod_idemp_r a (i64 b)), <- (Zminus_mod_idemp_r a b).
  f_equal. f_equal. apply u64_i64.
Qed.

(** ** RingBuffer: invariant and counts *)

Ltac unfold_consts :=
  unfold is_u64, is_u32, is_i64, VECTOR_MAX_SIZE, I64_HALF, U64_MOD, U32_MOD in *.

(** Closes a closed goal by evaluation. *)
Ltac solve_concrete := vm_compute; repeat split; (reflexivity || congruence).

Lemma memcpy_to_length {T} (buf : list T) pos src :
  0 <= pos ->
  (Z.to_nat pos + length src <= length buf)%nat ->
  length (RingBuffer.memcpy_to buf pos src) = length buf.
Proof.
  intros Hpos Hfit. unfold RingBuffer.memcpy_to.
  rewrite !length_app, length_take, length_drop. lia.
Qed.

Lemma ring_new_inv {T} (dflt : T) N rb :
  0 <= N ->
  RingBuffer.new dflt N = inr rb -> ring_inv N rb.
Proof.
  unfold RingBuffer.new. intros HN Hnew.
  destruct (VECTOR_MAX_SIZE <? N) eqn:Hmax; [discriminate|].
  destruct (N =? 0) eqn:Hzero; [discriminate|].
  injection Hnew as <-.
  apply Z.ltb_ge in Hmax. apply Z.eqb_neq in Hzero.
  split; simpl; try lia.
  - apply length_replicate.
  - rewrite Z.mod_0_l; lia.
Qed.

Lemma ring_write_spec {T} N (rb : RingBuffer.t T) data count :
  ring_inv N rb -> 0 <= count ->
  let rb' := fst (RingBuffer.write rb data count) in
  let k := snd (RingBuffer.write rb data count) in
  ring_inv N rb' /\
  k = Z.min count (N - RingBuffer.size_ rb) /\
  RingBuffer.size_ rb' = RingBuffer.size_ rb + k /\
  RingBuffer.read_pos_ rb' = RingBuffer.read_pos_ rb.
Proof.
  intros [Hcap Hb Hlen Hwp Hrp Hsz Hpos] Hcount. unfold RingBuffer.write.
  rewrite Hcap.
  rewrite (u64_small (N - RingBuffer.size_ rb)) by (unfold_consts; lia).
  rewrite (u64_small (N - RingBuffer.write_pos_ rb)) by (unfold_consts; lia).
  destruct (count =? 0) eqn:Hc0; simpl.
  { apply Z.eqb_eq in Hc0. repeat split; try assumption; lia. }
  apply Z.eqb_neq in Hc0.
  set (to_write := Z.min count (N - RingBuffer.size_ rb)).
  destruct (to_write =? 0) eqn:Hw0; simpl.
  { apply Z.eqb_eq in Hw0. repeat split; try assumption; lia. }
  apply Z.eqb_neq in Hw0.
  set (first_part := Z.min to_write (N - RingBuffer.write_pos_ rb)).
  assert (0 < to_write <= N - RingBuffer.size_ rb) as Htw by (subst to_write; lia).
  assert (0 < first_part <= to_write) as Hfp by (subst first_part; lia).
  rewrite (u64_small (RingBuffer.write_pos_ rb + to_write)) by (unfold_consts; lia).
  rewrite (u64_small (RingBuffer.size_ rb + to_write)) by (unfold_consts; lia).
  assert (length (RingBuffer.memcpy_to (RingBuffer.buffer_ rb) (RingBuffer.write_pos_ rb)
                    (take (Z.to_nat first_part) data)) = Z.to_nat N) as Hlen1.
  { rewrite memcpy_to_length; [assumption|lia|].
    rewrite length_take, Hlen. subst first_part. lia. }
  repeat split; simpl; try lia.
  - destruct (first_part <? to_write) eqn:Hsplit; [|assumption].
    apply Z.ltb_lt in Hsplit.
    rewrite memcpy_to_length; [assumption|lia|].
    rewrite length_take, Hlen1. lia.
  - apply Z.mod_pos_bound. lia.
  - apply Z.mod_pos_bound. lia.
  - rewrite Hpos, Zplus_mod_idemp_l. f_equal. lia.
Qed.

Lemma ring_read_spec {T} N (rb : RingBuffer.t T) count :
  ring_inv N rb -> 0 <= count ->
  let rb' := fst (fst (RingBuffer.read rb count)) in
  let k := snd (RingBuffer.read rb count) in
  ring_inv N rb' /\
  k = Z.min count (RingBuffer.size_ rb) /\
  RingBuffer.size_ rb' = RingBuffer.size_ rb - k /\
  RingBuffer.write_pos_ rb' = RingBuffer.write_pos_ rb /\
  RingBuffer.buffer_ rb' = RingBuffer.buffer_ rb /\
  RingBuffer.read_pos_ rb' = (RingBuffer.read_pos_ rb + k) mod N.
Proof.
  intros [Hcap Hb Hlen Hwp Hrp Hsz Hpos] Hcount. unfold RingBuffer.read.
  rewrite Hcap.
  destruct ((count =? 0) || (RingBuffer.size_ rb =? 0)) eqn:Hc0; simpl.
  { rewrite Z.add_0_r, (Z.mod_small (RingBuffer.read_pos_ rb)) by lia.
    apply orb_true_iff in Hc0 as [H0|H0]; apply Z.eqb_eq in H0;
      repeat split; try assumption; lia. }
  apply orb_false_iff in Hc0 as [Hc Hs].
  apply Z.eqb_neq in Hc. apply Z.eqb_neq in Hs.
  set (to_read := Z.min count (RingBuffer.size_ rb)).
  assert (0 < to_read <= RingBuffer.size_ rb) as Htr by (subst to_read; lia).
  rewrite (u64_small (RingBuffer.read_pos_ rb + to_read)) by (unfold_consts; lia).
  rewrite (u64_small (RingBuffer.size_ rb - to_read)) by (unfold_consts; lia).
  repeat split; simpl; try lia.
  - apply Z.mod_pos_bound. lia.
  - apply Z.mod_pos_bound. lia.
  - rewrite Zplus_mod_idemp_l, Hpos. f_equal. lia.
Qed.

Lemma ring_peek_count {T} N (rb : RingBuffer.t T) count :
  ring_inv N rb -> 0 <= count ->
  snd (RingBuffer.peek rb count) = Z.min count (RingBuffer.size_ rb).
Proof.
  intros [Hcap Hb Hlen Hwp Hrp Hsz Hpos] Hcount. unfold RingBuffer.peek.
  destruct ((count =? 0) || (RingBuffer.size_ rb =? 0)) eqn:Hc0; simpl; [|reflexivity].
  apply orb_true_iff in Hc0 as [H0|H0]; apply Z.eqb_eq in H0; lia.
Qed.

(** [peek] hands out exactly what [read] would. *)
Lemma ring_peek_read {T} (rb : RingBuffer.t T) count :
  RingBuffer.peek rb count =
  (snd (fst (RingBuffer.read rb count)), snd (RingBuffer.read rb count)).
Proof.
  unfold RingBuffer.peek, RingBuffer.read.
  destruct ((count =? 0) || (RingBuffer.size_ rb =? 0)); reflexivity.
Qed.

(** ** RingBuffer: contents *)

Lemma mod_wrap_hi a N : N <= a < 2 * N -> a mod N = a - N.
Proof.
  intros H. replace a with (a - N + 1 * N) at 1 by lia.
  rewrite Z_mod_plus_full. apply Z.mod_small. lia.
Qed.

Lemma mod_wrap_neg a N : - N <= a < 0 -> a mod N = a + N.
Proof.
  intros H. replace a with (a + N + (-1) * N) at 1 by lia.
  rewrite Z_mod_plus_full. apply Z.mod_small. lia.
Qed.

Lemma memcpy_to_lookup {T} (buf : list T) pos src (j : nat) :
  0 <= pos ->
  (Z.to_nat pos + length src <= length buf)%nat ->
  RingBuffer.memcpy_to buf pos src !! j
  = if decide (Z.to_nat pos <= j < Z.to_nat pos + length src)%nat
    then src !! (j - Z.to_nat pos)%nat
    else buf !! j.
Proof.
  intros Hpos Hfit. unfold RingBuffer.memcpy_to.
  destruct (decide (j < Z.to_nat pos)%nat) as [Hlt|Hge].
  - rewrite lookup_app_l by (rewrite length_take; lia).
    rewrite lookup_take_lt by lia.
    destruct (decide _) as [[? ?]|_]; [lia|reflexivity].
  - rewrite lookup_app_r by (rewrite length_take; lia).
    rewrite length_take.
    replace (Z.to_nat pos `min` length buf)%nat with (Z.to_nat pos) by lia.
    destruct (decide (j - Z.to_nat pos < length src)%nat) as [Hin|Hout].
    + rewrite lookup_app_l by lia.
      destruct (decide _) as [_|Hno]; [reflexivity|lia].
    + rewrite lookup_app_r by lia. rewrite lookup_drop.
      destruct (decide _) as [[? ?]|_]; [lia|]. f_equal. lia.
Qed.

Lemma copy_out_length {T} N (rb : RingBuffer.t T) k :
  ring_inv N rb -> 0 <= k <= N ->
  length (RingBuffer.copy_out rb k) = Z.to_nat k.
Proof.
  intros [Hcap Hb Hlen Hwp Hrp Hsz Hpos] Hk.
  unfold RingBuffer.copy_out, RingBuffer.memcpy_from. rewrite Hcap.
  rewrite u64_small by (unfold_consts; lia).
  rewrite length_app, length_take, length_drop, Hlen.
  destruct (Z.ltb_spec (Z.min k (N - RingBuffer.read_pos_ rb)) k) as [Hsplit|Hwhole].
  - rewrite length_take, length_drop, Hlen. lia.
  - simpl. lia.
Qed.

Lemma copy_out_lookup {T} N (rb : RingBuffer.t T) k (i : nat) :
  ring_inv N rb -> 0 <= k <= N -> (i < Z.to_nat k)%nat ->
  RingBuffer.copy_out rb k !! i
  = RingBuffer.buffer_ rb !! ring_cell N (RingBuffer.read_pos_ rb) i.
Proof.
  intros [Hcap Hb Hlen Hwp Hrp Hsz Hpos] Hk Hi.
  unfold RingBuffer.copy_out, RingBuffer.memcpy_from, ring_cell. rewrite Hcap.
  rewrite u64_small by (unfold_consts; lia).
  set (first_part := Z.min k (N - RingBuffer.read_pos_ rb)).
  destruct (decide (i < Z.to_nat first_part)%nat) as [Hfirst|Hsecond].
  - rewrite lookup_app_l by (rewrite length_take, length_drop, Hlen; lia).
    rewrite lookup_take_lt by lia. rewrite lookup_drop.
    f_equal. rewrite Z.mod_small by lia. lia.
  - destruct (Z.ltb_spec first_part k) as [Hsplit|Hwhole]; [|lia].
    rewrite lookup_app_r by (rewrite length_take, length_drop, Hlen; lia).
    rewrite length_take, length_drop, Hlen.
    rewrite lookup_take_lt by lia. rewrite lookup_drop.
    f_equal. rewrite mod_wrap_hi by lia. lia.
Qed.

Lemma ring_contents_length {T} N (rb : RingBuffer.t T) :
  ring_inv N rb -> length (ring_contents rb) = Z.to_nat (RingBuffer.size_ rb).
Proof.
  intros Hinv. apply (copy_out_length N); [assumption|apply (inv_size N _ Hinv)].
Qed.

(** A copy out of the ring is determined by the cells it reads. *)
Lemma copy_out_ext {T} N (rb1 : RingBuffer.t T) k1 (l : list T) :
  ring_inv N rb1 -> 0 <= k1 <= N ->
  length l = Z.to_nat k1 ->
  (forall i, (i < Z.to_nat k1)%nat ->
     l !! i = RingBuffer.buffer_ rb1 !! ring_cell N (RingBuffer.read_pos_ rb1) i) ->
  RingBuffer.copy_out rb1 k1 = l.
Proof.
  intros Hinv Hk Hlen Hcells.
  apply list_eq. intros i.
  destruct (decide (i < Z.to_nat k1)%nat) as [Hi|Hi].
  - rewrite (copy_out_lookup N) by assumption. symmetry. apply Hcells, Hi.
  - rewrite !lookup_ge_None_2; [reflexivity|lia|].
    rewrite (copy_out_length N) by assumption. lia.
Qed.

Lemma ring_cell_shift N read_pos (k i : nat) :
  0 < N ->
  ring_cell N ((read_pos + Z.of_nat k) mod N) i = ring_cell N read_pos (k + i).
Proof.
  intros HN. unfold ring_cell. f_equal.
  rewrite Zplus_mod_idemp_l. f_equal. lia.
Qed.

(** [read] returns the oldest queued elements and leaves the others. *)
Lemma ring_read_contents {T} N (rb : RingBuffer.t T) count :
  ring_inv N rb -> 0 <= count ->
  let rb' := fst (fst (RingBuffer.read rb count)) in
  let out := snd (fst (RingBuffer.read rb count)) in
  let k := snd (RingBuffer.read rb count) in
  out = take (Z.to_nat k) (ring_contents rb) /\
  ring_contents rb' = drop (Z.to_nat k) (ring_contents rb).
Proof.
  intros Hinv Hcount.
  destruct (ring_read_spec N rb count Hinv Hcount)
    as (Hinv' & Hk & Hsize & _ & Hbuf & Hrp').
  pose proof (inv_size N _ Hinv) as Hsz.
  pose proof (inv_bound N _ Hinv) as HN.
  pose proof (ring_contents_length N rb Hinv) as Hlen.
  cbv zeta in *.
  set (k := snd (RingBuffer.read rb count)) in *.
  assert (snd (fst (RingBuffer.read rb count))
          = RingBuffer.copy_out rb k) as Hout.
  { subst k. unfold RingBuffer.read.
    destruct ((count =? 0) || (RingBuffer.size_ rb =? 0)); [|reflexivity].
    simpl. symmetry. apply nil_length_inv.
    rewrite (copy_out_length N) by (assumption || lia). reflexivity. }
  split.
  - rewrite Hout. apply (copy_out_ext N); [assumption|lia| |].
    + rewrite length_take, Hlen. lia.
    + intros i Hi. rewrite lookup_take_lt by lia.
      unfold ring_contents. apply (copy_out_lookup N); [assumption|lia|lia].
  - unfold ring_contents at 1. rewrite Hsize.
    apply (copy_out_ext N); [assumption|lia| |].
    + rewrite length_drop, Hlen. lia.
    + intros i Hi. rewrite lookup_drop, Hbuf, Hrp'.
      replace k with (Z.of_nat (Z.to_nat k)) at 2 by lia.
      rewrite ring_cell_shift by lia.
      unfold ring_contents. apply (copy_out_lookup N); [assumption|lia|lia].
Qed.

Ltac goal_decide :=
  match goal with |- context [decide ?P] => destruct (decide P) end.

(** The cells [write] stores into are the [k] cells from [write_pos] on,
    around the end of the array; the others keep their value. *)
Lemma ring_write_buffer_lookup {T} N (rb : RingBuffer.t T) data count (j : nat) :
  ring_inv N rb -> 0 <= count <= cpp_size data -> (j < Z.to_nat N)%nat ->
  let rb' := fst (RingBuffer.write rb data count) in
  let k := snd (RingBuffer.write rb data count) in
  let d := (Z.of_nat j - RingBuffer.write_pos_ rb) mod N in
  RingBuffer.buffer_ rb' !! j
  = if decide (d < k) then data !! Z.to_nat d else RingBuffer.buffer_ rb !! j.
Proof.
  intros [Hcap Hb Hlen Hwp Hrp Hsz Hpos] [Hcount Hdata] Hj. cbv zeta.
  unfold cpp_size in Hdata.
  assert (0 <= (Z.of_nat j - RingBuffer.write_pos_ rb) mod N < N) as Hd
    by (apply Z.mod_pos_bound; lia).
  unfold RingBuffer.write. rewrite Hcap.
  rewrite (u64_small (N - RingBuffer.size_ rb)) by (unfold_consts; lia).
  rewrite (u64_small (N - RingBuffer.write_pos_ rb)) by (unfold_consts; lia).
  destruct (count =? 0) eqn:Hc0; simpl.
  { goal_decide; [lia|reflexivity]. }
  set (to_write := Z.min count (N - RingBuffer.size_ rb)).
  destruct (to_write =? 0) eqn:Hw0; simpl.
  { goal_decide; [lia|reflexivity]. }
  apply Z.eqb_neq in Hc0. apply Z.eqb_neq in Hw0.
  set (wp := RingBuffer.write_pos_ rb) in *.
  set (first_part := Z.min to_write (N - wp)).
  assert (0 < to_write <= N - RingBuffer.size_ rb) as Htw by (subst to_write; lia).
  assert (to_write <= Z.of_nat (length data)) as Htd by (subst to_write; lia).
  assert (0 < first_part <= to_write) as Hfp by (subst first_part; lia).
  assert (length (take (Z.to_nat first_part) data) = Z.to_nat first_part) as Hsrc1
    by (rewrite length_take; lia).
  assert (Z.to_nat wp + length (take (Z.to_nat first_part) data)
          <= length (RingBuffer.buffer_ rb))%nat as Hfit1
    by (rewrite Hsrc1, Hlen; subst first_part; lia).
  pose proof (memcpy_to_lookup (RingBuffer.buffer_ rb) wp
                (take (Z.to_nat first_part) data) j ltac:(lia) Hfit1) as Hbuf1.
  rewrite Hsrc1 in Hbuf1.
  destruct (Z.ltb_spec first_part to_write) as [Hsplit|Hwhole].
  - (* the copy goes round the end of the array *)
    assert (first_part = N - wp) as Hfp_eq by (subst first_part; lia).
    assert (length (take (Z.to_nat (to_write - first_part))
                      (drop (Z.to_nat first_part) data))
            = Z.to_nat (to_write - first_part)) as Hsrc2
      by (rewrite length_take, length_drop; lia).
    rewrite memcpy_to_lookup;
      [|lia|rewrite Hsrc2, memcpy_to_length by (lia || assumption); rewrite Hlen; lia].
    rewrite Hsrc2.
    destruct (decide (Z.to_nat 0 <= j < Z.to_nat 0 + Z.to_nat (to_write - first_part))%nat)
      as [Hhead|Hnot].
    + rewrite (mod_wrap_neg (Z.of_nat j - wp)) by lia.
      goal_decide; [|lia].
      rewrite lookup_take_lt by lia. rewrite lookup_drop. f_equal. lia.
    + rewrite Hbuf1.
      destruct (decide (Z.to_nat wp <= j < Z.to_nat wp + Z.to_nat first_part)%nat)
        as [Htail|Hout].
      * rewrite (Z.mod_small (Z.of_nat j - wp)) by lia.
        goal_decide; [|lia].
        rewrite lookup_take_lt by lia. f_equal. lia.
      * rewrite (mod_wrap_neg (Z.of_nat j - wp)) by lia.
        goal_decide; [lia|reflexivity].
  - (* one piece *)
    assert (first_part = to_write) as Hfp_eq by lia.
    rewrite Hbuf1.
    destruct (decide (Z.to_nat wp <= j < Z.to_nat wp + Z.to_nat first_part)%nat)
      as [Hin|Hout].
    + rewrite (Z.mod_small (Z.of_nat j - wp)) by lia.
      goal_decide; [|lia].
      rewrite lookup_take_lt by lia. f_equal. lia.
    + destruct (decide (j < Z.to_nat wp)%nat) as [Hlow|Hhigh].
      * rewrite (mod_wrap_neg (Z.of_nat j - wp)) by lia.
        goal_decide; [lia|reflexivity].
      * rewrite (Z.mod_small (Z.of_nat j - wp)) by lia.
        goal_decide; [lia|reflexivity].
Qed.

(** [write] appends what it copied behind the queued elements. *)
Lemma ring_write_contents {T} N (rb : RingBuffer.t T) data count :
  ring_inv N rb -> 0 <= count <= cpp_size data ->
  let rb' := fst (RingBuffer.write rb data count) in
  let k := snd (RingBuffer.write rb data count) in
  ring_contents rb' = ring_contents rb ++ take (Z.to_nat k) data.
Proof.
  intros Hinv Hcount.
  destruct (ring_write_spec N rb data count Hinv ltac:(lia))
    as (Hinv' & Hk & Hsize & Hrp').
  pose proof (inv_size N _ Hinv) as Hsz.
  pose proof (inv_size N _ Hinv') as Hsz'.
  pose proof (inv_bound N _ Hinv) as HN.
  pose proof (inv_read_pos N _ Hinv) as Hrp.
  pose proof (inv_positions N _ Hinv) as Hpos.
  pose proof (ring_contents_length N rb Hinv) as Hlen.
  cbv zeta in *.
  set (k := snd (RingBuffer.write rb data count)) in *.
  set (rb' := fst (RingBuffer.write rb data count)) in *.
  unfold ring_contents at 1.
  unfold cpp_size in Hcount.
  apply (copy_out_ext N); [assumption|lia| |].
  - rewrite length_app, length_take, Hlen, Hsize. lia.
  - intros i Hi. rewrite Hrp'.
    assert (ring_cell N (RingBuffer.read_pos_ rb) i < Z.to_nat N)%nat as Hcell.
    { unfold ring_cell.
      pose proof (Z.mod_pos_bound (RingBuffer.read_pos_ rb + Z.of_nat i) N ltac:(lia)).
      lia. }
    pose proof (ring_write_buffer_lookup N rb data count _ Hinv
                  ltac:(unfold cpp_size; lia) Hcell) as Hcellv.
    cbv zeta in Hcellv. fold k in Hcellv. fold rb' in Hcellv.
    rewrite Hcellv. clear Hcellv.
    assert ((Z.of_nat (ring_cell N (RingBuffer.read_pos_ rb) i)
             - RingBuffer.write_pos_ rb) mod N
            = (Z.of_nat i - RingBuffer.size_ rb) mod N) as ->.
    { unfold ring_cell. rewrite Z2Nat.id by (apply Z.mod_pos_bound; lia).
      rewrite Hpos, <- Zminus_mod. f_equal. lia. }
    destruct (decide (i < Z.to_nat (RingBuffer.size_ rb))%nat) as [Hold|Hnew].
    + rewrite (mod_wrap_neg (Z.of_nat i - RingBuffer.size_ rb)) by lia.
      goal_decide; [lia|].
      rewrite lookup_app_l by lia.
      unfold ring_contents.
      apply (copy_out_lookup N); [assumption|lia|lia].
    + rewrite (Z.mod_small (Z.of_nat i - RingBuffer.size_ rb)) by lia.
      goal_decide; [|lia].
      rewrite lookup_app_r by lia. rewrite Hlen.
      rewrite lookup_take_lt by lia.
      f_equal. lia.
Qed.

Lemma ring_new_contents {T} (dflt : T) N rb :
  0 <= N -> RingBuffer.new dflt N = inr rb -> ring_contents rb = [].
Proof.
  intros HN Hnew. apply nil_length_inv.
  rewrite (ring_contents_length N) by (apply (ring_new_inv dflt); assumption).
  unfold RingBuffer.new in Hnew.
  destruct (VECTOR_MAX_SIZE <? N); [discriminate|].
  destruct (N =? 0); [discriminate|].
  injection Hnew as <-. reflexivity.
Qed.

(** ** RingBuffer: sequences of operations *)

Lemma ring_step_spec {T} N (rb : RingBuffer.t T) o :
  ring_inv N rb -> ring_op_valid o ->
  let rb' := fst (ring_step rb o) in
  let k := snd (ring_step rb o) in
  ring_inv N rb' /\
  ring_event_ok N {| ev_before := rb; ev_op := o; ev_after := rb'; ev_count := k |} /\
  written_by {| ev_before := rb; ev_op := o; ev_after := rb'; ev_count := k |}
    + RingBuffer.size rb
  = read_by {| ev_before := rb; ev_op := o; ev_after := rb'; ev_count := k |}
    + RingBuffer.size rb'.
Proof.
  intros Hinv Hvalid.
  destruct o as [data|count|count]; simpl in Hvalid; destruct Hvalid as [Hlo Hhi].
  - destruct (ring_write_spec N rb data (cpp_size data) Hinv Hlo)
      as (Hinv' & Hk & Hsize & _).
    pose proof (ring_write_contents N rb data (cpp_size data) Hinv ltac:(lia)) as Hcont.
    pose proof (inv_size N _ Hinv').
    unfold ring_event_ok, written_by, read_by, RingBuffer.size; simpl.
    split; [assumption|]. repeat split; try lia. exact Hcont.
  - destruct (ring_read_spec N rb count Hinv Hlo) as (Hinv' & Hk & Hsize & _).
    destruct (ring_read_contents N rb count Hinv Hlo) as (_ & Hcont).
    pose proof (inv_size N _ Hinv').
    unfold ring_step, ring_event_ok, written_by, read_by, RingBuffer.size.
    destruct (RingBuffer.read rb count) as [[rb' out] k]; simpl in *.
    split; [assumption|]. repeat split; try lia. exact Hcont.
  - pose proof (ring_peek_count N rb count Hinv Hlo) as Hk.
    pose proof (inv_size N _ Hinv).
    unfold ring_event_ok, written_by, read_by, RingBuffer.size; simpl.
    split; [assumption|]. repeat split; lia.
Qed.

Lemma ring_run_spec {T} N (ops : list (ring_op T)) :
  forall rb, ring_inv N rb -> Forall ring_op_valid ops ->
  ring_inv N (snd (ring_run rb ops)) /\
  Forall (ring_event_ok N) (fst (ring_run rb ops)) /\
  total_written (fst (ring_run rb ops)) + RingBuffer.size rb
  = total_read (fst (ring_run rb ops)) + RingBuffer.size (snd (ring_run rb ops)).
Proof.
  induction ops as [|o ops IH]; intros rb Hinv Hvalid; simpl.
  - split; [assumption|]. split; [constructor|reflexivity].
  - inversion Hvalid as [|? ? Ho Hops]; subst.
    destruct (ring_step_spec N rb o Hinv Ho) as (Hinv' & Hev & Hbal).
    destruct (ring_step rb o) as [rb' k] eqn:Hstep; simpl in *.
    destruct (IH rb' Hinv' Hops) as (Hfinal & Hlog & Htot).
    destruct (ring_run rb' ops) as [log final]; simpl in *.
    split; [assumption|]. split; [constructor; assumption|].
    fold (total_written log). fold (total_read log). lia.
Qed.

(** C4.  A ring built with capacity [N] has [N > 0] and keeps
    [0 <= size <= N] through any finite sequence of [write]/[read]/[peek];
    a write of [n] elements copies the first [min n (N - size)] of them
    behind the queued ones, a read of [m] takes the oldest [min m size], a
    peek leaves [size], [read_pos] and [write_pos] as they were; and the
    elements written in total are the elements read in total plus what is
    left at the end. *)
Theorem ring_conservation {T} (dflt : T) (N : Z) (rb0 : RingBuffer.t T)
    (ops : list (ring_op T)) :
  0 <= N ->
  RingBuffer.new dflt N = inr rb0 ->
  Forall ring_op_valid ops ->
  0 < N /\
  Forall (ring_event_ok N) (fst (ring_run rb0 ops)) /\
  0 <= RingBuffer.size (snd (ring_run rb0 ops)) <= N /\
  total_written (fst (ring_run rb0 ops))
  = total_read (fst (ring_run rb0 ops)) + RingBuffer.size (snd (ring_run rb0 ops)).
Proof.
  intros HN Hnew Hvalid.
  pose proof (ring_new_inv dflt N rb0 HN Hnew) as Hinv.
  destruct (ring_run_spec N ops rb0 Hinv Hvalid) as (Hfinal & Hlog & Htot).
  assert (RingBuffer.size rb0 = 0) as Hsize0.
  { unfold RingBuffer.new in Hnew.
    destruct (VECTOR_MAX_SIZE <? N); [discriminate|].
    destruct (N =? 0); [discriminate|]. injection Hnew as <-. reflexivity. }
  split; [apply (inv_bound N _ Hinv)|]. split; [assumption|].
  split; [apply (inv_size N _ Hfinal)|]. lia.
Qed.

Lemma ring_conservation_witness :
  let ops := [OpWrite [1; 2; 3]; OpRead 2; OpPeek 5; OpWrite [4; 5; 6; 7]; OpRead 10] in
  match RingBuffer.new 0 4 with
  | inr rb0 =>
      0 <= 4 /\
      Forall ring_op_valid ops /\
      Forall (ring_event_ok 4) (fst (ring_run rb0 ops)) /\
      total_written (fst (ring_run rb0 ops))
      = total_read (fst (ring_run rb0 ops)) + RingBuffer.size (snd (ring_run rb0 ops))
  | inl _ => False
  end.
Proof.
  cbv zeta.
  destruct (RingBuffer.new 0 4) as [e|rb0] eqn:Hnew; [vm_compute in Hnew; discriminate|].
  assert (Forall (@ring_op_valid Z)
            [OpWrite [1; 2; 3]; OpRead 2; OpPeek 5; OpWrite [4; 5; 6; 7]; OpRead 10])
    as Hvalid by (repeat constructor; solve_concrete).
  destruct (ring_conservation 0 4 rb0 _ ltac:(lia) Hnew Hvalid) as (_ & Hlog & _ & Htot).
  split; [lia|]. split; [exact Hvalid|]. split; [exact Hlog|exact Htot].
Defined.

(** ** AudioBuffer *)

Lemma ring_read_eqn {T} N (rb rb' : RingBuffer.t T) count out k :
  ring_inv N rb -> 0 <= count ->
  RingBuffer.read rb count = (rb', out, k) ->
  ring_inv N rb' /\
  k = Z.min count (RingBuffer.size_ rb) /\
  RingBuffer.size_ rb' = RingBuffer.size_ rb - k /\
  out = take (Z.to_nat k) (ring_contents rb) /\
  ring_contents rb' = drop (Z.to_nat k) (ring_contents rb).
Proof.
  intros Hinv Hcount Hread.
  destruct (ring_read_spec N rb count Hinv Hcount) as (H1 & H2 & H3 & _).
  destruct (ring_read_contents N rb count Hinv Hcount) as (H4 & H5).
  rewrite Hread in *. simpl in *. auto.
Qed.

Lemma time_diff_eq current_time timestamp :
  AudioBuffer.time_diff current_time timestamp = i64 (current_time - timestamp).
Proof. unfold AudioBuffer.time_diff. rewrite i64_sub_l, i64_sub_r. reflexivity. Qed.

Lemma time_diff_early current_time timestamp :
  current_time < timestamp -> timestamp - current_time <= I64_HALF ->
  AudioBuffer.time_diff current_time timestamp < 0.
Proof.
  intros Hlt Hnear. rewrite time_diff_eq, i64_small; [lia|].
  unfold is_i64. lia.
Qed.

Lemma audio_new_inv sample_rate channels buffer_ms ab :
  is_u32 sample_rate -> 0 <= channels < 256 -> is_u32 buffer_ms ->
  AudioBuffer.new sample_rate channels buffer_ms = inr ab ->
  audio_inv ab /\ ring_contents (AudioBuffer.buffer_ ab) = [] /\
  AudioBuffer.channels_ ab = channels /\
  AudioBuffer.samples_per_ms_ ab = sample_rate / 1000.
Proof.
  intros Hsr Hch Hms Hnew. unfold AudioBuffer.new in Hnew.
  set (N := u32 (u32 (sample_rate / 1000 * buffer_ms) * channels)) in *.
  destruct (RingBuffer.new 0 N) as [e|rb] eqn:Hring; [discriminate|].
  destruct ((sample_rate =? 0) || (channels =? 0) || (buffer_ms =? 0)) eqn:Hz;
    [discriminate|].
  injection Hnew as <-.
  apply orb_false_iff in Hz as [Hz Hz3]. apply orb_false_iff in Hz as [Hz1 Hz2].
  apply Z.eqb_neq in Hz1, Hz2, Hz3.
  pose proof (u32_range (u32 (sample_rate / 1000 * buffer_ms) * channels)) as [HN0 _].
  fold N in HN0.
  pose proof (ring_new_inv 0 N rb HN0 Hring) as Hinv.
  assert (0 <= sample_rate / 1000) as Hspm0 by (apply Z.div_pos; destruct Hsr; lia).
  assert (sample_rate / 1000 <= sample_rate) as Hspm1
    by (apply Z.div_le_upper_bound; destruct Hsr; lia).
  assert (sample_rate / 1000 <> 0) as Hspm.
  { intros Hzero. pose proof (inv_bound N _ Hinv) as HNpos.
    subst N. rewrite Hzero in HNpos. vm_compute in HNpos. destruct HNpos as [? _].
    discriminate. }
  split; [|split; [|split]]; simpl; [|apply (ring_new_contents 0 N); assumption| |];
    [|reflexivity|reflexivity].
  constructor.
  - simpl. lia.
  - simpl. destruct Hsr. unfold is_u32 in *. lia.
  - change (ring_inv (RingBuffer.capacity_ rb) rb).
    rewrite (inv_capacity N _ Hinv). exact Hinv.
  - simpl. unfold_consts. lia.
Qed.

Lemma ring_write_eqn {T} N (rb rb' : RingBuffer.t T) data count k :
  ring_inv N rb -> 0 <= count <= cpp_size data ->
  RingBuffer.write rb data count = (rb', k) ->
  ring_inv N rb' /\
  k = Z.min count (N - RingBuffer.size_ rb) /\
  RingBuffer.size_ rb' = RingBuffer.size_ rb + k /\
  ring_contents rb' = ring_contents rb ++ take (Z.to_nat k) data.
Proof.
  intros Hinv Hcount Hwrite.
  destruct (ring_write_spec N rb data count Hinv (proj1 Hcount)) as (H1 & H2 & H3 & _).
  pose proof (ring_write_contents N rb data count Hinv Hcount) as H4.
  rewrite Hwrite in *. simpl in *. auto.
Qed.

(** [write_samples] queues the samples that fit behind the ones already
    there, and stamps the buffer when it was empty. *)
Lemma write_samples_spec ab samples count timestamp ab' written :
  audio_inv ab ->
  is_u64 count -> is_u64 timestamp ->
  count * AudioBuffer.channels_ ab <= cpp_size samples ->
  count * AudioBuffer.channels_ ab < U64_MOD ->
  AudioBuffer.write_samples ab samples count timestamp = (ab', written) ->
  let ch := AudioBuffer.channels_ ab in
  let k := Z.min (count * ch)
             (RingBuffer.capacity_ (AudioBuffer.buffer_ ab)
              - RingBuffer.size_ (AudioBuffer.buffer_ ab)) in
  audio_inv ab' /\
  written = k / ch /\
  ring_contents (AudioBuffer.buffer_ ab')
  = ring_contents (AudioBuffer.buffer_ ab) ++ take (Z.to_nat k) samples /\
  AudioBuffer.timestamp_ ab'
  = (if RingBuffer.empty (AudioBuffer.buffer_ ab) then timestamp
     else AudioBuffer.timestamp_ ab) /\
  AudioBuffer.channels_ ab' = ch /\
  AudioBuffer.samples_per_ms_ ab' = AudioBuffer.samples_per_ms_ ab.
Proof.
  intros [Hch Hspm Hring Hts] Hcount Htime Hdata Hfit Hwrite ch k.
  fold ch in Hch, Hdata, Hfit.
  set (N := RingBuffer.capacity_ (AudioBuffer.buffer_ ab)) in *.
  assert (0 <= count * ch) as Hcc by (destruct Hcount; nia).
  unfold AudioBuffer.write_samples in Hwrite.
  assert (forall ab1,
            AudioBuffer.buffer_ ab1 = AudioBuffer.buffer_ ab ->
            AudioBuffer.channels_ ab1 = ch ->
            AudioBuffer.samples_per_ms_ ab1 = AudioBuffer.samples_per_ms_ ab ->
            is_u64 (AudioBuffer.timestamp_ ab1) ->
            (let '(rb, w) :=
               RingBuffer.write (AudioBuffer.buffer_ ab1) samples
                 (u64 (count * AudioBuffer.channels_ ab1)) in
             (AudioBuffer.set_buffer ab1 rb, w / AudioBuffer.channels_ ab1))
            = (ab', written) ->
            audio_inv ab' /\ written = k / ch /\
            ring_contents (AudioBuffer.buffer_ ab')
            = ring_contents (AudioBuffer.buffer_ ab) ++ take (Z.to_nat k) samples /\
            AudioBuffer.timestamp_ ab' = AudioBuffer.timestamp_ ab1 /\
            AudioBuffer.channels_ ab' = ch /\
            AudioBuffer.samples_per_ms_ ab' = AudioBuffer.samples_per_ms_ ab) as Hgen.
  { intros ab1 Hb Hc Hs Ht Hw. rewrite Hb, Hc in Hw.
    rewrite (u64_small (count * ch)) in Hw by (unfold is_u64; lia).
    destruct (RingBuffer.write (AudioBuffer.buffer_ ab) samples (count * ch))
      as [rb w] eqn:Hrw.
    destruct (ring_write_eqn N _ _ _ _ _ Hring (conj Hcc Hdata) Hrw)
      as (Hring' & Hk & _ & Hcont).
    injection Hw as <- <-. fold k in Hk. subst w.
    split; [|split; [reflexivity|split; [exact Hcont|split; [reflexivity|]]]].
    - constructor; simpl; try (rewrite ?Hc, ?Hs; assumption).
      change (ring_inv (RingBuffer.capacity_ rb) rb).
      rewrite (inv_capacity N _ Hring'). exact Hring'.
    - simpl. auto. }
  destruct (RingBuffer.empty (AudioBuffer.buffer_ ab)).
  - destruct (Hgen (AudioBuffer.set_timestamp ab timestamp)
                eq_refl eq_refl eq_refl Htime Hwrite) as (H1 & H2 & H3 & H4 & H5).
    cbv zeta. auto.
  - destruct (Hgen ab eq_refl eq_refl eq_refl Hts Hwrite) as (H1 & H2 & H3 & H4 & H5).
    cbv zeta. auto.
Qed.

Lemma samples_to_skip_bounds ab current_time :
  audio_inv ab ->
  0 <= samples_to_skip ab current_time /\
  samples_to_skip ab current_time * AudioBuffer.channels_ ab
    <= RingBuffer.size_ (AudioBuffer.buffer_ ab).
Proof.
  intros [Hch Hspm Hring Hts].
  pose proof (inv_size _ _ Hring) as Hsz.
  unfold samples_to_skip, RingBuffer.size.
  set (wanted := u64 _). pose proof (u64_range (i64
    (AudioBuffer.time_diff current_time (AudioBuffer.timestamp_ ab)
     * AudioBuffer.samples_per_ms_ ab))) as [Hw _]. fold wanted in Hw.
  set (size := RingBuffer.size_ (AudioBuffer.buffer_ ab)) in *.
  set (ch := AudioBuffer.channels_ ab) in *.
  assert (0 <= size / ch) as Hq by (apply Z.div_pos; lia).
  assert (ch * (size / ch) <= size) as Hfloor by (apply Z.mul_div_le; lia).
  split; [lia|].
  assert (Z.min wanted (size / ch) * ch <= size / ch * ch) as Hle
    by (apply Z.mul_le_mono_nonneg_r; lia).
  lia.
Qed.

(** What [read_samples] does once the head of the buffer is due. *)
Lemma read_samples_due ab count current_time ab' out returned :
  audio_inv ab ->
  RingBuffer.empty (AudioBuffer.buffer_ ab) = false ->
  0 <= AudioBuffer.time_diff current_time (AudioBuffer.timestamp_ ab) ->
  AudioBuffer.read_samples ab count current_time = (ab', out, returned) ->
  let ch := AudioBuffer.channels_ ab in
  let spm := AudioBuffer.samples_per_ms_ ab in
  let skip := samples_to_skip ab current_time in
  let rest := drop (Z.to_nat (skip * ch)) (ring_contents (AudioBuffer.buffer_ ab)) in
  let n := Z.min (u64 (count * ch)) (cpp_size rest) in
  out = take (Z.to_nat n) rest /\
  returned = n / ch /\
  ring_contents (AudioBuffer.buffer_ ab') = drop (Z.to_nat n) rest /\
  AudioBuffer.timestamp_ ab'
    = u64 (u64 (AudioBuffer.timestamp_ ab + skip / spm) + returned / spm) /\
  audio_inv ab' /\
  AudioBuffer.channels_ ab' = ch /\
  AudioBuffer.samples_per_ms_ ab' = spm.
Proof.
  intros Hinv Hne Hdue Hread ch spm skip rest n.
  destruct (samples_to_skip_bounds ab current_time Hinv) as [Hskip0 Hskipsz].
  fold skip ch in Hskip0, Hskipsz.
  destruct Hinv as [Hch Hspm Hring Hts].
  fold ch in Hch. fold spm in Hspm.
  set (N := RingBuffer.capacity_ (AudioBuffer.buffer_ ab)) in *.
  pose proof (inv_size N _ Hring) as Hsz.
  pose proof (inv_bound N _ Hring) as HN.
  pose proof (ring_contents_length N _ Hring) as Hlen.
  assert (cpp_size rest = RingBuffer.size_ (AudioBuffer.buffer_ ab) - skip * ch) as Hrest.
  { unfold cpp_size. subst rest. rewrite length_drop, Hlen. lia. }
  unfold AudioBuffer.read_samples in Hread. rewrite Hne in Hread.
  destruct (Z.ltb_spec (AudioBuffer.time_diff current_time (AudioBuffer.timestamp_ ab)) 0)
    as [Hneg|_]; [lia|].
  change (Z.min _ (RingBuffer.size (AudioBuffer.buffer_ ab) / AudioBuffer.channels_ ab))
    with skip in Hread.
  assert (0 <= skip * ch) as Hskipch by nia.
  assert (0 <= u64 (count * ch)) as Hcountch by apply u64_range.
  destruct (Z.ltb_spec 0 skip) as [Hpos|Hzero].
  - (* some frames are skipped first *)
    fold ch in Hread.
    rewrite (u64_small (skip * ch)) in Hread by (unfold_consts; nia).
    destruct (RingBuffer.read (AudioBuffer.buffer_ ab) (skip * ch))
      as [[rb1 o1] k1] eqn:Hr1.
    destruct (ring_read_eqn N _ _ _ _ _ Hring Hskipch Hr1)
      as (Hring1 & Hk1 & Hsz1 & _ & Hcont1).
    assert (k1 = skip * ch) as -> by lia. fold rest in Hcont1.
    cbn [AudioBuffer.buffer_ AudioBuffer.channels_ AudioBuffer.samples_per_ms_
         AudioBuffer.timestamp_ AudioBuffer.set_timestamp AudioBuffer.set_buffer]
      in Hread.
    fold ch spm in Hread.
    destruct (RingBuffer.read rb1 (u64 (count * ch))) as [[rb2 o2] k2] eqn:Hr2.
    destruct (ring_read_eqn N _ _ _ _ _ Hring1 Hcountch Hr2)
      as (Hring2 & Hk2 & Hsz2 & Hout2 & Hcont2).
    assert (k2 = n) as -> by (subst n; rewrite Hrest; lia).
    injection Hread as <- <- <-. rewrite Hcont1 in *.
    split; [exact Hout2|]. split; [reflexivity|]. split; [exact Hcont2|].
    split; [reflexivity|]. split; [|split; reflexivity].
    constructor; try assumption.
    + change (ring_inv (RingBuffer.capacity_ rb2) rb2).
      rewrite (inv_capacity N _ Hring2). exact Hring2.
    + apply u64_range.
  - (* nothing to skip *)
    assert (skip = 0) as Hskip by lia.
    assert (rest = ring_contents (AudioBuffer.buffer_ ab)) as Hrest_eq
      by (subst rest; rewrite Hskip; reflexivity).
    fold ch spm in Hread.
    destruct (RingBuffer.read (AudioBuffer.buffer_ ab) (u64 (count * ch)))
      as [[rb2 o2] k2] eqn:Hr2.
    destruct (ring_read_eqn N _ _ _ _ _ Hring Hcountch Hr2)
      as (Hring2 & Hk2 & Hsz2 & Hout2 & Hcont2).
    assert (k2 = n) as -> by (subst n; rewrite Hrest; lia).
    injection Hread as <- <- <-. rewrite Hrest_eq.
    split; [exact Hout2|]. split; [reflexivity|]. split; [exact Hcont2|].
    split; [|split; [|split; reflexivity]].
    + cbn [AudioBuffer.timestamp_ AudioBuffer.set_timestamp]. rewrite Hskip.
      rewrite Z.div_0_l by lia. rewrite Z.add_0_r, (u64_small _ Hts). reflexivity.
    + constructor; try assumption.
      * change (ring_inv (RingBuffer.capacity_ rb2) rb2).
        rewrite (inv_capacity N _ Hring2). exact Hring2.
      * apply u64_range.
Qed.

Lemma ring_clear_inv {T} N (rb : RingBuffer.t T) :
  ring_inv N rb -> ring_inv N (RingBuffer.clear rb).
Proof.
  intros [Hcap Hb Hlen Hwp Hrp Hsz Hpos].
  constructor; simpl; try assumption; try lia.
  rewrite Z.mod_0_l; lia.
Qed.

Lemma audio_inv_set_buffer ab rb N :
  audio_inv ab -> ring_inv N rb -> audio_inv (AudioBuffer.set_buffer ab rb).
Proof.
  intros [Hch Hspm Hring Hts] Hrb. constructor; simpl; try assumption.
  change (ring_inv (RingBuffer.capacity_ rb) rb).
  rewrite (inv_capacity N _ Hrb). exact Hrb.
Qed.

(** Every buffer a program can hold is well formed. *)
Lemma audio_reachable_inv ab : audio_reachable ab -> audio_inv ab.
Proof.
  induction 1 as [sr ch ms ab Hsr Hch Hms Hnew
                 | ab samples count ts _ IH Hts
                 | ab count now _ IH
                 | ab _ IH
                 | ab ms _ IH Hms].
  - apply (audio_new_inv sr ch ms ab Hsr Hch Hms Hnew).
  - unfold AudioBuffer.write_samples.
    set (ab1 := if RingBuffer.empty (AudioBuffer.buffer_ ab)
                then AudioBuffer.set_timestamp ab ts else ab).
    assert (audio_inv ab1) as Hinv1.
    { subst ab1. destruct (RingBuffer.empty (AudioBuffer.buffer_ ab)); [|exact IH].
      destruct IH as [Hch Hspm Hring Hold]. constructor; assumption. }
    pose proof (ring_write_spec _ _ samples (u64 (count * AudioBuffer.channels_ ab1))
                  (ainv_ring _ Hinv1) (proj1 (u64_range _))) as (Hring' & _).
    destruct (RingBuffer.write _ _ _) as [rb w]. simpl in *.
    apply (audio_inv_set_buffer _ _ _ Hinv1 Hring').
  - destruct (RingBuffer.empty (AudioBuffer.buffer_ ab)) eqn:Hempty.
    + unfold AudioBuffer.read_samples. rewrite Hempty. exact IH.
    + destruct (Z.ltb_spec (AudioBuffer.time_diff now (AudioBuffer.timestamp_ ab)) 0)
        as [Hearly|Hdue].
      * unfold AudioBuffer.read_samples. rewrite Hempty.
        destruct (Z.ltb_spec (AudioBuffer.time_diff now (AudioBuffer.timestamp_ ab)) 0);
          [exact IH|lia].
      * destruct (AudioBuffer.read_samples ab count now) as [[ab' out] r] eqn:Hread.
        apply (read_samples_due ab count now ab' out r IH Hempty Hdue Hread).
  - apply (audio_inv_set_buffer _ _ _ IH (ring_clear_inv _ _ (ainv_ring _ IH))).
  - unfold AudioBuffer.set_buffer_size_ms.
    destruct (ms =? 0); [exact IH|].
    set (N := u32 (u32 (AudioBuffer.samples_per_ms_ ab * ms) * AudioBuffer.channels_ ab)).
    set (ab1 := AudioBuffer.mk _ _ _ _ _ _ _).
    assert (audio_inv ab1) as Hinv1
      by (destruct IH as [Hch Hspm Hring Hold]; constructor; assumption).
    destruct (RingBuffer.new 0 N) as [e|new_buffer] eqn:Hnew; [exact Hinv1|].
    pose proof (ring_new_inv 0 N new_buffer (proj1 (u32_range _)) Hnew) as Hfresh.
    destruct (negb (RingBuffer.empty (AudioBuffer.buffer_ ab1))).
    + destruct (RingBuffer.read _ _) as [[rb temp] read] eqn:Hread.
      pose proof (ring_read_spec _ (AudioBuffer.buffer_ ab1)
                    (RingBuffer.size (AudioBuffer.buffer_ ab1)) (ainv_ring _ Hinv1)
                    (proj1 (inv_size _ _ (ainv_ring _ Hinv1)))) as (_ & Hk & _).
      rewrite Hread in Hk. simpl in Hk.
      pose proof (inv_size _ _ (ainv_ring _ Hinv1)) as Hsz.
      assert (0 <= read) as Hread0
        by (unfold ab1 in Hsz; simpl in Hsz; unfold RingBuffer.size in Hk; lia).
      pose proof (ring_write_spec N new_buffer temp read Hfresh Hread0) as (Hring' & _).
      simpl. apply (audio_inv_set_buffer _ _ _ Hinv1 Hring').
    + simpl. apply (audio_inv_set_buffer _ _ _ Hinv1 Hfresh).
Qed.

(** X8.  Round trip: [k] frames written into an empty buffer at time [t] and
    read back at time [t] come out as they went in, with no silence. *)
Lemma write_then_read_round_trip ab samples k t ab1 w ab2 out r :
  audio_inv ab ->
  RingBuffer.empty (AudioBuffer.buffer_ ab) = true ->
  is_u64 t -> 0 < k ->
  cpp_size samples = k * AudioBuffer.channels_ ab ->
  k * AudioBuffer.channels_ ab <= RingBuffer.capacity_ (AudioBuffer.buffer_ ab) ->
  AudioBuffer.write_samples ab samples k t = (ab1, w) ->
  AudioBuffer.read_samples ab1 k t = (ab2, out, r) ->
  w = k /\ out = samples /\ r = k /\ ring_contents (AudioBuffer.buffer_ ab2) = [].
Proof.
  intros Hinv Hempty Ht Hk Hlen Hroom Hwrite Hread.
  pose proof (ainv_channels _ Hinv) as Hch.
  pose proof (ainv_ring _ Hinv) as Hring.
  pose proof (inv_bound _ _ Hring) as HN.
  assert (RingBuffer.size_ (AudioBuffer.buffer_ ab) = 0) as Hsize0
    by (apply Z.eqb_eq; exact Hempty).
  assert (ring_contents (AudioBuffer.buffer_ ab) = []) as Hnil.
  { apply nil_length_inv. rewrite (ring_contents_length _ _ Hring), Hsize0. reflexivity. }
  assert (is_u64 k) as Hku by (unfold_consts; nia).
  assert (k * AudioBuffer.channels_ ab < U64_MOD) as Hfit by (unfold_consts; lia).
  destruct (write_samples_spec ab samples k t ab1 w Hinv Hku Ht ltac:(lia) Hfit Hwrite)
    as (Hinv1 & Hw & Hcont1 & Hts1 & Hch1 & Hspm1).
  rewrite Hempty in Hts1. rewrite Hsize0, Z.sub_0_r, Z.min_l in Hw, Hcont1 by lia.
  rewrite Hnil in Hcont1. simpl in Hcont1.
  rewrite take_ge in Hcont1 by (unfold cpp_size in Hlen; lia).
  rewrite Z.div_mul in Hw by lia.
  pose proof (ring_contents_length _ _ (ainv_ring _ Hinv1)) as Hlen1.
  rewrite Hcont1 in Hlen1.
  assert (RingBuffer.empty (AudioBuffer.buffer_ ab1) = false) as Hne.
  { apply Z.eqb_neq. pose proof (inv_size _ _ (ainv_ring _ Hinv1)).
    unfold cpp_size in Hlen. nia. }
  assert (AudioBuffer.time_diff t (AudioBuffer.timestamp_ ab1) = 0) as Hdiff.
  { rewrite Hts1, time_diff_eq, Z.sub_diag. reflexivity. }
  destruct (read_samples_due ab1 k t ab2 out r Hinv1 Hne
              ltac:(rewrite Hdiff; lia) Hread)
    as (Hout & Hr & Hcont2 & _).
  assert (samples_to_skip ab1 t = 0) as Hskip.
  { unfold samples_to_skip. rewrite Hdiff, Z.mul_0_l.
    change (u64 (i64 0)) with 0. apply Z.min_l.
    apply Z.div_pos; [apply (inv_size _ _ (ainv_ring _ Hinv1))|].
    rewrite Hch1. lia. }
  rewrite Hskip, Hch1, Hcont1 in Hout, Hr, Hcont2.
  rewrite (u64_small (k * AudioBuffer.channels_ ab)) in Hout, Hr, Hcont2
    by (unfold_consts; lia).
  rewrite Z.mul_0_l in Hout, Hr, Hcont2.
  change (Z.to_nat 0) with 0%nat in Hout, Hr, Hcont2.
  rewrite drop_0, Hlen, Z.min_id in Hout, Hr, Hcont2.
  unfold cpp_size in Hlen.
  rewrite take_ge in Hout by lia. rewrite drop_ge in Hcont2 by lia.
  rewrite Z.div_mul in Hr by lia.
  auto.
Qed.

(** The two playback scenarios of the specification, at 48 kHz stereo with
    a 20 ms buffer (960 frames).  Early: 480 frames stamped 1000 and read
    at 900 come out as 480 frames of silence, and the 480 frames stay
    queued.  Late: 960 frames stamped 1000 and read at 1010 lose their
    first 480 frames, the next 480 are returned, and the head timestamp
    becomes 1020. *)
Example scenario_silence_on_early :
  match AudioBuffer.new 48000 2 20 with
  | inr ab0 =>
      let ab := fst (AudioBuffer.write_samples ab0 (seqZ 1 960) 480 1000) in
      AudioBuffer.read_samples ab 480 900 = (ab, replicate 960 0, 480) /\
      cpp_size (ring_contents (AudioBuffer.buffer_ ab)) = 480 * 2
  | inl _ => False
  end.
Proof. solve_concrete. Qed.

Example scenario_skip_on_late :
  match AudioBuffer.new 48000 2 20 with
  | inr ab0 =>
      let ab := fst (AudioBuffer.write_samples ab0 (seqZ 1 1920) 960 1000) in
      let '(ab', out, returned) := AudioBuffer.read_samples ab 480 1010 in
      out = seqZ 961 960 /\ returned = 480 /\
      ring_contents (AudioBuffer.buffer_ ab') = [] /\
      AudioBuffer.timestamp_ ab' = 1020
  | inl _ => False
  end.
Proof. solve_concrete. Qed.

(** C1, as stated, fails when the two timestamps are more than [2^63]
    apart: the signed difference the code takes is then positive.  With
    two frames queued for time [2^63 + 1], a read of one frame at time 0
    is treated as late: both frames are skipped, nothing is returned and
    the head timestamp moves on. *)
Lemma read_samples_early_counterexample :
  match AudioBuffer.new 1000 1 4 with
  | inr ab0 =>
      let ab := fst (AudioBuffer.write_samples ab0 [11; 12] 2 9223372036854775809) in
      RingBuffer.empty (AudioBuffer.buffer_ ab) = false /\
      0 < AudioBuffer.timestamp_ ab /\
      ring_contents (AudioBuffer.buffer_ ab) = [11; 12] /\
      AudioBuffer.read_samples ab 1 0
        <> (ab, replicate (Z.to_nat (1 * AudioBuffer.channels_ ab)) 0, 1) /\
      let '(ab', out, returned) := AudioBuffer.read_samples ab 1 0 in
      out = [] /\ returned = 0 /\
      ring_contents (AudioBuffer.buffer_ ab') = [] /\
      AudioBuffer.timestamp_ ab' = 9223372036854775811
  | inl _ => False
  end.
Proof. solve_concrete. Qed.

(** C1 (amended).  On a non-empty buffer, a read at a time before the head
    timestamp and at most [2^63] ms before it (so that the signed 64-bit
    difference is negative) writes [frames * channels] zero samples,
    returns [frames], and leaves the whole buffer, ring and head timestamp
    included, as it was. *)
Theorem read_samples_silence_on_early (ab : AudioBuffer.t) (count current_time : Z) :
  audio_inv ab ->
  RingBuffer.empty (AudioBuffer.buffer_ ab) = false ->
  is_u64 count ->
  count * AudioBuffer.channels_ ab * AudioBuffer.SIZEOF_FLOAT < U64_MOD ->
  current_time < AudioBuffer.timestamp_ ab ->
  AudioBuffer.timestamp_ ab - current_time <= I64_HALF ->
  AudioBuffer.read_samples ab count current_time
  = (ab, replicate (Z.to_nat (count * AudioBuffer.channels_ ab)) 0, count).
Proof.
  intros [Hch _ _ _] Hne [Hc0 _] Hfit Hearly Hnear.
  pose proof (time_diff_early _ _ Hearly Hnear) as Hneg.
  unfold AudioBuffer.read_samples. rewrite Hne.
  destruct (Z.ltb_spec (AudioBuffer.time_diff current_time (AudioBuffer.timestamp_ ab)) 0)
    as [_|Hge]; [|lia].
  unfold AudioBuffer.SIZEOF_FLOAT in *.
  rewrite (u64_small (count * AudioBuffer.channels_ ab)) by (unfold is_u64; nia).
  rewrite u64_small by (unfold is_u64; nia).
  rewrite Z.div_mul by lia. reflexivity.
Qed.

Ltac prove_audio_inv :=
  constructor;
  [ solve_concrete | solve_concrete | constructor; solve_concrete | solve_concrete ].

Lemma read_samples_silence_on_early_witness :
  match AudioBuffer.new 4000 2 3 with
  | inr ab0 =>
      let ab := fst (AudioBuffer.write_samples ab0 (seqZ 1 24) 12 1000) in
      audio_inv ab /\
      RingBuffer.empty (AudioBuffer.buffer_ ab) = false /\
      is_u64 4 /\
      4 * AudioBuffer.channels_ ab * AudioBuffer.SIZEOF_FLOAT < U64_MOD /\
      900 < AudioBuffer.timestamp_ ab /\
      AudioBuffer.timestamp_ ab - 900 <= I64_HALF /\
      AudioBuffer.read_samples ab 4 900
      = (ab, replicate (Z.to_nat (4 * AudioBuffer.channels_ ab)) 0, 4)
  | inl _ => False
  end.
Proof.
  vm_compute (AudioBuffer.new 4000 2 3). cbv beta iota zeta.
  set (ab := fst (AudioBuffer.write_samples _ _ _ _)).
  assert (audio_inv ab) as Hinv by prove_audio_inv.
  assert (RingBuffer.empty (AudioBuffer.buffer_ ab) = false) as Hne by solve_concrete.
  assert (is_u64 4) as Hcount by solve_concrete.
  assert (4 * AudioBuffer.channels_ ab * AudioBuffer.SIZEOF_FLOAT < U64_MOD) as Hfit
    by solve_concrete.
  assert (900 < AudioBuffer.timestamp_ ab) as Hearly by solve_concrete.
  assert (AudioBuffer.timestamp_ ab - 900 <= I64_HALF) as Hnear by solve_concrete.
  split; [exact Hinv|]. split; [exact Hne|]. split; [exact Hcount|].
  split; [exact Hfit|]. split; [exact Hearly|]. split; [exact Hnear|].
  exact (read_samples_silence_on_early ab 4 900 Hinv Hne Hcount Hfit Hearly Hnear).
Defined.

(** C2, as stated, fails when the clock is more than [2^63] ms past the
    head timestamp: the signed difference the code takes is then negative.
    With two frames queued for time 0, a read of one frame at time
    [2^63 + 1] is treated as early: one frame of silence is returned and
    nothing is skipped or consumed. *)
Lemma read_samples_late_counterexample :
  match AudioBuffer.new 1000 1 4 with
  | inr ab0 =>
      let ab := fst (AudioBuffer.write_samples ab0 [11; 12] 2 0) in
      let now_ms := 9223372036854775809 in
      RingBuffer.empty (AudioBuffer.buffer_ ab) = false /\
      0 < now_ms - AudioBuffer.timestamp_ ab /\
      ring_contents (AudioBuffer.buffer_ ab) = [11; 12] /\
      Z.min ((now_ms - AudioBuffer.timestamp_ ab) * AudioBuffer.samples_per_ms_ ab)
            (cpp_size (ring_contents (AudioBuffer.buffer_ ab)) / AudioBuffer.channels_ ab)
        = 2 /\
      AudioBuffer.read_samples ab 1 now_ms = (ab, [0], 1) /\
      ring_contents (AudioBuffer.buffer_ (fst (fst (AudioBuffer.read_samples ab 1 now_ms))))
        <> drop 2 (ring_contents (AudioBuffer.buffer_ ab)) /\
      AudioBuffer.timestamp_ (fst (fst (AudioBuffer.read_samples ab 1 now_ms)))
        = AudioBuffer.timestamp_ ab
  | inl _ => False
  end.
Proof. solve_concrete. Qed.

(** C2 (amended).  On a non-empty buffer, when the signed 64-bit difference
    [delta] between the clock and the head timestamp is positive (and
    [delta * samples_per_ms] fits in an [int64_t]), [read_samples] first
    discards the oldest [skipped = min (delta * samples_per_ms)
    available_frames] frames and advances the head timestamp by
    [skipped / samples_per_ms]; it then moves the next up to
    [frames * channels] samples into the destination, advances the head
    timestamp by [returned / samples_per_ms] and returns the number of
    frames read.  The head timestamp is a [uint64_t] and advances modulo
    [2^64]. *)
Theorem read_samples_skip_on_late (ab ab' : AudioBuffer.t) (count current_time : Z)
    (out : list AudioBuffer.float) (returned : Z) :
  audio_inv ab ->
  RingBuffer.empty (AudioBuffer.buffer_ ab) = false ->
  is_u64 count -> count * AudioBuffer.channels_ ab < U64_MOD ->
  let ch := AudioBuffer.channels_ ab in
  let spm := AudioBuffer.samples_per_ms_ ab in
  let delta := AudioBuffer.time_diff current_time (AudioBuffer.timestamp_ ab) in
  0 < delta -> delta * spm < I64_HALF ->
  AudioBuffer.read_samples ab count current_time = (ab', out, returned) ->
  let queued := ring_contents (AudioBuffer.buffer_ ab) in
  let available_frames := cpp_size queued / ch in
  let skipped := Z.min (delta * spm) available_frames in
  let rest := drop (Z.to_nat (skipped * ch)) queued in
  let n := Z.min (count * ch) (cpp_size rest) in
  out = take (Z.to_nat n) rest /\
  returned = n / ch /\
  ring_contents (AudioBuffer.buffer_ ab') = drop (Z.to_nat n) rest /\
  AudioBuffer.timestamp_ ab'
    = u64 (u64 (AudioBuffer.timestamp_ ab + skipped / spm) + returned / spm) /\
  audio_inv ab'.
Proof.
  intros Hinv Hne Hcount Hfit ch spm delta Hlate Hprod Hread.
  assert (samples_to_skip ab current_time
          = Z.min (delta * spm)
              (cpp_size (ring_contents (AudioBuffer.buffer_ ab)) / ch)) as Hskip.
  { unfold samples_to_skip. fold delta spm ch.
    pose proof (ainv_samples_per_ms _ Hinv) as Hspm. fold spm in Hspm.
    rewrite i64_small by (unfold is_i64; nia).
    rewrite u64_small by (unfold_consts; nia).
    unfold cpp_size, RingBuffer.size.
    rewrite (ring_contents_length _ _ (ainv_ring _ Hinv)).
    rewrite Z2Nat.id by apply (inv_size _ _ (ainv_ring _ Hinv)). reflexivity. }
  destruct (read_samples_due ab count current_time ab' out returned
              Hinv Hne ltac:(fold delta; lia) Hread)
    as (Hout & Hret & Hcont & Hts & Hinv' & _).
  fold ch spm in Hout, Hret, Hcont, Hts. rewrite Hskip in Hout, Hret, Hcont, Hts.
  pose proof (ainv_channels _ Hinv) as Hch. fold ch in Hch.
  rewrite (u64_small (count * ch)) in Hout, Hret, Hcont
    by (destruct Hcount; unfold is_u64; nia).
  cbv zeta. auto.
Qed.

Lemma read_samples_skip_on_late_witness :
  match AudioBuffer.new 4000 2 3 with
  | inr ab0 =>
      let ab := fst (AudioBuffer.write_samples ab0 (seqZ 1 24) 12 1000) in
      audio_inv ab /\
      RingBuffer.empty (AudioBuffer.buffer_ ab) = false /\
      is_u64 4 /\ 4 * AudioBuffer.channels_ ab < U64_MOD /\
      0 < AudioBuffer.time_diff 1001 (AudioBuffer.timestamp_ ab) /\
      AudioBuffer.time_diff 1001 (AudioBuffer.timestamp_ ab)
        * AudioBuffer.samples_per_ms_ ab < I64_HALF /\
      snd (fst (AudioBuffer.read_samples ab 4 1001)) = seqZ 9 8 /\
      snd (AudioBuffer.read_samples ab 4 1001) = 4 /\
      AudioBuffer.timestamp_ (fst (fst (AudioBuffer.read_samples ab 4 1001))) = 1002
  | inl _ => False
  end.
Proof.
  vm_compute (AudioBuffer.new 4000 2 3). cbv beta iota zeta.
  set (ab := fst (AudioBuffer.write_samples _ _ _ _)).
  assert (audio_inv ab) as Hinv by prove_audio_inv.
  assert (RingBuffer.empty (AudioBuffer.buffer_ ab) = false) as Hne by solve_concrete.
  assert (is_u64 4) as Hcount by solve_concrete.
  assert (4 * AudioBuffer.channels_ ab < U64_MOD) as Hfit by solve_concrete.
  assert (0 < AudioBuffer.time_diff 1001 (AudioBuffer.timestamp_ ab)) as Hlate
    by solve_concrete.
  assert (AudioBuffer.time_diff 1001 (AudioBuffer.timestamp_ ab)
          * AudioBuffer.samples_per_ms_ ab < I64_HALF) as Hprod by solve_concrete.
  destruct (AudioBuffer.read_samples ab 4 1001) as [[ab' out] returned] eqn:Hread.
  destruct (read_samples_skip_on_late ab ab' 4 1001 out returned
              Hinv Hne Hcount Hfit Hlate Hprod Hread)
    as (Hout & Hret & _ & Hts & _).
  split; [exact Hinv|]. split; [exact Hne|]. split; [exact Hcount|].
  split; [exact Hfit|]. split; [exact Hlate|]. split; [exact Hprod|].
  cbn [fst snd].
  assert (returned = 4) as Hret4 by (rewrite Hret; solve_concrete).
  split; [rewrite Hout; solve_concrete|]. split; [exact Hret4|].
  rewrite Hts, Hret4. solve_concrete.
Defined.

(** C10.  On the path where the head of the buffer is due ([delta >= 0]),
    the head timestamp moves by the quotient [skipped / samples_per_ms]
    for the skip and then by [returned / samples_per_ms] for the read, each
    an integer division; a read whose skip and whose returned frames are
    both fewer than [samples_per_ms] leaves the head timestamp where it
    was, and so does every sequence of such reads, whatever it consumes. *)
Theorem read_samples_timestamp_floor (ab : AudioBuffer.t) (count current_time : Z) :
  audio_inv ab ->
  (RingBuffer.empty (AudioBuffer.buffer_ ab) = false ->
   0 <= AudioBuffer.time_diff current_time (AudioBuffer.timestamp_ ab) ->
   let spm := AudioBuffer.samples_per_ms_ ab in
   let skipped := samples_to_skip ab current_time in
   let ab' := fst (fst (AudioBuffer.read_samples ab count current_time)) in
   let returned := snd (AudioBuffer.read_samples ab count current_time) in
   AudioBuffer.timestamp_ ab'
     = u64 (u64 (AudioBuffer.timestamp_ ab + skipped / spm) + returned / spm) /\
   (AudioBuffer.timestamp_ ab + skipped / spm + returned / spm < U64_MOD ->
    AudioBuffer.timestamp_ ab'
      = AudioBuffer.timestamp_ ab + skipped / spm + returned / spm) /\
   cpp_size (ring_contents (AudioBuffer.buffer_ ab'))
     <= cpp_size (ring_contents (AudioBuffer.buffer_ ab))
        - skipped * AudioBuffer.channels_ ab - returned * AudioBuffer.channels_ ab /\
   (skipped < spm -> returned < spm ->
    AudioBuffer.timestamp_ ab' = AudioBuffer.timestamp_ ab)) /\
  (forall requests,
     small_reads ab requests ->
     AudioBuffer.timestamp_ (read_all ab requests) = AudioBuffer.timestamp_ ab).
Proof.
  intros Hinv.
  assert (forall ab count current_time,
            audio_inv ab ->
            RingBuffer.empty (AudioBuffer.buffer_ ab) = false ->
            0 <= AudioBuffer.time_diff current_time (AudioBuffer.timestamp_ ab) ->
            let spm := AudioBuffer.samples_per_ms_ ab in
            let skipped := samples_to_skip ab current_time in
            let ab' := fst (fst (AudioBuffer.read_samples ab count current_time)) in
            let returned := snd (AudioBuffer.read_samples ab count current_time) in
            audio_inv ab' /\
            AudioBuffer.timestamp_ ab'
            = u64 (u64 (AudioBuffer.timestamp_ ab + skipped / spm) + returned / spm) /\
            (AudioBuffer.timestamp_ ab + skipped / spm + returned / spm < U64_MOD ->
             AudioBuffer.timestamp_ ab'
             = AudioBuffer.timestamp_ ab + skipped / spm + returned / spm) /\
            cpp_size (ring_contents (AudioBuffer.buffer_ ab'))
            <= cpp_size (ring_contents (AudioBuffer.buffer_ ab))
               - skipped * AudioBuffer.channels_ ab
               - returned * AudioBuffer.channels_ ab /\
            (skipped < spm -> returned < spm ->
             AudioBuffer.timestamp_ ab' = AudioBuffer.timestamp_ ab)) as Hstep.
  { clear. intros ab count current_time Hinv Hne Hdue.
    destruct (AudioBuffer.read_samples ab count current_time)
      as [[ab' out] returned] eqn:Hread.
    destruct (read_samples_due ab count current_time ab' out returned
                Hinv Hne Hdue Hread)
      as (Hout & Hret & Hcont & Hts & Hinv' & _).
    destruct (samples_to_skip_bounds ab current_time Hinv) as [Hskip0 Hskipsz].
    pose proof (ainv_samples_per_ms _ Hinv) as Hspm.
    pose proof (ainv_channels _ Hinv) as Hch.
    pose proof (ring_contents_length _ _ (ainv_ring _ Hinv)) as Hlen.
    pose proof (inv_size _ _ (ainv_ring _ Hinv)) as Hsz.
    cbv zeta in *. cbn [fst snd].
    set (skipped := samples_to_skip ab current_time) in *.
    set (ch := AudioBuffer.channels_ ab) in *.
    set (spm := AudioBuffer.samples_per_ms_ ab) in *.
    set (rest := drop (Z.to_nat (skipped * ch)) (ring_contents (AudioBuffer.buffer_ ab))) in *.
    set (n := Z.min (u64 (count * ch)) (cpp_size rest)) in *.
    assert (cpp_size rest
            = cpp_size (ring_contents (AudioBuffer.buffer_ ab)) - skipped * ch) as Hrest.
    { unfold cpp_size. subst rest. rewrite length_drop, Hlen. nia. }
    assert (0 <= n) as Hn0
      by (subst n; unfold cpp_size; pose proof (u64_range (count * ch)) as [? _]; lia).
    assert (0 <= returned) as Hret0 by (rewrite Hret; apply Z.div_pos; lia).
    assert (returned * ch <= n) as Hfloor
      by (rewrite Hret, Z.mul_comm; apply Z.mul_div_le; lia).
    split; [exact Hinv'|]. split; [exact Hts|]. split; [|split].
    - intros Hnowrap. rewrite Hts.
      pose proof (ainv_timestamp _ Hinv) as [Hts0 _].
      assert (0 <= skipped / spm) as Hq1 by (apply Z.div_pos; lia).
      assert (0 <= returned / spm) as Hq2 by (apply Z.div_pos; lia).
      rewrite (u64_small (AudioBuffer.timestamp_ ab + skipped / spm))
        by (unfold is_u64; lia).
      apply u64_small. unfold is_u64. lia.
    - rewrite Hcont. unfold cpp_size in *. rewrite length_drop.
      subst n. lia.
    - intros Hs Hr. rewrite Hts.
      rewrite (Z.div_small skipped spm) by lia.
      rewrite (Z.div_small returned spm) by lia.
      rewrite !Z.add_0_r, (u64_small _ (ainv_timestamp _ Hinv)).
      apply u64_small, (ainv_timestamp _ Hinv). }
  split.
  - intros Hne Hdue.
    destruct (Hstep ab count current_time Hinv Hne Hdue)
      as (_ & H1 & H2 & H3 & H4).
    cbv zeta. auto.
  - intros requests. revert ab Hinv.
    induction requests as [|[c t] requests IH]; intros ab Hinv Hsmall; [reflexivity|].
    simpl in Hsmall. destruct Hsmall as (Hdue & Hs & Hr & Hrest).
    simpl.
    destruct (RingBuffer.empty (AudioBuffer.buffer_ ab)) eqn:Hempty.
    + assert (AudioBuffer.read_samples ab c t = (ab, [], 0)) as Hnothing
        by (unfold AudioBuffer.read_samples; rewrite Hempty; reflexivity).
      rewrite Hnothing in *. simpl in *. apply IH; assumption.
    + destruct (Hstep ab c t Hinv Hempty Hdue) as (Hinv' & _ & _ & _ & Hsame).
      rewrite (IH _ Hinv' Hrest). apply Hsame; assumption.
Qed.

Lemma read_samples_timestamp_floor_witness :
  match AudioBuffer.new 4000 2 3 with
  | inr ab0 =>
      let ab := fst (AudioBuffer.write_samples ab0 (seqZ 1 24) 12 1000) in
      let requests := [(3, 1000); (3, 1000); (3, 1000)] in
      audio_inv ab /\
      small_reads ab requests /\
      cpp_size (ring_contents (AudioBuffer.buffer_ ab)) = 24 /\
      cpp_size (ring_contents (AudioBuffer.buffer_ (read_all ab requests))) = 6 /\
      AudioBuffer.timestamp_ (read_all ab requests) = AudioBuffer.timestamp_ ab
  | inl _ => False
  end.
Proof.
  vm_compute (AudioBuffer.new 4000 2 3). cbv beta iota zeta.
  set (ab := fst (AudioBuffer.write_samples _ _ _ _)).
  set (requests := [(3, 1000); (3, 1000); (3, 1000)]).
  assert (audio_inv ab) as Hinv by prove_audio_inv.
  assert (small_reads ab requests) as Hsmall by solve_concrete.
  split; [exact Hinv|]. split; [exact Hsmall|].
  split; [solve_concrete|]. split; [solve_concrete|].
  destruct (read_samples_timestamp_floor ab 0 0 Hinv) as [_ Hseq].
  exact (Hseq requests Hsmall).
Defined.

(** ** SyncManager *)

(** C5, as stated, fails where the 32-bit sum wraps: a latency of
    [2^32 - 1] gets a 9 ms buffer, which is neither [min (l + 10) 40] nor
    above what the smaller latency 30 gets. *)
Lemma calculateBufferAdjustment_wraps :
  is_u32 4294967295 /\
  SyncManager.calculateBufferAdjustment 4294967295 = 9 /\
  SyncManager.calculateBufferAdjustment 4294967295 <> Z.min (4294967295 + 10) 40 /\
  30 <= 4294967295 /\
  ~ (SyncManager.calculateBufferAdjustment 30
       <= SyncManager.calculateBufferAdjustment 4294967295).
Proof. solve_concrete. Qed.

(** C5 (amended).  While [l + 10] fits in 32 bits the adjustment is
    [min (l + 10) 40] and is non-decreasing in [l]; for every 32-bit input
    it is at most 40. *)
Theorem calculateBufferAdjustment_spec (l : Z) :
  is_u32 l ->
  (l + 10 < U32_MOD ->
     SyncManager.calculateBufferAdjustment l = Z.min (l + 10) 40) /\
  (forall l', is_u32 l' -> l <= l' -> l' + 10 < U32_MOD ->
     SyncManager.calculateBufferAdjustment l
       <= SyncManager.calculateBufferAdjustment l') /\
  0 <= SyncManager.calculateBufferAdjustment l <= 40.
Proof.
  intros [Hlo Hhi]. unfold SyncManager.calculateBufferAdjustment.
  repeat split.
  - intros Hfit. rewrite u32_small by (unfold is_u32; lia). reflexivity.
  - intros l' [Hlo' Hhi'] Hle Hfit.
    rewrite !u32_small by (unfold is_u32; lia). lia.
  - pose proof (u32_range (l + 10)) as [H0 _]. lia.
  - lia.
Qed.

Lemma calculateBufferAdjustment_spec_witness :
  is_u32 25 /\
  SyncManager.calculateBufferAdjustment 25 = Z.min (25 + 10) 40 /\
  SyncManager.calculateBufferAdjustment 25
    <= SyncManager.calculateBufferAdjustment 50 /\
  SyncManager.calculateBufferAdjustment 25 <= 40.
Proof.
  assert (is_u32 25) as H25 by (unfold_consts; lia).
  assert (is_u32 50) as H50 by (unfold_consts; lia).
  destruct (calculateBufferAdjustment_spec 25 H25) as (Heq & Hmono & Hcap).
  split; [exact H25|]. split; [apply Heq; unfold_consts; lia|].
  split; [apply Hmono; [exact H50|lia|unfold_consts; lia]|].
  apply Hcap.
Defined.

(** The value [now] adds to the clock is the offset modulo [2^64]. *)
Lemma now_eq st system_ms :
  SyncManager.now st system_ms = u64 (system_ms + SyncManager.timeOffset st).
Proof.
  unfold SyncManager.now.
  destruct (0 <=? SyncManager.timeOffset st).
  - rewrite u64_add_r, u64_add_l. reflexivity.
  - rewrite u64_sub_r.
    rewrite <- (u64_sub_r _ (i64 _)), u64_i64, u64_sub_r.
    replace (u64 system_ms - - SyncManager.timeOffset st)
      with (u64 system_ms + SyncManager.timeOffset st) by lia.
    apply u64_add_l.
Qed.

(** C3, as stated, fails at the ends of the 64-bit range: a master time
    above [2^63] gives a negative offset instead of [M - W], and a master
    time of [2^64 - 1] makes [now] wrap to 0 one millisecond later. *)
Lemma handleTimeBeacon_range_counterexample :
  let M1 := 9223372036854775813 in
  let M2 := 18446744073709551615 in
  is_u64 M1 /\ is_u64 M2 /\
  SyncManager.timeOffset (fst (SyncManager.handleTimeBeacon SyncManager.new M1 0 0))
    = -9223372036854775803 /\
  SyncManager.timeOffset (fst (SyncManager.handleTimeBeacon SyncManager.new M1 0 0))
    <> M1 - 0 /\
  SyncManager.now (fst (SyncManager.handleTimeBeacon SyncManager.new M2 0 0)) 1 = 0 /\
  SyncManager.now (fst (SyncManager.handleTimeBeacon SyncManager.new M2 0 0)) 1
    <> M2 + (1 - 0).
Proof. solve_concrete. Qed.

(** C3 (amended).  A beacon with master time [M] taken at wall clock [W]
    returns true, marks the manager synchronised, records the beacon, and
    stores the signed 64-bit value of [M - W] ([M - W] itself when that
    fits); from then on [now] at wall clock [W'] is [M + (W' - W)] modulo
    [2^64], hence [M + (W' - W)] itself whenever that is below [2^64]. *)
Theorem handleTimeBeacon_offset_law (st : SyncManager.t) (M W W' steady : Z) :
  is_u64 M -> is_u64 W -> is_u64 W' ->
  let st' := fst (SyncManager.handleTimeBeacon st M W steady) in
  snd (SyncManager.handleTimeBeacon st M W steady) = true /\
  SyncManager.isSynced st' = true /\
  SyncManager.lastBeacon st' = Some steady /\
  SyncManager.isSynchronized st' = true /\
  SyncManager.timeOffset st' = i64 (M - W) /\
  (is_i64 (M - W) -> SyncManager.timeOffset st' = M - W) /\
  SyncManager.now st' W' = u64 (M + (W' - W)) /\
  (W <= W' -> M + (W' - W) < U64_MOD -> SyncManager.now st' W' = M + (W' - W)).
Proof.
  intros HM HW HW' st'.
  assert (SyncManager.timeOffset st' = i64 (M - W)) as Hoff.
  { subst st'. simpl. rewrite (u64_small W) by assumption.
    rewrite i64_sub_l, i64_sub_r. reflexivity. }
  assert (SyncManager.now st' W' = u64 (M + (W' - W))) as Hnow.
  { rewrite now_eq, Hoff.
    rewrite <- u64_add_r, u64_i64, u64_add_r. f_equal. lia. }
  repeat split; try reflexivity; try assumption.
  - intros Hfit. rewrite Hoff. apply i64_small, Hfit.
  - intros Hle Hfit. rewrite Hnow. apply u64_small.
    destruct HM, HW, HW'. unfold is_u64. lia.
Qed.

Lemma handleTimeBeacon_offset_law_witness :
  is_u64 5123 /\ is_u64 5000 /\ is_u64 5040 /\
  SyncManager.timeOffset (fst (SyncManager.handleTimeBeacon SyncManager.new 5123 5000 77))
    = i64 (5123 - 5000) /\
  SyncManager.now (fst (SyncManager.handleTimeBeacon SyncManager.new 5123 5000 77)) 5040
    = 5123 + (5040 - 5000).
Proof.
  assert (is_u64 5123) as H1 by (unfold_consts; lia).
  assert (is_u64 5000) as H2 by (unfold_consts; lia).
  assert (is_u64 5040) as H3 by (unfold_consts; lia).
  destruct (handleTimeBeacon_offset_law SyncManager.new 5123 5000 5040 77 H1 H2 H3)
    as (_ & _ & _ & _ & Hoff & _ & _ & Hnow).
  split; [exact H1|]. split; [exact H2|]. split; [exact H3|].
  split; [exact Hoff|].
  apply Hnow; unfold_consts; lia.
Defined.

(** ** SyncEngine before initialisation *)

Lemma never_initialized_null se :
  never_initialized se -> SyncEngine.audio_stream_ se = None.
Proof.
  induction 1 as [| pa se o _ IH | se _ IH | se b off _ IH | se d f ts _ IH];
    simpl; try assumption.
  - reflexivity.
  - unfold SyncEngine.start. rewrite IH. assumption.
  - unfold SyncEngine.stop. rewrite IH. assumption.
  - unfold SyncEngine.writeAudioData. rewrite IH. assumption.
Qed.

(** C8, as stated, fails for the write: on an engine that was never
    initialised [writeAudioData] returns 0 frames and leaves the engine as
    it was; nothing is thrown. *)
Lemma writeAudioData_uninitialized_returns_0 :
  let se := SyncEngine.new 48000 2 20 in
  never_initialized se /\
  SyncEngine.writeAudioData se [1; 2; 3; 4] 2 1000 = (se, 0).
Proof. split; [constructor|reflexivity]. Qed.

(** C8 (amended).  On an engine on which [initialize] has not been called,
    [start] throws the runtime error "SyncEngine non inizializzato" and
    changes nothing, while [writeAudioData] returns 0 frames written and
    changes nothing. *)
Theorem uninitialized_start_and_write (pa : PortAudio) (se : SyncEngine.t)
    (data : list AudioBuffer.float) (frames source_timestamp optimal_buffer_ms : Z) :
  never_initialized se ->
  SyncEngine.start pa se optimal_buffer_ms
    = (se, Some (runtime_error "SyncEngine non inizializzato")) /\
  SyncEngine.writeAudioData se data frames source_timestamp = (se, 0).
Proof.
  intros Hni. apply never_initialized_null in Hni.
  unfold SyncEngine.start, SyncEngine.writeAudioData. rewrite Hni.
  split; reflexivity.
Qed.

Lemma uninitialized_start_and_write_witness :
  let pa := {| Pa_Initialize_ok := true; Pa_GetDefaultOutputDevice_ok := true;
               Pa_OpenStream_ok := true; Pa_StartStream_ok := true |} in
  let se := SyncEngine.updateSyncState (SyncEngine.new 48000 2 20) true 12 in
  never_initialized se /\
  SyncEngine.start pa se 30
    = (se, Some (runtime_error "SyncEngine non inizializzato")) /\
  SyncEngine.writeAudioData se [1; 2] 1 1000 = (se, 0).
Proof.
  cbv zeta.
  assert (never_initialized
            (SyncEngine.updateSyncState (SyncEngine.new 48000 2 20) true 12)) as Hni
    by (constructor; constructor).
  split; [exact Hni|].
  apply (uninitialized_start_and_write _ _ [1; 2] 1 1000 30 Hni).
Defined.

(** ** MeshNetwork: the worker's batch loop *)

Lemma process_batch_app {H} (st : MeshNetwork.t H) env pre rest st1 env1 :
  fst (MeshNetwork.process_batch st env pre) = MeshNetwork.Returned st1 env1 ->
  MeshNetwork.process_batch st env (pre ++ rest)
  = (fst (MeshNetwork.process_batch st1 env1 rest),
     map fst pre ++ snd (MeshNetwork.process_batch st1 env1 rest)).
Proof.
  revert st env. induction pre as [|[p c] pre IH]; intros st env Hpre; simpl in *.
  - injection Hpre as -> ->. destruct (MeshNetwork.process_batch st1 env1 rest); reflexivity.
  - destruct (MeshNetwork.processPacket st env p c) as [st2 env2| |] eqn:Hp;
      try discriminate.
    specialize (IH st2 env2).
    destruct (MeshNetwork.process_batch st2 env2 pre) as [o entered] eqn:Hrec.
    simpl in *. rewrite (IH Hpre).
    destruct (MeshNetwork.process_batch st1 env1 rest); reflexivity.
Qed.

(** C7, as stated, fails: the worker has no handler for exceptions.  On a
    started network whose handler throws on beacon 1, with beacons 1 and 2
    queued at the first wake-up and beacon 3 at the second, the worker
    loop is left with the exception of beacon 1; beacons 2 and 3 are never
    processed nor handed to the handler. *)
Lemma handler_exception_aborts_worker :
  let handler := recording_handler (is_beacon_of 1) in
  let net :=
    MeshNetwork.start
      (MeshNetwork.setPacketHandler (MeshNetwork.new (Node.new "local" Sink)) handler) in
  let w1 := {| MeshNetwork.sent := [TimeBeaconPacket 1; TimeBeaconPacket 2];
               MeshNetwork.stop_called := false;
               MeshNetwork.clock := fun i => 10 + Z.of_nat i |} in
  let w2 := {| MeshNetwork.sent := [TimeBeaconPacket 3];
               MeshNetwork.stop_called := false;
               MeshNetwork.clock := fun i => 20 + Z.of_nat i |} in
  MeshNetwork.runNetworkLoop net [] [w1; w2]
  = (MeshNetwork.Thrown net [TimeBeaconPacket 1] (runtime_error "handler failed"),
     [TimeBeaconPacket 1]) /\
  ~ In (TimeBeaconPacket 2) (snd (MeshNetwork.runNetworkLoop net [] [w1; w2])) /\
  ~ In (TimeBeaconPacket 3) (snd (MeshNetwork.runNetworkLoop net [] [w1; w2])).
Proof.
  split; [reflexivity|].
  split; intros [Habs|[]]; discriminate.
Qed.

(** C7 (amended).  When the registered handler throws while a packet of
    the batch is processed, the exception leaves [processPacket] and the
    batch loop: the loop ends with that exception and the packets behind
    the failing one are not processed; and a batch that ends with an
    exception ends the worker loop with it, whatever is queued later. *)
Theorem handler_exception_leaves_worker_loop {H} (st st1 st2 : MeshNetwork.t H)
    (env env1 env2 : H) (pre post : list (MeshPacket * Z))
    (packet : MeshPacket) (steady : Z) (e : exception) :
  fst (MeshNetwork.process_batch st env pre) = MeshNetwork.Returned st1 env1 ->
  MeshNetwork.processPacket st1 env1 packet steady = MeshNetwork.Thrown st2 env2 e ->
  MeshNetwork.process_batch st env (pre ++ (packet, steady) :: post)
  = (MeshNetwork.Thrown st2 env2 e, map fst pre ++ [packet]) /\
  (forall net world w later,
     MeshNetwork.running (MeshNetwork.wake net w) = true ->
     MeshNetwork.set_queue (MeshNetwork.wake net w) [] = st ->
     world = env ->
     imap (fun i p => (p, MeshNetwork.clock w i))
          (MeshNetwork.packetQueue (MeshNetwork.wake net w))
     = pre ++ (packet, steady) :: post ->
     MeshNetwork.runNetworkLoop net world (w :: later)
     = (MeshNetwork.Thrown st2 env2 e, map fst pre ++ [packet])).
Proof.
  intros Hpre Hthrow.
  assert (MeshNetwork.process_batch st env (pre ++ (packet, steady) :: post)
          = (MeshNetwork.Thrown st2 env2 e, map fst pre ++ [packet])) as Hbatch.
  { rewrite (process_batch_app st env pre _ st1 env1 Hpre).
    simpl. rewrite Hthrow. reflexivity. }
  split; [exact Hbatch|].
  intros net world w later Hrun Hst -> Hqueue.
  simpl. unfold MeshNetwork.runNetworkLoop_turn.
  rewrite Hrun, Hst, Hqueue, Hbatch. reflexivity.
Qed.

Lemma handler_exception_leaves_worker_loop_witness :
  let handler := recording_handler (is_beacon_of 1) in
  let net :=
    MeshNetwork.start
      (MeshNetwork.setPacketHandler (MeshNetwork.new (Node.new "local" Sink)) handler) in
  let w1 := {| MeshNetwork.sent :=
                 [TimeBeaconPacket 5; TimeBeaconPacket 1; TimeBeaconPacket 2];
               MeshNetwork.stop_called := false;
               MeshNetwork.clock := fun i => 10 + Z.of_nat i |} in
  let w2 := {| MeshNetwork.sent := [TimeBeaconPacket 3];
               MeshNetwork.stop_called := false;
               MeshNetwork.clock := fun i => 20 + Z.of_nat i |} in
  fst (MeshNetwork.process_batch net [] [(TimeBeaconPacket 5, 10)])
    = MeshNetwork.Returned net [TimeBeaconPacket 5] /\
  MeshNetwork.processPacket net [TimeBeaconPacket 5] (TimeBeaconPacket 1) 11
    = MeshNetwork.Thrown net [TimeBeaconPacket 5; TimeBeaconPacket 1]
        (runtime_error "handler failed") /\
  MeshNetwork.process_batch net []
    ([(TimeBeaconPacket 5, 10)] ++ (TimeBeaconPacket 1, 11) :: [(TimeBeaconPacket 2, 12)])
  = (MeshNetwork.Thrown net [TimeBeaconPacket 5; TimeBeaconPacket 1]
       (runtime_error "handler failed"),
     map fst [(TimeBeaconPacket 5, 10)] ++ [TimeBeaconPacket 1]) /\
  MeshNetwork.runNetworkLoop net [] [w1; w2]
  = (MeshNetwork.Thrown net [TimeBeaconPacket 5; TimeBeaconPacket 1]
       (runtime_error "handler failed"),
     map fst [(TimeBeaconPacket 5, 10)] ++ [TimeBeaconPacket 1]).
Proof.
  cbv zeta.
  set (net := MeshNetwork.start _).
  set (w1 := {| MeshNetwork.sent := _; MeshNetwork.stop_called := false;
                MeshNetwork.clock := fun i => 10 + Z.of_nat i |}).
  set (w2 := {| MeshNetwork.sent := [TimeBeaconPacket 3];
                MeshNetwork.stop_called := false;
                MeshNetwork.clock := fun i => 20 + Z.of_nat i |}).
  destruct (handler_exception_leaves_worker_loop net net net
              [] [TimeBeaconPacket 5] [TimeBeaconPacket 5; TimeBeaconPacket 1]
              [(TimeBeaconPacket 5, 10)] [(TimeBeaconPacket 2, 12)]
              (TimeBeaconPacket 1) 11 (runtime_error "handler failed")
              eq_refl eq_refl) as [Hbatch Hloop].
  split; [reflexivity|]. split; [reflexivity|]. split; [exact Hbatch|].
  apply (Hloop net [] w1 [w2]); reflexivity.
Defined.

(** ** MeshCrypto: nonces *)

Lemma after_nonce_calls_counter st clock n :
  MeshCrypto.nonceCounter (after_nonce_calls st clock n)
  = (if (n =? 0)%N then MeshCrypto.nonceCounter st
     else u64 (MeshCrypto.nonceCounter st + Z.of_N n)).
Proof.
  unfold after_nonce_calls.
  induction n as [|n IH] using N.peano_ind; [reflexivity|].
  rewrite N.peano_rect_succ.
  change (MeshCrypto.nonceCounter (fst (MeshCrypto.generateNonce ?s ?ts)))
    with (u64 (MeshCrypto.nonceCounter s + 1)).
  rewrite IH. clear IH.
  destruct (N.eqb_spec (N.succ n) 0) as [Habs|_]; [lia|].
  destruct (N.eqb_spec n 0) as [Hn|Hn].
  - rewrite Hn. f_equal.
  - rewrite u64_add_l. f_equal. lia.
Qed.

Lemma nth_nonce_eq st clock n :
  nth_nonce st clock n
  = take 8 (MeshCrypto.bytes_of_u64 (clock n)) ++
    take 4 (MeshCrypto.bytes_of_u64
              (u64 (MeshCrypto.nonceCounter st + Z.of_N n + 1))).
Proof.
  unfold nth_nonce, MeshCrypto.generateNonce.
  cbn [snd]. rewrite after_nonce_calls_counter.
  destruct (N.eqb_spec n 0) as [Hn|Hn].
  - rewrite Hn. change (Z.of_N 0) with 0. rewrite Z.add_0_r. reflexivity.
  - rewrite u64_add_l. reflexivity.
Qed.

Lemma nth_nonce_length st clock n : length (nth_nonce st clock n) = 12%nat.
Proof.
  rewrite nth_nonce_eq. unfold MeshCrypto.bytes_of_u64.
  rewrite length_app, !length_take, !length_le_split. reflexivity.
Qed.

Lemma u64_mod_u32 z : u64 z mod U32_MOD = z mod U32_MOD.
Proof.
  unfold u64. apply Z.mod_mod_divide.
  exists U32_MOD. reflexivity.
Qed.

(** The four counter bytes of a nonce determine the counter modulo [2^32]. *)
Lemma counter_bytes_inj c1 c2 :
  take 4 (MeshCrypto.bytes_of_u64 c1) = take 4 (MeshCrypto.bytes_of_u64 c2) ->
  c1 mod U32_MOD = c2 mod U32_MOD.
Proof.
  intros Heq. apply (f_equal le_combine) in Heq.
  unfold MeshCrypto.bytes_of_u64 in Heq.
  rewrite !le_combine_firstn, !le_combine_split in Heq.
  change (2 ^ (Z.of_nat 8 * 8)) with U64_MOD in Heq.
  change (2 ^ (8 * Z.of_nat 4)) with U32_MOD in Heq.
  fold (u64 c1) in Heq. fold (u64 c2) in Heq.
  rewrite !u64_mod_u32 in Heq. exact Heq.
Qed.

(** C9, as stated, fails once the counter has gone round its four
    embedded bytes: on a fresh instance whose clock stands still, call 0
    and call [2^32] return the same nonce. *)
Lemma nonce_reuse_after_2_32_calls :
  let st := MeshCrypto.new [] [] [] in
  let clock := fun _ : N => 1700000000000 in
  (0 <> 4294967296)%N /\
  clock 0%N = clock 4294967296%N /\
  nth_nonce st clock 0 = nth_nonce st clock 4294967296.
Proof.
  cbv zeta. split; [discriminate|]. split; [reflexivity|].
  rewrite !nth_nonce_eq. vm_compute. reflexivity.
Qed.

(** C9 (amended).  Every call of [generateNonce] increments the counter
    before use and puts its low four bytes into the 12-byte nonce; two
    calls on one instance at the same millisecond whose call numbers are
    not congruent modulo [2^32] (so any two calls less than [2^32] calls
    apart) return different nonces. *)
Theorem nonce_unique_within_2_32_calls (st : MeshCrypto.t) (clock : N -> Z) (i j : N) :
  clock i = clock j ->
  Z.of_N i mod U32_MOD <> Z.of_N j mod U32_MOD ->
  MeshCrypto.nonceCounter (after_nonce_calls st clock (N.succ i))
    = u64 (MeshCrypto.nonceCounter (after_nonce_calls st clock i) + 1) /\
  length (nth_nonce st clock i) = 12%nat /\
  drop 8 (nth_nonce st clock i)
    = take 4 (MeshCrypto.bytes_of_u64
                (MeshCrypto.nonceCounter (after_nonce_calls st clock (N.succ i)))) /\
  nth_nonce st clock i <> nth_nonce st clock j.
Proof.
  intros Hclock Hdiff. split; [|split; [|split]].
  - unfold after_nonce_calls. rewrite N.peano_rect_succ. reflexivity.
  - apply nth_nonce_length.
  - rewrite nth_nonce_eq, after_nonce_calls_counter.
    destruct (N.eqb_spec (N.succ i) 0) as [Habs|_]; [lia|].
    rewrite drop_app_length'
      by (unfold MeshCrypto.bytes_of_u64; rewrite length_take, length_le_split;
          reflexivity).
    do 3 f_equal. lia.
  - rewrite !nth_nonce_eq, Hclock. intros Heq.
    apply app_inv_head in Heq. apply counter_bytes_inj in Heq.
    rewrite !u64_mod_u32 in Heq.
    apply Hdiff.
    replace (Z.of_N i)
      with ((MeshCrypto.nonceCounter st + Z.of_N i + 1)
            - (MeshCrypto.nonceCounter st + 1)) by lia.
    replace (Z.of_N j)
      with ((MeshCrypto.nonceCounter st + Z.of_N j + 1)
            - (MeshCrypto.nonceCounter st + 1)) by lia.
    rewrite (Zminus_mod (MeshCrypto.nonceCounter st + Z.of_N i + 1)).
    rewrite (Zminus_mod (MeshCrypto.nonceCounter st + Z.of_N j + 1)).
    rewrite Heq. reflexivity.
Qed.

Lemma nonce_unique_within_2_32_calls_witness :
  let st := MeshCrypto.new [] [] [] in
  let clock := fun _ : N => 1700000000000 in
  clock 3%N = clock 7%N /\
  Z.of_N 3 mod U32_MOD <> Z.of_N 7 mod U32_MOD /\
  nth_nonce st clock 3 <> nth_nonce st clock 7.
Proof.
  cbv zeta.
  assert (Z.of_N 3 mod U32_MOD <> Z.of_N 7 mod U32_MOD) as Hne
    by (vm_compute; congruence).
  split; [reflexivity|]. split; [exact Hne|].
  apply (nonce_unique_within_2_32_calls (MeshCrypto.new [] [] [])
           (fun _ => 1700000000000) 3 7 eq_refl Hne).
Defined.

(** ** MeshCrypto: security tokens *)

Lemma plain_primitives_aead : aead_correct plain_primitives.
Proof.
  intros key nonce payload ciphertext tag Hseal. simpl in *.
  injection Hseal as <- <-. split; reflexivity.
Qed.

Lemma generateNonce_length st ts :
  length (snd (MeshCrypto.generateNonce st ts)) = 12%nat.
Proof.
  unfold MeshCrypto.generateNonce, MeshCrypto.bytes_of_u64. cbn [snd].
  rewrite length_app, !length_take, !length_le_split. reflexivity.
Qed.

(** Decrypting what [encrypt] produced, under the same network key. *)
Lemma decrypt_encrypt P st st_v payload ts st' out :
  aead_correct P ->
  MeshCrypto.networkKey st_v = MeshCrypto.networkKey st ->
  MeshCrypto.encrypt P st payload ts = (st', inr out) ->
  MeshCrypto.decrypt P st_v out = inr payload.
Proof.
  intros Haead Hkey Henc. unfold MeshCrypto.encrypt in Henc.
  pose proof (generateNonce_length st ts) as Hnlen.
  destruct (MeshCrypto.generateNonce st ts) as [st1 nonce] eqn:Hnonce.
  assert (MeshCrypto.networkKey st1 = MeshCrypto.networkKey st) as Hkey1.
  { unfold MeshCrypto.generateNonce in Hnonce. injection Hnonce as <- _. reflexivity. }
  simpl in Hnlen.
  destruct (aes_256_gcm_seal P (MeshCrypto.networkKey st1) nonce payload)
    as [[ciphertext tag]|] eqn:Hseal; [|discriminate].
  injection Henc as _ <-.
  destruct (Haead _ _ _ _ _ Hseal) as [Htag Hopen].
  unfold MeshCrypto.decrypt, cpp_size.
  rewrite !length_app, Hnlen, Htag.
  destruct (Z.ltb_spec (Z.of_nat (12 + (length ciphertext + 16))) (12 + 16)) as [Hlt|_];
    [lia|].
  assert (take 12 (nonce ++ ciphertext ++ tag) = nonce) as ->
    by (apply take_app_length'; congruence).
  replace (12 + (length ciphertext + 16) - 16)%nat
    with (length (nonce ++ ciphertext)) by (rewrite length_app; lia).
  rewrite (app_assoc nonce ciphertext tag).
  rewrite drop_app_length, take_app_length.
  rewrite drop_app_length' by congruence.
  rewrite Hkey, <- Hkey1, Hopen. reflexivity.
Qed.

(** [verifySecurityToken] on a payload laid out as node id, timestamp,
    expiry, signature. *)
Lemma verifySecurityToken_payload P st token idb ts8 exp8 sig current :
  MeshCrypto.decrypt P st token = inr (idb ++ ts8 ++ exp8 ++ sig) ->
  length ts8 = 8%nat -> length exp8 = 8%nat -> length sig = 64%nat ->
  MeshCrypto.verifySecurityToken P st token current
  = if le_combine exp8 <? current then inl Verification
    else match MeshCrypto.verify P st (string_of_list_byte idb)
                 (idb ++ ts8 ++ exp8) sig with
         | inl e => inl e
         | inr false => inl Verification
         | inr true => inr (string_of_list_byte idb, le_combine exp8)
         end.
Proof.
  intros Hdec Hts Hexp Hsig. unfold MeshCrypto.verifySecurityToken.
  rewrite Hdec. unfold cpp_size, MeshCrypto.crypto_sign_BYTES.
  rewrite !length_app, Hts, Hexp, Hsig.
  destruct (Z.ltb_spec (Z.of_nat (length idb + (8 + (8 + 64)))) (8 + 8 + 64))
    as [Hlt|_]; [lia|].
  replace (length idb + (8 + (8 + 64)) - 64)%nat
    with (length (idb ++ ts8 ++ exp8)) by (rewrite !length_app; lia).
  replace (idb ++ ts8 ++ exp8 ++ sig) with ((idb ++ ts8 ++ exp8) ++ sig)
    by (rewrite <- !app_assoc; reflexivity).
  rewrite drop_app_length, take_app_length.
  replace (length (idb ++ ts8 ++ exp8) - 16)%nat with (length idb)
    by (rewrite !length_app; lia).
  rewrite take_app_length.
  replace (length idb + 8)%nat with (length (idb ++ ts8))
    by (rewrite length_app; lia).
  rewrite (app_assoc idb ts8 exp8), drop_app_length.
  rewrite take_ge by lia.
  reflexivity.
Qed.

(** Whatever goes wrong after the token was decrypted is reported as a
    Verification error. *)
Lemma verifySecurityToken_error_type P st token current payload e :
  MeshCrypto.decrypt P st token = inr payload ->
  MeshCrypto.verifySecurityToken P st token current = inl e ->
  e = Verification.
Proof.
  intros Hdec. unfold MeshCrypto.verifySecurityToken, MeshCrypto.verify.
  rewrite Hdec. intros Hv.
  repeat case_match; congruence.
Qed.

Lemma verifySecurityToken_expired P st token current payload :
  MeshCrypto.decrypt P st token = inr payload ->
  token_expiry payload < current ->
  MeshCrypto.verifySecurityToken P st token current = inl Verification.
Proof.
  intros Hdec Hexp. unfold MeshCrypto.verifySecurityToken.
  rewrite Hdec. unfold cpp_size, MeshCrypto.crypto_sign_BYTES in *.
  destruct (Z.ltb_spec (Z.of_nat (length payload)) (8 + 8 + 64)) as [Hlt|Hsize];
    [reflexivity|].
  rewrite length_take.
  match goal with
  | |- context [take 8 (drop ?k (take ?m payload))] =>
      replace (take 8 (drop k (take m payload)))
        with (take 8 (drop (length payload - 64 - 16 + 8) payload))
  end.
  - fold (token_expiry payload).
    destruct (Z.ltb_spec (token_expiry payload) current); [reflexivity|lia].
  - replace ((length payload - 64) `min` length payload - 16 + 8)%nat
      with (length payload - 64 - 16 + 8)%nat by lia.
    rewrite !take_drop_commute, take_take. do 2 f_equal. lia.
Qed.

(** What [generateSecurityToken] hands out decrypts, at any instance with
    the same network key, to the token fields followed by the signature. *)
Lemma generateSecurityToken_decrypt P st_gen st_ver nodeId ttl t0 tn st' token :
  aead_correct P ->
  MeshCrypto.networkKey st_ver = MeshCrypto.networkKey st_gen ->
  MeshCrypto.generateSecurityToken P st_gen nodeId ttl t0 tn = (st', inr token) ->
  exists signature,
    crypto_sign_detached P (MeshCrypto.signingSecretKey st_gen)
      (list_byte_of_string nodeId ++ MeshCrypto.bytes_of_u64 t0 ++
       MeshCrypto.bytes_of_u64 (u64 (t0 + u64 (ttl * 1000))))
    = Some signature /\
    MeshCrypto.decrypt P st_ver token
    = inr (list_byte_of_string nodeId ++ MeshCrypto.bytes_of_u64 t0 ++
           MeshCrypto.bytes_of_u64 (u64 (t0 + u64 (ttl * 1000))) ++ signature).
Proof.
  intros Haead Hkey Hgen.
  unfold MeshCrypto.generateSecurityToken, MeshCrypto.sign in Hgen.
  destruct (crypto_sign_detached P _ _) as [signature|] eqn:Hsign;
    [|discriminate].
  exists signature. split; [reflexivity|].
  rewrite (decrypt_encrypt P st_gen st_ver _ tn st' token Haead Hkey Hgen).
  rewrite <- !app_assoc. reflexivity.
Qed.

(** C6, as stated, fails twice.  With the stand-in primitives, a token for
    "n1" issued at 1000 ms with a TTL of one second (expiry 2000) still
    verifies when the clock reads exactly 2000; and on an instance that
    has no key registered for "n1" the same token is rejected at 1500,
    before its expiry. *)
Lemma security_token_counterexample :
  let sk := replicate 32 Byte.x01 ++ replicate 32 Byte.x02 in
  let pk := replicate 32 Byte.x02 in
  let fresh := MeshCrypto.new (replicate 32 Byte.x00) pk sk in
  let registered := MeshCrypto.registerNodeKey fresh "n1" pk in
  match MeshCrypto.generateSecurityToken plain_primitives registered "n1" 1 1000 1000 with
  | (st', inr token) =>
      ~ (2000 < 1000 + 1 * 1000) /\
      MeshCrypto.verifySecurityToken plain_primitives st' token 2000
        = inr ("n1"%string, 2000) /\
      MeshCrypto.verifySecurityToken plain_primitives st' token 2000
        <> inl Verification /\
      1500 < 1000 + 1 * 1000 /\
      MeshCrypto.verifySecurityToken plain_primitives fresh token 1500
        = inl Verification
  | _ => False
  end.
Proof. solve_concrete. Qed.

(** C6 (amended).  Once a token is decrypted, [verifySecurityToken]
    rejects it with a Verification error when the clock is past its expiry
    ([now > expiry]; a token is still accepted at [now = expiry]).  A token
    generated with any TTL whose expiry [timestamp + 1000 * ttl] fits in 64
    bits is rejected with Verification after its expiry and, at an instance
    with the same network key, verifies until the clock passes its expiry
    exactly when the signer's public key is registered there under the
    token's node id; without that key it is rejected with Verification. *)
Theorem security_token_expiry (P : Primitives) (st_gen st_ver st' : MeshCrypto.t)
    (nodeId : string) (ttl t0 tn current : Z) (token pk : list byte) :
  aead_correct P ->
  signature_correct P pk (MeshCrypto.signingSecretKey st_gen) ->
  length pk = 32%nat ->
  MeshCrypto.networkKey st_ver = MeshCrypto.networkKey st_gen ->
  is_u64 t0 -> 0 <= ttl -> t0 + ttl * 1000 < U64_MOD ->
  MeshCrypto.generateSecurityToken P st_gen nodeId ttl t0 tn = (st', inr token) ->
  let expiry := t0 + ttl * 1000 in
  (forall any_token payload,
     MeshCrypto.decrypt P st_ver any_token = inr payload ->
     token_expiry payload < current ->
     MeshCrypto.verifySecurityToken P st_ver any_token current = inl Verification) /\
  (expiry < current ->
     MeshCrypto.verifySecurityToken P st_ver token current = inl Verification) /\
  (current <= expiry ->
     MeshCrypto.knownPublicKeys st_ver !! nodeId = Some pk ->
     MeshCrypto.verifySecurityToken P st_ver token current = inr (nodeId, expiry)) /\
  (current <= expiry ->
     MeshCrypto.knownPublicKeys st_ver !! nodeId = None ->
     MeshCrypto.verifySecurityToken P st_ver token current = inl Verification).
Proof.
  intros Haead Hsig Hpk Hkey Ht0 Httl Hfit Hgen expiry.
  split; [intros any_token payload; apply verifySecurityToken_expired|].
  destruct (generateSecurityToken_decrypt P st_gen st_ver nodeId ttl t0 tn st' token
              Haead Hkey Hgen) as (signature & Hsign & Hdec).
  assert (u64 (t0 + u64 (ttl * 1000)) = expiry) as Hexp.
  { rewrite u64_add_r. apply u64_small. destruct Ht0. unfold is_u64. subst expiry. lia. }
  assert (le_combine (MeshCrypto.bytes_of_u64 expiry) = expiry) as Hcomb.
  { unfold MeshCrypto.bytes_of_u64. rewrite le_combine_split.
    apply Z.mod_small. destruct Ht0.
    change (2 ^ (Z.of_nat 8 * 8)) with U64_MOD. subst expiry. lia. }
  rewrite Hexp in Hdec, Hsign.
  destruct (Hsig _ _ Hsign) as [Hlen Hverify].
  pose proof (verifySecurityToken_payload P st_ver token _ _ _ _ current Hdec
                (length_le_split 8 t0) (length_le_split 8 expiry) Hlen) as Hv.
  rewrite Hcomb, string_of_list_byte_of_string in Hv.
  rewrite Hv. unfold MeshCrypto.verify, cpp_size, MeshCrypto.crypto_sign_PUBLICKEYBYTES,
    MeshCrypto.crypto_sign_BYTES.
  repeat split.
  - intros Hlate. destruct (Z.ltb_spec expiry current); [reflexivity|lia].
  - intros Hearly Hreg. destruct (Z.ltb_spec expiry current); [lia|].
    rewrite Hreg, Hpk, Hlen.
    change (negb (Z.of_nat 32 =? 32)) with false.
    change (negb (Z.of_nat 64 =? 64)) with false.
    cbv iota. rewrite Hverify. reflexivity.
  - intros Hearly Hreg. destruct (Z.ltb_spec expiry current); [lia|].
    rewrite Hreg. reflexivity.
Qed.

Lemma plain_primitives_signature seed pk :
  length seed = 32%nat ->
  length pk = 32%nat ->
  signature_correct plain_primitives pk (seed ++ pk).
Proof.
  intros Hseed Hpk message signature Hsign. simpl in Hsign.
  injection Hsign as <-.
  rewrite drop_app_length' by congruence.
  split.
  - rewrite length_app. lia.
  - simpl. apply bool_decide_eq_true. reflexivity.
Qed.

Lemma security_token_expiry_witness :
  let seed := replicate 32 Byte.x01 in
  let pk := replicate 32 Byte.x02 in
  let st := MeshCrypto.registerNodeKey
              (MeshCrypto.new (replicate 32 Byte.x00) pk (seed ++ pk)) "n1" pk in
  match MeshCrypto.generateSecurityToken plain_primitives st "n1" 1 1000 1000 with
  | (st', inr token) =>
      aead_correct plain_primitives /\
      signature_correct plain_primitives pk (MeshCrypto.signingSecretKey st) /\
      length pk = 32%nat /\
      is_u64 1000 /\ 0 <= 1 /\ 1000 + 1 * 1000 < U64_MOD /\
      1500 <= 1000 + 1 * 1000 /\
      MeshCrypto.knownPublicKeys st !! "n1"%string = Some pk /\
      MeshCrypto.verifySecurityToken plain_primitives st token 1500
        = inr ("n1"%string, 1000 + 1 * 1000)
  | _ => False
  end.
Proof.
  cbv zeta.
  set (seed := replicate 32 Byte.x01).
  set (pk := replicate 32 Byte.x02).
  set (st := MeshCrypto.registerNodeKey _ _ _).
  assert (signature_correct plain_primitives pk (MeshCrypto.signingSecretKey st)) as Hsig
    by (apply plain_primitives_signature; reflexivity).
  assert (is_u64 1000) as Hu by (unfold_consts; lia).
  assert (1000 + 1 * 1000 < U64_MOD) as Hfit by (unfold_consts; lia).
  assert (MeshCrypto.knownPublicKeys st !! "n1"%string = Some pk) as Hreg
    by (vm_compute; reflexivity).
  destruct (MeshCrypto.generateSecurityToken plain_primitives st "n1" 1 1000 1000)
    as [st' [e|token]] eqn:Hgen.
  - vm_compute in Hgen. discriminate.
  - destruct (security_token_expiry plain_primitives st st st' "n1" 1 1000 1000 1500
                token pk plain_primitives_aead Hsig eq_refl eq_refl Hu
                ltac:(lia) Hfit Hgen) as (_ & _ & Hok & _).
    split; [exact plain_primitives_aead|]. split; [exact Hsig|].
    split; [reflexivity|]. split; [exact Hu|]. split; [lia|]. split; [exact Hfit|].
    split; [lia|]. split; [exact Hreg|].
    apply Hok; [lia|exact Hreg].
Defined.

(** * Further properties *)

(** ** RingBuffer: first in, first out *)

Lemma ring_run_cons {T} (rb : RingBuffer.t T) o ops :
  snd (ring_run rb (o :: ops)) = snd (ring_run (fst (ring_step rb o)) ops).
Proof.
  simpl. destruct (ring_step rb o) as [rb' k]. simpl.
  destruct (ring_run rb' ops) as [log final]. reflexivity.
Qed.

Lemma ring_fifo_from {T} N (ops : list (ring_op T)) :
  forall rb, ring_inv N rb -> Forall ring_op_valid ops ->
  ring_delivered rb ops ++ ring_contents (snd (ring_run rb ops))
  = ring_contents rb ++ ring_accepted rb ops.
Proof.
  induction ops as [|o ops IH]; intros rb Hinv Hvalid.
  - simpl. rewrite app_nil_r. reflexivity.
  - inversion Hvalid as [|? ? Ho Hops]; subst.
    rewrite ring_run_cons.
    pose proof (ring_step_spec N rb o Hinv Ho) as (Hinv' & _ & _).
    specialize (IH _ Hinv' Hops).
    cbn [ring_delivered ring_accepted].
    rewrite <- app_assoc, IH.
    destruct o as [data|count|count]; cbn [ring_step] in *.
    + pose proof (ring_write_contents N rb data (cpp_size data) Hinv
                    ltac:(unfold cpp_size; lia)) as Hc.
      cbv zeta in Hc. rewrite Hc, <- app_assoc. reflexivity.
    + pose proof (ring_read_contents N rb count Hinv (proj1 Ho)) as (Hout & Hc).
      destruct (RingBuffer.read rb count) as [[rb' out] k]. cbn [fst snd] in *.
      rewrite Hc, Hout. change ([] ++ ring_accepted rb' ops) with (ring_accepted rb' ops).
      rewrite app_assoc, take_drop. reflexivity.
    + reflexivity.
Qed.

(** X1.  The ring is a first-in-first-out queue: along any sequence of writes,
    reads and peeks on a fresh ring, what the reads have returned followed
    by what is still queued is exactly what the writes stored, in the
    order it was written. *)
Theorem ring_fifo {T} (dflt : T) (N : Z) (rb0 : RingBuffer.t T)
    (ops : list (ring_op T)) :
  0 <= N ->
  RingBuffer.new dflt N = inr rb0 ->
  Forall ring_op_valid ops ->
  ring_delivered rb0 ops ++ ring_contents (snd (ring_run rb0 ops))
  = ring_accepted rb0 ops.
Proof.
  intros HN Hnew Hvalid.
  rewrite (ring_fifo_from N ops rb0 (ring_new_inv dflt N rb0 HN Hnew) Hvalid).
  rewrite (ring_new_contents dflt N rb0 HN Hnew). reflexivity.
Qed.

Lemma ring_fifo_witness :
  let ops := [OpWrite [1; 2; 3]; OpRead 2; OpPeek 5; OpWrite [4; 5; 6; 7]; OpRead 10] in
  match RingBuffer.new 0 4 with
  | inr rb0 =>
      0 <= 4 /\
      Forall ring_op_valid ops /\
      ring_delivered rb0 ops ++ ring_contents (snd (ring_run rb0 ops))
      = ring_accepted rb0 ops
  | inl _ => False
  end.
Proof.
  cbv zeta.
  destruct (RingBuffer.new 0 4) as [e|rb0] eqn:Hnew; [vm_compute in Hnew; discriminate|].
  assert (Forall (@ring_op_valid Z)
            [OpWrite [1; 2; 3]; OpRead 2; OpPeek 5; OpWrite [4; 5; 6; 7]; OpRead 10])
    as Hvalid by (repeat constructor; solve_concrete).
  split; [lia|]. split; [exact Hvalid|].
  exact (ring_fifo 0 4 rb0 _ ltac:(lia) Hnew Hvalid).
Defined.

(** X2.  [peek] hands back the oldest [count] queued elements (all of them when
    fewer are queued), the same elements a [read] of [count] would return,
    and it is a [const] member: the ring is as before. *)
Theorem ring_peek_prefix {T} (N : Z) (rb : RingBuffer.t T) (count : Z) :
  ring_inv N rb -> is_u64 count ->
  RingBuffer.peek rb count
  = (take (Z.to_nat count) (ring_contents rb), Z.min count (RingBuffer.size rb)) /\
  fst (RingBuffer.peek rb count) = snd (fst (RingBuffer.read rb count)).
Proof.
  intros Hinv Hcount.
  pose proof (ring_read_contents N rb count Hinv (proj1 Hcount)) as (Hout & _).
  pose proof (ring_read_spec N rb count Hinv (proj1 Hcount)) as (_ & Hk & _).
  pose proof (ring_contents_length N rb Hinv) as Hlen.
  pose proof (inv_size _ _ Hinv) as Hsize.
  rewrite ring_peek_read. cbn [fst snd]. split; [|reflexivity].
  rewrite Hout, Hk. f_equal.
  destruct (Z.le_ge_cases count (RingBuffer.size_ rb)) as [Hle|Hge].
  - rewrite Z.min_l by exact Hle. reflexivity.
  - rewrite Z.min_r by exact Hge.
    rewrite !take_ge by (rewrite Hlen; lia). reflexivity.
Qed.

Lemma ring_peek_prefix_witness :
  match RingBuffer.new 0 4 with
  | inr rb0 =>
      let rb := fst (RingBuffer.write rb0 [7; 8; 9] 3) in
      ring_inv 4 rb /\ is_u64 2 /\
      RingBuffer.peek rb 2 = ([7; 8], 2) /\
      RingBuffer.peek rb 10 = ([7; 8; 9], 3)
  | inl _ => False
  end.
Proof.
  vm_compute (RingBuffer.new 0 4). cbv beta iota zeta.
  set (rb := fst (RingBuffer.write _ _ _)).
  assert (ring_inv 4 rb) as Hinv by (constructor; solve_concrete).
  assert (is_u64 2) as H2 by solve_concrete.
  assert (is_u64 10) as H10 by solve_concrete.
  split; [exact Hinv|]. split; [exact H2|].
  split; [exact (proj1 (ring_peek_prefix 4 rb 2 Hinv H2))
         |exact (proj1 (ring_peek_prefix 4 rb 10 Hinv H10))].
Defined.

(** ** RingBuffer: full, empty, cleared *)

Lemma ring_empty_contents {T} N (rb : RingBuffer.t T) :
  ring_inv N rb -> RingBuffer.size_ rb = 0 -> ring_contents rb = [].
Proof.
  intros Hinv Hsize. apply nil_length_inv.
  rewrite (ring_contents_length N rb Hinv), Hsize. reflexivity.
Qed.

(** X3.  Back-pressure at the two ends.  A full ring accepts nothing: [write]
    returns 0 and leaves the ring as it is, so queued elements are never
    overwritten.  An empty ring yields nothing: [read] and [peek] return 0
    and store no element.  [available] is the room left, and it is 0
    exactly when the ring is full. *)
Theorem ring_full_and_empty {T} (N : Z) (rb : RingBuffer.t T)
    (data : list T) (count : Z) :
  ring_inv N rb -> is_u64 count ->
  RingBuffer.available rb = N - RingBuffer.size rb /\
  (RingBuffer.full rb = true <-> RingBuffer.available rb = 0) /\
  (RingBuffer.full rb = true -> RingBuffer.write rb data count = (rb, 0)) /\
  (RingBuffer.empty rb = true ->
     RingBuffer.read rb count = (rb, [], 0) /\
     RingBuffer.peek rb count = ([], 0) /\
     ring_contents rb = []).
Proof.
  intros Hinv Hcount.
  pose proof (inv_capacity _ _ Hinv) as Hcap.
  pose proof (inv_bound _ _ Hinv) as HN.
  pose proof (inv_size _ _ Hinv) as Hsize.
  assert (RingBuffer.available rb = N - RingBuffer.size rb) as Havail.
  { unfold RingBuffer.available, RingBuffer.size. rewrite Hcap.
    apply u64_small. unfold_consts. lia. }
  split; [exact Havail|].
  split; [|split].
  - rewrite Havail. unfold RingBuffer.full, RingBuffer.size. rewrite Hcap, Z.eqb_eq. lia.
  - intros Hfull. apply Z.eqb_eq in Hfull.
    unfold RingBuffer.write.
    destruct (count =? 0); [reflexivity|].
    rewrite Hfull, Z.sub_diag. change (u64 0) with 0.
    rewrite Z.min_r by apply Hcount. reflexivity.
  - intros Hempty.
    unfold RingBuffer.read, RingBuffer.peek.
    unfold RingBuffer.empty in Hempty. rewrite Hempty, orb_true_r.
    split; [reflexivity|]. split; [reflexivity|].
    apply (ring_empty_contents N rb Hinv). apply Z.eqb_eq. exact Hempty.
Qed.

Lemma ring_full_and_empty_witness :
  match RingBuffer.new 0 3 with
  | inr rb0 =>
      let rb := fst (RingBuffer.write rb0 [7; 8; 9] 3) in
      ring_inv 3 rb /\ is_u64 2 /\
      RingBuffer.full rb = true /\
      RingBuffer.write rb [1; 2] 2 = (rb, 0) /\
      ring_inv 3 rb0 /\
      RingBuffer.empty rb0 = true /\
      RingBuffer.read rb0 2 = (rb0, [], 0)
  | inl _ => False
  end.
Proof.
  vm_compute (RingBuffer.new 0 3). cbv beta iota zeta.
  set (rb0 := RingBuffer.mk _ _ _ _ _).
  set (rb := fst (RingBuffer.write _ _ _)).
  assert (ring_inv 3 rb) as Hinv by (constructor; solve_concrete).
  assert (ring_inv 3 rb0) as Hinv0 by (constructor; solve_concrete).
  assert (is_u64 2) as H2 by solve_concrete.
  assert (RingBuffer.full rb = true) as Hfull by solve_concrete.
  assert (RingBuffer.empty rb0 = true) as Hempty by solve_concrete.
  split; [exact Hinv|]. split; [exact H2|]. split; [exact Hfull|].
  split; [exact (proj1 (proj2 (proj2 (ring_full_and_empty 3 rb [1; 2] 2 Hinv H2))) Hfull)|].
  split; [exact Hinv0|]. split; [exact Hempty|].
  exact (proj1 (proj2 (proj2 (proj2 (ring_full_and_empty 3 rb0 [] 2 Hinv0 H2))) Hempty)).
Defined.

(** X4.  [clear] forgets everything queued and nothing else: the ring keeps
    its capacity, all of it is available again, and the next write of up
    to [N] elements is stored whole and is all the ring then holds. *)
Theorem ring_clear_resets {T} (N : Z) (rb : RingBuffer.t T) (data : list T) :
  ring_inv N rb -> cpp_size data <= N ->
  ring_inv N (RingBuffer.clear rb) /\
  ring_contents (RingBuffer.clear rb) = [] /\
  RingBuffer.available (RingBuffer.clear rb) = N /\
  snd (RingBuffer.write (RingBuffer.clear rb) data (cpp_size data)) = cpp_size data /\
  ring_contents (fst (RingBuffer.write (RingBuffer.clear rb) data (cpp_size data)))
  = data.
Proof.
  intros Hinv Hlen.
  pose proof (ring_clear_inv N rb Hinv) as Hinv'.
  pose proof (inv_bound _ _ Hinv) as HN.
  assert (ring_contents (RingBuffer.clear rb) = []) as Hnil
    by (apply (ring_empty_contents N _ Hinv'); reflexivity).
  assert (0 <= cpp_size data <= cpp_size data) as Hcount by (unfold cpp_size; lia).
  pose proof (ring_write_spec N _ data (cpp_size data) Hinv' (proj1 Hcount))
    as (_ & Hk & _).
  pose proof (ring_write_contents N _ data (cpp_size data) Hinv' Hcount) as Hc.
  cbv zeta in Hk, Hc.
  change (RingBuffer.size_ (RingBuffer.clear rb)) with 0 in Hk.
  rewrite Z.sub_0_r, Z.min_l in Hk by exact Hlen.
  split; [exact Hinv'|]. split; [exact Hnil|]. split; [|split].
  - unfold RingBuffer.available. cbn [RingBuffer.clear RingBuffer.capacity_ RingBuffer.size_].
    rewrite (inv_capacity _ _ Hinv), Z.sub_0_r. apply u64_small. unfold_consts. lia.
  - exact Hk.
  - rewrite Hc, Hnil, Hk. cbn [app]. apply take_ge. unfold cpp_size. lia.
Qed.

Lemma ring_clear_resets_witness :
  match RingBuffer.new 0 3 with
  | inr rb0 =>
      let rb := fst (RingBuffer.write rb0 [7; 8; 9] 3) in
      ring_inv 3 rb /\ cpp_size [1; 2] <= 3 /\
      ring_contents (RingBuffer.clear rb) = [] /\
      ring_contents (fst (RingBuffer.write (RingBuffer.clear rb) [1; 2] (cpp_size [1; 2])))
      = [1; 2]
  | inl _ => False
  end.
Proof.
  vm_compute (RingBuffer.new 0 3). cbv beta iota zeta.
  set (rb := fst (RingBuffer.write _ _ _)).
  assert (ring_inv 3 rb) as Hinv by (constructor; solve_concrete).
  assert (cpp_size [1; 2] <= 3) as Hlen by solve_concrete.
  destruct (ring_clear_resets 3 rb [1; 2] Hinv Hlen) as (_ & Hnil & _ & _ & Hc).
  split; [exact Hinv|]. split; [exact Hlen|]. split; [exact Hnil|exact Hc].
Defined.

Lemma fill_percentage_floor {T} (N : Z) (rb : RingBuffer.t T) :
  ring_inv N rb -> RingBuffer.size_ rb * 100 < U64_MOD ->
  RingBuffer.fill_percentage rb = RingBuffer.size_ rb * 100 / N /\
  0 <= RingBuffer.size_ rb * 100 / N <= 100.
Proof.
  intros Hinv Hfit.
  pose proof (inv_capacity _ _ Hinv) as Hcap.
  pose proof (inv_bound _ _ Hinv) as HN.
  pose proof (inv_size _ _ Hinv) as Hsize.
  assert (0 <= RingBuffer.size_ rb * 100 / N <= 100) as Hq.
  { split; [apply Z.div_pos; lia|]. apply Z.div_le_upper_bound; lia. }
  split; [|exact Hq].
  unfold RingBuffer.fill_percentage. rewrite Hcap.
  rewrite (u64_small (RingBuffer.size_ rb * 100)) by (unfold_consts; lia).
  apply Z.mod_small. lia.
Qed.

(** X5.  [fill_percentage] while [size * 100] fits [size_t]: the floor of the
    fill ratio in percent, between 0 and 100, and 100 exactly when the
    ring is full.  A reading of 0 does not mean empty: it is 0 as long as
    less than one hundredth of the capacity is queued. *)
Theorem ring_fill_percentage {T} (N : Z) (rb : RingBuffer.t T) :
  ring_inv N rb -> RingBuffer.size rb * 100 < U64_MOD ->
  RingBuffer.fill_percentage rb = RingBuffer.size rb * 100 / N /\
  0 <= RingBuffer.fill_percentage rb <= 100 /\
  (RingBuffer.fill_percentage rb = 100 <-> RingBuffer.full rb = true) /\
  (RingBuffer.fill_percentage rb = 0 <-> RingBuffer.size rb * 100 < N).
Proof.
  intros Hinv Hfit.
  pose proof (inv_capacity _ _ Hinv) as Hcap.
  pose proof (inv_bound _ _ Hinv) as HN.
  pose proof (inv_size _ _ Hinv) as Hsize.
  unfold RingBuffer.size in *.
  pose proof (Z.mul_div_le (RingBuffer.size_ rb * 100) N ltac:(lia)) as Hlo.
  pose proof (Z.mul_succ_div_gt (RingBuffer.size_ rb * 100) N ltac:(lia)) as Hhi.
  destruct (fill_percentage_floor N rb Hinv Hfit) as (Heq & Hq).
  rewrite Heq. split; [reflexivity|]. split; [exact Hq|]. split.
  - unfold RingBuffer.full. rewrite Hcap, Z.eqb_eq. split; intros H.
    + nia.
    + rewrite H. replace (N * 100) with (100 * N) by lia. apply Z.div_mul. lia.
  - split; intros H.
    + nia.
    + apply Z.div_small. lia.
Qed.

Lemma ring_fill_percentage_witness :
  match RingBuffer.new 0 3 with
  | inr rb0 =>
      let rb := fst (RingBuffer.write rb0 [7; 8] 2) in
      ring_inv 3 rb /\ RingBuffer.size rb * 100 < U64_MOD /\
      RingBuffer.fill_percentage rb = 66
  | inl _ => False
  end.
Proof.
  vm_compute (RingBuffer.new 0 3). cbv beta iota zeta.
  set (rb := fst (RingBuffer.write _ _ _)).
  assert (ring_inv 3 rb) as Hinv by (constructor; solve_concrete).
  assert (RingBuffer.size rb * 100 < U64_MOD) as Hfit by solve_concrete.
  split; [exact Hinv|]. split; [exact Hfit|].
  exact (proj1 (ring_fill_percentage 3 rb Hinv Hfit)).
Defined.

(** ** AudioBuffer: construction *)

(** X6.  The constructor builds the ring in its member initialisers, before
    its body looks at the arguments.  A zero argument (or a sample rate
    below 1000 Hz, which gives zero samples per millisecond) makes the
    ring size zero, so the ring constructor throws first: every failure
    carries the ring's message, and the body's own "Parametri audio non
    validi" is never thrown.  Otherwise the buffer is built empty, with
    the capacity [samples_per_ms * buffer_ms * channels] taken modulo
    [2^32]. *)
Theorem audio_new_outcome (sample_rate channels buffer_ms : Z) :
  is_u32 sample_rate -> 0 <= channels < 256 -> is_u32 buffer_ms ->
  let buffer_size := u32 (u32 (sample_rate / 1000 * buffer_ms) * channels) in
  (sample_rate < 1000 \/ channels = 0 \/ buffer_ms = 0 -> buffer_size = 0) /\
  (buffer_size = 0 ->
     AudioBuffer.new sample_rate channels buffer_ms
     = inl (invalid_argument "La capacità del buffer deve essere maggiore di zero")) /\
  (buffer_size <> 0 ->
     exists ab,
       AudioBuffer.new sample_rate channels buffer_ms = inr ab /\
       RingBuffer.capacity (AudioBuffer.buffer_ ab) = buffer_size /\
       ring_contents (AudioBuffer.buffer_ ab) = [] /\
       AudioBuffer.timestamp_ ab = 0) /\
  AudioBuffer.new sample_rate channels buffer_ms
  <> inl (invalid_argument "Parametri audio non validi").
Proof.
  intros Hsr Hch Hms buffer_size.
  assert (sample_rate < 1000 \/ channels = 0 \/ buffer_ms = 0 -> buffer_size = 0) as Hzero.
  { intros [Hlow|[Hz|Hz]]; subst buffer_size.
    - rewrite (Z.div_small sample_rate 1000) by (unfold_consts; lia). reflexivity.
    - rewrite Hz, Z.mul_0_r. reflexivity.
    - rewrite Hz, Z.mul_0_r. reflexivity. }
  assert (buffer_size = 0 ->
          AudioBuffer.new sample_rate channels buffer_ms
          = inl (invalid_argument "La capacità del buffer deve essere maggiore di zero"))
    as Hfail.
  { intros Hz. unfold AudioBuffer.new. fold buffer_size. rewrite Hz. reflexivity. }
  assert (buffer_size <> 0 ->
          exists ab,
            AudioBuffer.new sample_rate channels buffer_ms = inr ab /\
            RingBuffer.capacity (AudioBuffer.buffer_ ab) = buffer_size /\
            ring_contents (AudioBuffer.buffer_ ab) = [] /\
            AudioBuffer.timestamp_ ab = 0) as Hok.
  { intros Hnz.
    pose proof (u32_range (u32 (sample_rate / 1000 * buffer_ms) * channels)) as Hrange.
    fold buffer_size in Hrange.
    destruct (RingBuffer.new 0 buffer_size) as [e|rb] eqn:Hring.
    { unfold RingBuffer.new in Hring.
      destruct (Z.ltb_spec VECTOR_MAX_SIZE buffer_size); [unfold_consts; lia|].
      destruct (Z.eqb_spec buffer_size 0); [lia|discriminate]. }
    assert (sample_rate <> 0 /\ channels <> 0 /\ buffer_ms <> 0) as (H1 & H2 & H3).
    { destruct (Z.eq_dec channels 0) as [Hz|?]; [exfalso; apply Hnz, Hzero; auto|].
      destruct (Z.eq_dec buffer_ms 0) as [Hz|?]; [exfalso; apply Hnz, Hzero; auto|].
      destruct (Z_lt_dec sample_rate 1000) as [Hz|?]; [exfalso; apply Hnz, Hzero; auto|].
      repeat split; lia. }
    exists {| AudioBuffer.sample_rate_ := sample_rate;
              AudioBuffer.channels_ := channels;
              AudioBuffer.buffer_ms_ := buffer_ms;
              AudioBuffer.samples_per_ms_ := sample_rate / 1000;
              AudioBuffer.buffer_size_ := buffer_size;
              AudioBuffer.buffer_ := rb;
              AudioBuffer.timestamp_ := 0 |}.
    split.
    - unfold AudioBuffer.new. fold buffer_size. rewrite Hring.
      destruct (Z.eqb_spec sample_rate 0); [lia|].
      destruct (Z.eqb_spec channels 0); [lia|].
      destruct (Z.eqb_spec buffer_ms 0); [lia|]. reflexivity.
    - cbn [AudioBuffer.buffer_ AudioBuffer.timestamp_].
      pose proof (ring_new_inv 0 buffer_size rb (proj1 Hrange) Hring) as Hinv.
      split; [exact (inv_capacity _ _ Hinv)|].
      split; [exact (ring_new_contents 0 buffer_size rb (proj1 Hrange) Hring)|reflexivity]. }
  split; [exact Hzero|]. split; [exact Hfail|]. split; [exact Hok|].
  destruct (Z.eq_dec buffer_size 0) as [Hz|Hnz].
  - rewrite (Hfail Hz). discriminate.
  - destruct (Hok Hnz) as (ab & -> & _). discriminate.
Qed.

Lemma audio_new_outcome_witness :
  is_u32 500 /\ 0 <= 2 < 256 /\ is_u32 20 /\
  AudioBuffer.new 500 2 20
  = inl (invalid_argument "La capacità del buffer deve essere maggiore di zero") /\
  is_u32 48000 /\
  exists ab,
    AudioBuffer.new 48000 2 20 = inr ab /\
    RingBuffer.capacity (AudioBuffer.buffer_ ab) = 1920 /\
    ring_contents (AudioBuffer.buffer_ ab) = [] /\
    AudioBuffer.timestamp_ ab = 0.
Proof.
  assert (is_u32 500) as H500 by solve_concrete.
  assert (is_u32 48000) as H48 by solve_concrete.
  assert (0 <= 2 < 256) as Hch by lia.
  assert (is_u32 20) as Hms by solve_concrete.
  split; [exact H500|]. split; [exact Hch|]. split; [exact Hms|].
  split; [exact (proj1 (proj2 (audio_new_outcome 500 2 20 H500 Hch Hms)) eq_refl)|].
  split; [exact H48|].
  exact (proj1 (proj2 (proj2 (audio_new_outcome 48000 2 20 H48 Hch Hms)))
           ltac:(vm_compute; discriminate)).
Defined.

(** ** AudioBuffer: writing, resizing, clearing *)

(** X7.  [write_samples] appends and never overwrites: of the [count] frames
    offered, the samples that fit the free room are queued behind what is
    already there, and the frames reported are those samples divided by
    the channel count.  When everything fits, all [count] frames are
    taken.  The head timestamp is adopted from the caller only when the
    buffer was empty; a write to a non-empty buffer leaves it alone. *)
Theorem write_samples_back_pressure (ab : AudioBuffer.t)
    (samples : list AudioBuffer.float) (count timestamp : Z) :
  audio_inv ab -> is_u64 count -> is_u64 timestamp ->
  cpp_size samples = count * AudioBuffer.channels_ ab ->
  count * AudioBuffer.channels_ ab < U64_MOD ->
  let ch := AudioBuffer.channels_ ab in
  let free := RingBuffer.available (AudioBuffer.buffer_ ab) in
  let k := Z.min (count * ch) free in
  let ab' := fst (AudioBuffer.write_samples ab samples count timestamp) in
  let written := snd (AudioBuffer.write_samples ab samples count timestamp) in
  written = k / ch /\
  0 <= written <= count /\
  ring_contents (AudioBuffer.buffer_ ab')
  = ring_contents (AudioBuffer.buffer_ ab) ++ take (Z.to_nat k) samples /\
  (count * ch <= free ->
     written = count /\
     ring_contents (AudioBuffer.buffer_ ab')
     = ring_contents (AudioBuffer.buffer_ ab) ++ samples) /\
  (RingBuffer.empty (AudioBuffer.buffer_ ab) = true ->
     AudioBuffer.timestamp_ ab' = timestamp) /\
  (RingBuffer.empty (AudioBuffer.buffer_ ab) = false ->
     AudioBuffer.timestamp_ ab' = AudioBuffer.timestamp_ ab) /\
  audio_inv ab'.
Proof.
  intros Hinv Hcount Hts Hlen Hfit ch free k ab' written.
  pose proof (ainv_channels _ Hinv) as Hch. fold ch in Hch, Hlen, Hfit.
  pose proof (ainv_ring _ Hinv) as Hring.
  pose proof (inv_size _ _ Hring) as Hsize.
  pose proof (inv_bound _ _ Hring) as HN.
  assert (free = RingBuffer.capacity_ (AudioBuffer.buffer_ ab)
                 - RingBuffer.size_ (AudioBuffer.buffer_ ab)) as Hfree.
  { subst free. unfold RingBuffer.available. apply u64_small. unfold_consts. lia. }
  destruct (AudioBuffer.write_samples ab samples count timestamp) as [ab1 w] eqn:Hwrite.
  destruct (write_samples_spec ab samples count timestamp ab1 w Hinv Hcount Hts
              ltac:(fold ch; lia) Hfit Hwrite)
    as (Hinv1 & Hw & Hcont & Hstamp & _).
  fold ch in Hw, Hcont. rewrite <- Hfree in Hw, Hcont. fold k in Hw, Hcont.
  subst ab' written. cbn [fst snd].
  assert (0 <= k <= count * ch) as Hk by (subst k; unfold is_u64 in Hcount; nia).
  split; [exact Hw|]. split.
  { rewrite Hw. split; [apply Z.div_pos; lia|].
    apply Z.div_le_upper_bound; lia. }
  split; [exact Hcont|]. split; [|split; [|split]].
  - intros Hroom.
    assert (k = count * ch) as Hkeq by (subst k; lia).
    rewrite Hw, Hcont, Hkeq. split; [apply Z.div_mul; lia|].
    rewrite take_ge by (unfold cpp_size in Hlen; lia). reflexivity.
  - intros Hempty. rewrite Hstamp, Hempty. reflexivity.
  - intros Hne. rewrite Hstamp, Hne. reflexivity.
  - exact Hinv1.
Qed.

Lemma write_samples_back_pressure_witness :
  match AudioBuffer.new 4000 2 3 with
  | inr ab0 =>
      let ab := fst (AudioBuffer.write_samples ab0 (seqZ 1 16) 8 1000) in
      audio_inv ab /\ is_u64 6 /\ is_u64 2000 /\
      cpp_size (seqZ 101 12) = 6 * AudioBuffer.channels_ ab /\
      6 * AudioBuffer.channels_ ab < U64_MOD /\
      snd (AudioBuffer.write_samples ab (seqZ 101 12) 6 2000) = 4 /\
      ring_contents (AudioBuffer.buffer_
                       (fst (AudioBuffer.write_samples ab (seqZ 101 12) 6 2000)))
      = seqZ 1 16 ++ seqZ 101 8 /\
      AudioBuffer.timestamp_ (fst (AudioBuffer.write_samples ab (seqZ 101 12) 6 2000))
      = 1000
  | inl _ => False
  end.
Proof.
  vm_compute (AudioBuffer.new 4000 2 3). cbv beta iota zeta.
  set (ab := fst (AudioBuffer.write_samples _ _ _ _)).
  assert (audio_inv ab) as Hinv by prove_audio_inv.
  assert (is_u64 6) as Hcount by solve_concrete.
  assert (is_u64 2000) as Hts by solve_concrete.
  assert (cpp_size (seqZ 101 12) = 6 * AudioBuffer.channels_ ab) as Hlen by solve_concrete.
  assert (6 * AudioBuffer.channels_ ab < U64_MOD) as Hfit by solve_concrete.
  assert (RingBuffer.empty (AudioBuffer.buffer_ ab) = false) as Hne by solve_concrete.
  destruct (write_samples_back_pressure ab (seqZ 101 12) 6 2000 Hinv Hcount Hts Hlen Hfit)
    as (Hw & _ & Hcont & _ & _ & Hstamp & _).
  split; [exact Hinv|]. split; [exact Hcount|]. split; [exact Hts|].
  split; [exact Hlen|]. split; [exact Hfit|].
  split; [exact Hw|]. split; [exact Hcont|]. exact (Hstamp Hne).
Defined.

Lemma write_then_read_round_trip_witness :
  match AudioBuffer.new 4000 2 3 with
  | inr ab =>
      audio_inv ab /\
      RingBuffer.empty (AudioBuffer.buffer_ ab) = true /\
      is_u64 1000 /\ 0 < 5 /\
      cpp_size (seqZ 1 10) = 5 * AudioBuffer.channels_ ab /\
      5 * AudioBuffer.channels_ ab <= RingBuffer.capacity_ (AudioBuffer.buffer_ ab) /\
      snd (fst (AudioBuffer.read_samples
                  (fst (AudioBuffer.write_samples ab (seqZ 1 10) 5 1000)) 5 1000))
      = seqZ 1 10
  | inl _ => False
  end.
Proof.
  vm_compute (AudioBuffer.new 4000 2 3). cbv beta iota zeta.
  set (ab := AudioBuffer.mk _ _ _ _ _ _ _).
  assert (audio_inv ab) as Hinv by prove_audio_inv.
  assert (RingBuffer.empty (AudioBuffer.buffer_ ab) = true) as Hempty by solve_concrete.
  assert (is_u64 1000) as Hts by solve_concrete.
  assert (cpp_size (seqZ 1 10) = 5 * AudioBuffer.channels_ ab) as Hlen by solve_concrete.
  assert (5 * AudioBuffer.channels_ ab <= RingBuffer.capacity_ (AudioBuffer.buffer_ ab))
    as Hroom by solve_concrete.
  destruct (AudioBuffer.write_samples ab (seqZ 1 10) 5 1000) as [ab1 w] eqn:Hwrite.
  destruct (AudioBuffer.read_samples ab1 5 1000) as [[ab2 out] r] eqn:Hread.
  destruct (write_then_read_round_trip ab (seqZ 1 10) 5 1000 ab1 w ab2 out r
              Hinv Hempty Hts ltac:(lia) Hlen Hroom Hwrite Hread) as (_ & Hout & _).
  split; [exact Hinv|]. split; [exact Hempty|]. split; [exact Hts|].
  split; [lia|]. split; [exact Hlen|]. split; [exact Hroom|].
  cbn [fst]. rewrite Hread. exact Hout.
Defined.

Lemma ring_read_capacity {T} (rb : RingBuffer.t T) count :
  RingBuffer.capacity_ (fst (fst (RingBuffer.read rb count))) = RingBuffer.capacity_ rb.
Proof.
  unfold RingBuffer.read. destruct ((count =? 0) || (RingBuffer.size_ rb =? 0)); reflexivity.
Qed.

Lemma ring_write_capacity {T} (rb : RingBuffer.t T) data count :
  RingBuffer.capacity_ (fst (RingBuffer.write rb data count)) = RingBuffer.capacity_ rb.
Proof.
  unfold RingBuffer.write. destruct (count =? 0); [reflexivity|].
  destruct (Z.min count (u64 (RingBuffer.capacity_ rb - RingBuffer.size_ rb)) =? 0);
    reflexivity.
Qed.

Lemma read_samples_capacity ab count current_time :
  RingBuffer.capacity_
    (AudioBuffer.buffer_ (fst (fst (AudioBuffer.read_samples ab count current_time))))
  = RingBuffer.capacity_ (AudioBuffer.buffer_ ab).
Proof.
  unfold AudioBuffer.read_samples.
  destruct (RingBuffer.empty (AudioBuffer.buffer_ ab)); [reflexivity|].
  destruct (AudioBuffer.time_diff current_time (AudioBuffer.timestamp_ ab) <? 0);
    [reflexivity|].
  set (skip := Z.min _ _).
  destruct (0 <? skip).
  - pose proof (ring_read_capacity (AudioBuffer.buffer_ ab)
                  (u64 (skip * AudioBuffer.channels_ ab))) as H1.
    destruct (RingBuffer.read (AudioBuffer.buffer_ ab) _) as [[rb1 o1] k1].
    cbn [fst] in H1.
    pose proof (ring_read_capacity rb1 (u64 (count * AudioBuffer.channels_ ab))) as H2.
    cbn [AudioBuffer.set_timestamp AudioBuffer.set_buffer AudioBuffer.buffer_
         AudioBuffer.channels_].
    destruct (RingBuffer.read rb1 _) as [[rb2 o2] k2]. cbn [fst] in *.
    change (RingBuffer.capacity_ rb2 = RingBuffer.capacity_ (AudioBuffer.buffer_ ab)).
    congruence.
  - pose proof (ring_read_capacity (AudioBuffer.buffer_ ab)
                  (u64 (count * AudioBuffer.channels_ ab))) as H2.
    destruct (RingBuffer.read (AudioBuffer.buffer_ ab) _) as [[rb2 o2] k2].
    cbn [fst] in *. cbn [AudioBuffer.set_timestamp AudioBuffer.set_buffer
                         AudioBuffer.buffer_]. exact H2.
Qed.

Lemma ring_new_ok {T} (dflt : T) N :
  0 < N <= VECTOR_MAX_SIZE ->
  exists rb, RingBuffer.new dflt N = inr rb /\ ring_inv N rb /\ ring_contents rb = [].
Proof.
  intros HN.
  destruct (RingBuffer.new dflt N) as [e|rb] eqn:Hnew.
  - unfold RingBuffer.new in Hnew.
    destruct (Z.ltb_spec VECTOR_MAX_SIZE N); [lia|].
    destruct (Z.eqb_spec N 0); [lia|discriminate].
  - exists rb. split; [reflexivity|].
    split; [apply (ring_new_inv dflt N rb ltac:(lia) Hnew)
           |apply (ring_new_contents dflt N rb ltac:(lia) Hnew)].
Qed.

(** X9.  Resizing.  A request of 0 ms is refused and changes nothing.  A
    request whose sample count is 0 modulo [2^32] fails in the ring
    constructor, after the two size fields were assigned: the ring is
    untouched but [buffer_ms_] and [buffer_size_] already hold the new
    values.  Any other request succeeds: the queued samples move to the
    new ring oldest first, all of them when they fit, otherwise only the
    oldest that fit (the newest are dropped), and the head timestamp is
    kept. *)
Theorem set_buffer_size_ms_spec (ab : AudioBuffer.t) (buffer_ms : Z) :
  audio_inv ab ->
  let N' :=
    u32 (u32 (AudioBuffer.samples_per_ms_ ab * buffer_ms) * AudioBuffer.channels_ ab) in
  let ab' := fst (AudioBuffer.set_buffer_size_ms ab buffer_ms) in
  let thrown := snd (AudioBuffer.set_buffer_size_ms ab buffer_ms) in
  (buffer_ms = 0 ->
     ab' = ab /\ thrown = Some (invalid_argument "Dimensione buffer non valida")) /\
  (buffer_ms <> 0 -> N' = 0 ->
     thrown
     = Some (invalid_argument "La capacità del buffer deve essere maggiore di zero") /\
     AudioBuffer.buffer_ ab' = AudioBuffer.buffer_ ab /\
     AudioBuffer.buffer_ms_ ab' = buffer_ms /\
     AudioBuffer.buffer_size_ ab' = 0) /\
  (buffer_ms <> 0 -> N' <> 0 ->
     thrown = None /\
     audio_inv ab' /\
     RingBuffer.capacity (AudioBuffer.buffer_ ab') = N' /\
     ring_contents (AudioBuffer.buffer_ ab')
     = take (Z.to_nat N') (ring_contents (AudioBuffer.buffer_ ab)) /\
     AudioBuffer.timestamp_ ab' = AudioBuffer.timestamp_ ab).
Proof.
  intros Hinv N' ab' thrown. subst ab' thrown.
  unfold AudioBuffer.set_buffer_size_ms. fold N'.
  split; [|split].
  - intros ->. split; reflexivity.
  - intros Hms HN. destruct (Z.eqb_spec buffer_ms 0); [lia|].
    rewrite HN. cbn. repeat split; reflexivity.
  - intros Hms HN. destruct (Z.eqb_spec buffer_ms 0); [lia|].
    pose proof (u32_range (u32 (AudioBuffer.samples_per_ms_ ab * buffer_ms)
                           * AudioBuffer.channels_ ab)) as Hrange.
    fold N' in Hrange.
    destruct (ring_new_ok (T := Z) 0 N' ltac:(unfold_consts; lia))
      as (new_buffer & Hnew & Hfresh & Hnil).
    pose proof (Hnil : @ring_contents AudioBuffer.float new_buffer = []) as Hnil'.
    rewrite Hnew.
    set (ab1 := AudioBuffer.mk _ _ _ _ _ _ _).
    assert (audio_inv ab1) as Hinv1
      by (destruct Hinv as [Hch Hspm Hring Hold]; constructor; assumption).
    pose proof (ainv_ring _ Hinv) as Hring.
    pose proof (inv_size _ _ Hring) as Hsize.
    pose proof (ring_contents_length _ _ Hring) as Hlen.
    change (AudioBuffer.buffer_ ab1) with (AudioBuffer.buffer_ ab).
    destruct (RingBuffer.empty (AudioBuffer.buffer_ ab)) eqn:Hempty; cbn [negb].
    + cbn [fst snd AudioBuffer.set_buffer AudioBuffer.buffer_ AudioBuffer.timestamp_].
      split; [reflexivity|].
      split; [apply (audio_inv_set_buffer _ _ _ Hinv1 Hfresh)|].
      split; [exact (inv_capacity _ _ Hfresh)|].
      split; [|reflexivity].
      rewrite Hnil', (ring_empty_contents _ _ Hring) by (apply Z.eqb_eq; exact Hempty).
      rewrite take_nil. reflexivity.
    + destruct (RingBuffer.read (AudioBuffer.buffer_ ab)
                  (RingBuffer.size (AudioBuffer.buffer_ ab))) as [[rb temp] read] eqn:Hread.
      destruct (ring_read_eqn _ _ rb _ temp read Hring (proj1 Hsize) Hread)
        as (_ & Hk & _ & Htemp & _).
      unfold RingBuffer.size in Hk. rewrite Z.min_id in Hk.
      rewrite Hk, take_ge in Htemp by lia.
      destruct (RingBuffer.write new_buffer temp read) as [rb' k] eqn:Hwrite.
      assert (0 <= read <= cpp_size temp) as Hfits.
      { unfold cpp_size. rewrite Htemp. unfold AudioBuffer.float in *.
        rewrite Hlen. lia. }
      destruct (ring_write_eqn N' new_buffer rb' temp read k Hfresh Hfits Hwrite)
        as (Hinv' & Hk' & _ & Hcont).
      unfold AudioBuffer.float in *.
      cbn [fst snd AudioBuffer.set_buffer AudioBuffer.buffer_ AudioBuffer.timestamp_].
      split; [reflexivity|].
      split; [apply (audio_inv_set_buffer _ _ _ Hinv1 Hinv')|].
      split; [exact (inv_capacity _ _ Hinv')|].
      split; [|reflexivity].
      rewrite Hcont, Hnil', Hk', Htemp. cbn [app].
      change (RingBuffer.size_ new_buffer) with (RingBuffer.size new_buffer).
      assert (RingBuffer.size_ new_buffer = 0) as Hs0.
      { pose proof (ring_contents_length _ _ Hfresh) as Hl. rewrite Hnil in Hl.
        pose proof (inv_size _ _ Hfresh). simpl in Hl. lia. }
      unfold RingBuffer.size. rewrite Hs0, Z.sub_0_r, Hk.
      destruct (Z.le_ge_cases (RingBuffer.size_ (AudioBuffer.buffer_ ab)) N') as [Hle|Hge].
      * rewrite Z.min_l by exact Hle.
        transitivity (ring_contents (AudioBuffer.buffer_ ab)); [|symmetry];
          apply take_ge; unfold AudioBuffer.float in *; lia.
      * rewrite Z.min_r by exact Hge. reflexivity.
Qed.

Lemma set_buffer_size_ms_spec_witness :
  match AudioBuffer.new 4000 2 3 with
  | inr ab0 =>
      let ab := fst (AudioBuffer.write_samples ab0 (seqZ 1 16) 8 1000) in
      audio_inv ab /\
      snd (AudioBuffer.set_buffer_size_ms ab 1) = None /\
      ring_contents (AudioBuffer.buffer_ (fst (AudioBuffer.set_buffer_size_ms ab 1)))
      = seqZ 1 8 /\
      ring_contents (AudioBuffer.buffer_ (fst (AudioBuffer.set_buffer_size_ms ab 5)))
      = seqZ 1 16
  | inl _ => False
  end.
Proof.
  vm_compute (AudioBuffer.new 4000 2 3). cbv beta iota zeta.
  set (ab := fst (AudioBuffer.write_samples _ _ _ _)).
  assert (audio_inv ab) as Hinv by prove_audio_inv.
  destruct (proj2 (proj2 (set_buffer_size_ms_spec ab 1 Hinv))
              ltac:(lia) ltac:(vm_compute; discriminate)) as (Hnone & _ & _ & Hc1 & _).
  destruct (proj2 (proj2 (set_buffer_size_ms_spec ab 5 Hinv))
              ltac:(lia) ltac:(vm_compute; discriminate)) as (_ & _ & _ & Hc5 & _).
  split; [exact Hinv|]. split; [exact Hnone|]. split; [exact Hc1|exact Hc5].
Defined.

Lemma write_samples_capacity ab samples count timestamp :
  RingBuffer.capacity_
    (AudioBuffer.buffer_ (fst (AudioBuffer.write_samples ab samples count timestamp)))
  = RingBuffer.capacity_ (AudioBuffer.buffer_ ab).
Proof.
  unfold AudioBuffer.write_samples.
  set (ab1 := if RingBuffer.empty (AudioBuffer.buffer_ ab)
              then AudioBuffer.set_timestamp ab timestamp else ab).
  assert (AudioBuffer.buffer_ ab1 = AudioBuffer.buffer_ ab) as Hbuf
    by (subst ab1; destruct (RingBuffer.empty (AudioBuffer.buffer_ ab)); reflexivity).
  pose proof (ring_write_capacity (AudioBuffer.buffer_ ab1) samples
                (u64 (count * AudioBuffer.channels_ ab1))) as Hcap.
  destruct (RingBuffer.write _ _ _) as [rb w]. cbn [fst] in *.
  cbn [AudioBuffer.set_buffer AudioBuffer.buffer_]. rewrite Hcap, Hbuf. reflexivity.
Qed.

Lemma audio_reachable_capacity ab :
  audio_reachable ab -> RingBuffer.capacity_ (AudioBuffer.buffer_ ab) < U32_MOD.
Proof.
  induction 1 as [sr ch ms ab Hsr Hch Hms Hnew
                 | ab samples count ts _ IH Hts
                 | ab count now _ IH
                 | ab _ IH
                 | ab ms _ IH Hms].
  - unfold AudioBuffer.new in Hnew.
    set (N := u32 (u32 (sr / 1000 * ms) * ch)) in Hnew.
    pose proof (u32_range (u32 (sr / 1000 * ms) * ch)) as Hrange. fold N in Hrange.
    destruct (RingBuffer.new 0 N) as [e|rb] eqn:Hring; [discriminate|].
    destruct ((sr =? 0) || (ch =? 0) || (ms =? 0)); [discriminate|].
    injection Hnew as <-. cbn [AudioBuffer.buffer_].
    pose proof (inv_capacity _ _ (ring_new_inv 0 N rb (proj1 Hrange) Hring)) as Hcap.
    unfold AudioBuffer.float in *. rewrite Hcap. apply Hrange.
  - rewrite write_samples_capacity. exact IH.
  - rewrite read_samples_capacity. exact IH.
  - exact IH.
  - unfold AudioBuffer.set_buffer_size_ms.
    destruct (ms =? 0); [exact IH|].
    set (N := u32 (u32 (AudioBuffer.samples_per_ms_ ab * ms) * AudioBuffer.channels_ ab)).
    pose proof (u32_range (u32 (AudioBuffer.samples_per_ms_ ab * ms)
                           * AudioBuffer.channels_ ab)) as Hrange.
    fold N in Hrange.
    destruct (RingBuffer.new 0 N) as [e|new_buffer] eqn:Hnew; [exact IH|].
    pose proof (inv_capacity _ _ (ring_new_inv 0 N new_buffer (proj1 Hrange) Hnew)) as Hcap.
    cbn [AudioBuffer.buffer_].
    destruct (negb (RingBuffer.empty (AudioBuffer.buffer_ ab))).
    + destruct (RingBuffer.read _ _) as [[rb temp] read].
      cbn [fst AudioBuffer.set_buffer AudioBuffer.buffer_].
      unfold AudioBuffer.float in *.
      rewrite ring_write_capacity, Hcap. apply Hrange.
    + cbn [fst AudioBuffer.set_buffer AudioBuffer.buffer_].
      unfold AudioBuffer.float in *. rewrite Hcap. apply Hrange.
Qed.

(** X10.  The gauges of a buffer a program can hold (built by the constructor,
    then written, read, cleared and resized in any order): the queue never
    exceeds the capacity, which stays below [2^32] samples; the fill level
    is the floor of the fill ratio in percent and lies between 0 and 100;
    the latency is the number of whole frames queued, divided by the
    frames per millisecond. *)
Theorem audio_reachable_levels (ab : AudioBuffer.t) :
  audio_reachable ab ->
  let rb := AudioBuffer.buffer_ ab in
  0 <= RingBuffer.size rb <= RingBuffer.capacity rb /\
  0 < RingBuffer.capacity rb < U32_MOD /\
  cpp_size (ring_contents rb) = RingBuffer.size rb /\
  AudioBuffer.get_fill_level ab = RingBuffer.size rb * 100 / RingBuffer.capacity rb /\
  0 <= AudioBuffer.get_fill_level ab <= 100 /\
  AudioBuffer.get_latency_ms ab
  = RingBuffer.size rb / AudioBuffer.channels_ ab / AudioBuffer.samples_per_ms_ ab.
Proof.
  intros Hreach rb.
  pose proof (audio_reachable_inv ab Hreach) as Hinv.
  pose proof (audio_reachable_capacity ab Hreach) as Hcap.
  pose proof (ainv_ring _ Hinv) as Hring. fold rb in Hring, Hcap.
  pose proof (inv_size _ _ Hring) as Hsize.
  pose proof (inv_bound _ _ Hring) as HN.
  pose proof (ainv_channels _ Hinv) as Hch.
  pose proof (ainv_samples_per_ms _ Hinv) as Hspm.
  destruct (fill_percentage_floor _ rb Hring ltac:(unfold_consts; lia)) as (Hfill & Hq).
  unfold RingBuffer.size, RingBuffer.capacity, AudioBuffer.get_fill_level. fold rb.
  split; [exact Hsize|]. split; [lia|]. split; [|split; [exact Hfill|split]].
  - unfold cpp_size. rewrite (ring_contents_length _ rb Hring). lia.
  - rewrite Hfill. exact Hq.
  - unfold AudioBuffer.get_latency_ms, RingBuffer.size. fold rb.
    apply u32_small.
    assert (0 <= RingBuffer.size_ rb / AudioBuffer.channels_ ab <= RingBuffer.size_ rb).
    { split; [apply Z.div_pos; lia|]. apply Z.div_le_upper_bound; nia. }
    split; [apply Z.div_pos; lia|].
    apply Z.div_lt_upper_bound; [lia|]. unfold_consts. nia.
Qed.

Lemma audio_reachable_levels_witness :
  match AudioBuffer.new 4000 2 3 with
  | inr ab0 =>
      let ab := fst (AudioBuffer.write_samples ab0 (seqZ 1 16) 8 1000) in
      audio_reachable ab /\
      AudioBuffer.get_fill_level ab = 66 /\
      AudioBuffer.get_latency_ms ab = 2
  | inl _ => False
  end.
Proof.
  vm_compute (AudioBuffer.new 4000 2 3). cbv beta iota zeta.
  set (ab0 := AudioBuffer.mk _ _ _ _ _ _ _).
  assert (audio_reachable ab0) as Hreach0.
  { apply (ar_new 4000 2 3); [solve_concrete|lia|solve_concrete|vm_compute; reflexivity]. }
  assert (audio_reachable (fst (AudioBuffer.write_samples ab0 (seqZ 1 16) 8 1000)))
    as Hreach by (apply ar_write; [exact Hreach0|solve_concrete]).
  destruct (audio_reachable_levels _ Hreach) as (_ & _ & _ & Hfill & _ & Hlat).
  split; [exact Hreach|]. split; [rewrite Hfill|rewrite Hlat]; vm_compute; reflexivity.
Defined.

(** X11.  [clear] empties the queue but keeps the head timestamp; the latency
    reads 0, and the first write afterwards is stored from the start of
    the queue and stamps the buffer anew. *)
Theorem audio_clear_then_write (ab : AudioBuffer.t)
    (samples : list AudioBuffer.float) (count timestamp : Z) :
  audio_inv ab -> is_u64 count -> is_u64 timestamp ->
  cpp_size samples = count * AudioBuffer.channels_ ab ->
  count * AudioBuffer.channels_ ab <= RingBuffer.capacity (AudioBuffer.buffer_ ab) ->
  let ab1 := AudioBuffer.clear ab in
  let ab2 := fst (AudioBuffer.write_samples ab1 samples count timestamp) in
  audio_inv ab1 /\
  ring_contents (AudioBuffer.buffer_ ab1) = [] /\
  AudioBuffer.timestamp_ ab1 = AudioBuffer.timestamp_ ab /\
  AudioBuffer.get_latency_ms ab1 = 0 /\
  snd (AudioBuffer.write_samples ab1 samples count timestamp) = count /\
  ring_contents (AudioBuffer.buffer_ ab2) = samples /\
  AudioBuffer.timestamp_ ab2 = timestamp.
Proof.
  intros Hinv Hcount Hts Hlen Hroom ab1 ab2.
  pose proof (ainv_channels _ Hinv) as Hch.
  pose proof (ainv_ring _ Hinv) as Hring.
  pose proof (inv_bound _ _ Hring) as HN.
  assert (audio_inv ab1) as Hinv1
    by apply (audio_inv_set_buffer _ _ _ Hinv (ring_clear_inv _ _ Hring)).
  assert (ring_contents (AudioBuffer.buffer_ ab1) = []) as Hnil
    by (apply (ring_empty_contents _ _ (ainv_ring _ Hinv1)); reflexivity).
  unfold RingBuffer.capacity in Hroom.
  destruct (AudioBuffer.write_samples ab1 samples count timestamp) as [ab' w] eqn:Hwrite.
  destruct (write_samples_spec ab1 samples count timestamp ab' w Hinv1 Hcount Hts
              ltac:(change (AudioBuffer.channels_ ab1) with (AudioBuffer.channels_ ab); lia)
              ltac:(change (AudioBuffer.channels_ ab1) with (AudioBuffer.channels_ ab);
                    unfold_consts; lia)
              Hwrite)
    as (_ & Hw & Hcont & Hstamp & _).
  change (AudioBuffer.channels_ ab1) with (AudioBuffer.channels_ ab) in Hw, Hcont.
  change (RingBuffer.capacity_ (AudioBuffer.buffer_ ab1))
    with (RingBuffer.capacity_ (AudioBuffer.buffer_ ab)) in Hw, Hcont.
  change (RingBuffer.size_ (AudioBuffer.buffer_ ab1)) with 0 in Hw, Hcont.
  rewrite Z.sub_0_r, Z.min_l in Hw, Hcont by exact Hroom.
  subst ab2. cbn [fst snd].
  split; [exact Hinv1|]. split; [exact Hnil|]. split; [reflexivity|].
  split; [|split; [|split]].
  - unfold AudioBuffer.get_latency_ms.
    change (RingBuffer.size (AudioBuffer.buffer_ ab1)) with 0.
    change (AudioBuffer.channels_ ab1) with (AudioBuffer.channels_ ab).
    change (AudioBuffer.samples_per_ms_ ab1) with (AudioBuffer.samples_per_ms_ ab).
    pose proof (ainv_samples_per_ms _ Hinv).
    rewrite !Z.div_0_l by lia. reflexivity.
  - rewrite Hw. apply Z.div_mul. lia.
  - rewrite Hcont, Hnil. cbn [app]. apply take_ge. unfold cpp_size in Hlen. lia.
  - rewrite Hstamp. reflexivity.
Qed.

Lemma audio_clear_then_write_witness :
  match AudioBuffer.new 4000 2 3 with
  | inr ab0 =>
      let ab := fst (AudioBuffer.write_samples ab0 (seqZ 1 16) 8 1000) in
      audio_inv ab /\ is_u64 2 /\ is_u64 2000 /\
      cpp_size [5; 6; 7; 8] = 2 * AudioBuffer.channels_ ab /\
      2 * AudioBuffer.channels_ ab <= RingBuffer.capacity (AudioBuffer.buffer_ ab) /\
      AudioBuffer.timestamp_ (AudioBuffer.clear ab) = 1000 /\
      ring_contents
        (AudioBuffer.buffer_
           (fst (AudioBuffer.write_samples (AudioBuffer.clear ab) [5; 6; 7; 8] 2 2000)))
      = [5; 6; 7; 8] /\
      AudioBuffer.timestamp_
        (fst (AudioBuffer.write_samples (AudioBuffer.clear ab) [5; 6; 7; 8] 2 2000))
      = 2000
  | inl _ => False
  end.
Proof.
  vm_compute (AudioBuffer.new 4000 2 3). cbv beta iota zeta.
  set (ab := fst (AudioBuffer.write_samples _ _ _ _)).
  assert (audio_inv ab) as Hinv by prove_audio_inv.
  assert (is_u64 2) as Hcount by solve_concrete.
  assert (is_u64 2000) as Hts by solve_concrete.
  assert (cpp_size [5; 6; 7; 8] = 2 * AudioBuffer.channels_ ab) as Hlen by solve_concrete.
  assert (2 * AudioBuffer.channels_ ab <= RingBuffer.capacity (AudioBuffer.buffer_ ab))
    as Hroom by solve_concrete.
  destruct (audio_clear_then_write ab [5; 6; 7; 8] 2 2000 Hinv Hcount Hts Hlen Hroom)
    as (_ & _ & Hkeep & _ & _ & Hcont & Hstamp).
  split; [exact Hinv|]. split; [exact Hcount|]. split; [exact Hts|].
  split; [exact Hlen|]. split; [exact Hroom|].
  split; [rewrite Hkeep; vm_compute; reflexivity|]. split; [exact Hcont|exact Hstamp].
Defined.

(** ** AudioStream: the device callback *)

Lemma memset_zero_tail dst pos m :
  0 <= pos -> 0 <= m -> (length dst <= Z.to_nat (pos + m))%nat ->
  AudioStream.memset_zero dst pos (m * AudioBuffer.SIZEOF_FLOAT)
  = take (Z.to_nat pos) dst ++ replicate (Z.to_nat m) 0.
Proof.
  intros Hpos Hm Hlen.
  unfold AudioStream.memset_zero, RingBuffer.memcpy_to, AudioBuffer.SIZEOF_FLOAT.
  rewrite Z.div_mul by lia. rewrite length_replicate.
  rewrite drop_ge by lia. rewrite app_nil_r. reflexivity.
Qed.

(** What one [read_samples] call reports and stores, whichever branch it
    takes: no more frames than asked, at least the samples of the frames
    reported, and a full buffer of samples when all frames are reported. *)
Lemma read_samples_extent ab count current_time :
  audio_inv ab -> 0 <= count ->
  count * AudioBuffer.channels_ ab * AudioBuffer.SIZEOF_FLOAT < U64_MOD ->
  let stored := snd (fst (AudioBuffer.read_samples ab count current_time)) in
  let r := snd (AudioBuffer.read_samples ab count current_time) in
  0 <= r <= count /\
  r * AudioBuffer.channels_ ab <= cpp_size stored <= count * AudioBuffer.channels_ ab /\
  audio_inv (fst (fst (AudioBuffer.read_samples ab count current_time))).
Proof.
  intros Hinv Hcount Hfit. cbv zeta.
  pose proof (ainv_channels _ Hinv) as Hch.
  unfold AudioBuffer.SIZEOF_FLOAT in Hfit.
  assert (0 <= count * AudioBuffer.channels_ ab) as Hprod by nia.
  destruct (RingBuffer.empty (AudioBuffer.buffer_ ab)) eqn:Hempty.
  { unfold AudioBuffer.read_samples. rewrite Hempty. cbn [fst snd].
    change (cpp_size (@nil AudioBuffer.float)) with 0.
    split; [lia|]. split; [lia|exact Hinv]. }
  destruct (Z.ltb_spec (AudioBuffer.time_diff current_time (AudioBuffer.timestamp_ ab)) 0)
    as [Hearly|Hdue].
  { unfold AudioBuffer.read_samples. rewrite Hempty.
    destruct (Z.ltb_spec (AudioBuffer.time_diff current_time (AudioBuffer.timestamp_ ab)) 0);
      [|lia].
    cbn [fst snd]. unfold cpp_size, AudioBuffer.SIZEOF_FLOAT.
    rewrite length_replicate.
    rewrite (u64_small (count * AudioBuffer.channels_ ab)) by (unfold_consts; lia).
    rewrite u64_small by (unfold_consts; lia).
    rewrite Z.div_mul by lia. rewrite Z2Nat.id by lia.
    split; [lia|]. split; [lia|exact Hinv]. }
  destruct (AudioBuffer.read_samples ab count current_time) as [[ab' out] r] eqn:Hread.
  destruct (read_samples_due ab count current_time ab' out r Hinv Hempty Hdue Hread)
    as (Hout & Hr & _ & _ & Hinv' & _).
  cbn [fst snd].
  rewrite (u64_small (count * AudioBuffer.channels_ ab)) in Hout, Hr
    by (unfold_consts; lia).
  set (rest := drop _ (ring_contents (AudioBuffer.buffer_ ab))) in *.
  set (n := Z.min (count * AudioBuffer.channels_ ab) (cpp_size rest)) in *.
  assert (0 <= n <= count * AudioBuffer.channels_ ab) as Hn
    by (subst n; unfold cpp_size; lia).
  assert (cpp_size out = n) as Hlen.
  { unfold cpp_size. rewrite Hout, length_take. subst n. unfold cpp_size. lia. }
  pose proof (Z.mul_div_le n (AudioBuffer.channels_ ab) ltac:(lia)) as Hfloor.
  rewrite Hlen, Hr.
  split; [|split; [lia|exact Hinv']].
  split; [apply Z.div_pos; lia|]. apply Z.div_le_upper_bound; lia.
Qed.

(** X12.  The device callback always hands PortAudio a completely written buffer:
    while the stream is not active it is all silence; while it is active it
    holds the frames [read_samples] reported, followed by silence up to the
    end.  Nothing of what the buffer held before survives, and samples
    stored beyond the last whole frame reported are overwritten by
    silence.  The callback always answers [paContinue]. *)
Theorem paCallback_fills_buffer (s : AudioStream.t)
    (outputBuffer : list AudioBuffer.float) (framesPerBuffer current_time : Z) :
  audio_inv (AudioStream.buffer_ s) ->
  AudioStream.channels_ s = AudioBuffer.channels_ (AudioStream.buffer_ s) ->
  0 <= framesPerBuffer ->
  framesPerBuffer * AudioStream.channels_ s * AudioBuffer.SIZEOF_FLOAT < U64_MOD ->
  cpp_size outputBuffer = framesPerBuffer * AudioStream.channels_ s ->
  let result := AudioStream.paCallback s outputBuffer framesPerBuffer current_time in
  let out := snd (fst result) in
  let ch := AudioStream.channels_ s in
  snd result = AudioStream.paContinue /\
  cpp_size out = framesPerBuffer * ch /\
  (AudioStream.is_active s = false ->
     fst (fst result) = s /\
     out = replicate (Z.to_nat (framesPerBuffer * ch)) 0) /\
  (AudioStream.is_active s = true ->
     let reading :=
       AudioBuffer.read_samples (AudioStream.buffer_ s) framesPerBuffer current_time in
     let read := snd reading in
     0 <= read <= framesPerBuffer /\
     AudioStream.buffer_ (fst (fst result)) = fst (fst reading) /\
     out = take (Z.to_nat (read * ch)) (snd (fst reading))
           ++ replicate (Z.to_nat ((framesPerBuffer - read) * ch)) 0).
Proof.
  intros Hinv Hsame Hframes Hfit Hlen result out ch.
  pose proof (ainv_channels _ Hinv) as Hch. rewrite <- Hsame in Hch. fold ch in Hch.
  fold ch in Hfit, Hlen.
  assert (0 <= framesPerBuffer * ch) as Hprod by nia.
  unfold AudioBuffer.SIZEOF_FLOAT in Hfit.
  subst result out. unfold AudioStream.paCallback. fold ch.
  destruct (AudioStream.is_active s) eqn:Hactive; cbn [negb].
  - (* active *)
    pose proof (read_samples_extent (AudioStream.buffer_ s) framesPerBuffer current_time
                  Hinv Hframes ltac:(rewrite <- Hsame; exact Hfit)) as (Hr & Hext & _).
    rewrite <- Hsame in Hext. fold ch in Hext.
    destruct (AudioBuffer.read_samples (AudioStream.buffer_ s) framesPerBuffer current_time)
      as [[buf stored] read] eqn:Hread.
    cbn [fst snd] in *.
    assert (RingBuffer.memcpy_to outputBuffer 0 stored
            = stored ++ drop (length stored) outputBuffer) as Hcopy by reflexivity.
    assert (length (RingBuffer.memcpy_to outputBuffer 0 stored) = length outputBuffer)
      as Hcopylen.
    { apply memcpy_to_length; [lia|]. unfold cpp_size in *. lia. }
    assert ((if read <? framesPerBuffer
             then AudioStream.memset_zero
                    (RingBuffer.memcpy_to outputBuffer 0 stored)
                    (u64 (read * ch))
                    (u64 (u64 (u64 (framesPerBuffer - read) * ch)
                          * AudioBuffer.SIZEOF_FLOAT))
             else RingBuffer.memcpy_to outputBuffer 0 stored)
            = take (Z.to_nat (read * ch)) stored
              ++ replicate (Z.to_nat ((framesPerBuffer - read) * ch)) 0) as Hout.
    { destruct (Z.ltb_spec read framesPerBuffer) as [Hshort|Hfull].
      - rewrite (u64_small (read * ch)) by (unfold_consts; nia).
        rewrite (u64_small (framesPerBuffer - read)) by (unfold_consts; nia).
        rewrite (u64_small ((framesPerBuffer - read) * ch)) by (unfold_consts; nia).
        rewrite u64_small by (unfold AudioBuffer.SIZEOF_FLOAT; unfold_consts; nia).
        rewrite memset_zero_tail
          by (try nia; rewrite Hcopylen; unfold cpp_size in Hlen; nia).
        rewrite Hcopy, take_app_le by (unfold cpp_size in Hext; lia). reflexivity.
      - assert (read = framesPerBuffer) as -> by lia.
        rewrite Z.sub_diag, Z.mul_0_l. change (Z.to_nat 0) with 0%nat. cbn [replicate].
        rewrite Hcopy, app_nil_r.
        rewrite drop_ge by (unfold cpp_size in *; lia).
        rewrite take_ge by (unfold cpp_size in *; lia).
        rewrite app_nil_r. reflexivity. }
    split; [reflexivity|]. split; [|split; [discriminate|]].
    + rewrite Hout. unfold cpp_size in *.
      rewrite length_app, length_take, length_replicate. nia.
    + intros _. split; [exact Hr|]. split; [reflexivity|exact Hout].
  - (* not active *)
    cbn [fst snd].
    rewrite (u64_small (framesPerBuffer * ch)) by (unfold_consts; lia).
    rewrite u64_small by (unfold AudioBuffer.SIZEOF_FLOAT; unfold_consts; lia).
    rewrite memset_zero_tail by (unfold cpp_size in Hlen; lia).
    change (Z.to_nat 0) with 0%nat. rewrite take_0. cbn [app].
    split; [reflexivity|]. split; [|split; [|discriminate]].
    + unfold cpp_size. rewrite length_replicate. lia.
    + intros _. split; reflexivity.
Qed.

Lemma paCallback_fills_buffer_witness :
  let pa := {| Pa_Initialize_ok := true; Pa_GetDefaultOutputDevice_ok := true;
               Pa_OpenStream_ok := true; Pa_StartStream_ok := true |} in
  match AudioStream.new pa 4000 2 3 with
  | inr s0 =>
      let s :=
        fst (AudioStream.startStream pa
               (fst (AudioStream.writeAudio s0 (seqZ 1 6) 3 1000))) in
      let stale := [91; 92; 93; 94; 95; 96; 97; 98] in
      audio_inv (AudioStream.buffer_ s) /\
      AudioStream.channels_ s = AudioBuffer.channels_ (AudioStream.buffer_ s) /\
      0 <= 4 /\
      4 * AudioStream.channels_ s * AudioBuffer.SIZEOF_FLOAT < U64_MOD /\
      cpp_size stale = 4 * AudioStream.channels_ s /\
      AudioStream.is_active s = true /\
      snd (fst (AudioStream.paCallback s stale 4 1000)) = [1; 2; 3; 4; 5; 6; 0; 0]
  | inl _ => False
  end.
Proof.
  cbv zeta. vm_compute (AudioStream.new _ 4000 2 3). cbv beta iota.
  set (s := fst (AudioStream.startStream _ _)).
  set (stale := [91; 92; 93; 94; 95; 96; 97; 98]).
  assert (audio_inv (AudioStream.buffer_ s)) as Hinv by prove_audio_inv.
  assert (AudioStream.channels_ s = AudioBuffer.channels_ (AudioStream.buffer_ s))
    as Hsame by solve_concrete.
  assert (4 * AudioStream.channels_ s * AudioBuffer.SIZEOF_FLOAT < U64_MOD) as Hfit
    by solve_concrete.
  assert (cpp_size stale = 4 * AudioStream.channels_ s) as Hlen by solve_concrete.
  assert (AudioStream.is_active s = true) as Hactive by solve_concrete.
  destruct (paCallback_fills_buffer s stale 4 1000 Hinv Hsame ltac:(lia) Hfit Hlen)
    as (_ & _ & _ & Hact).
  split; [exact Hinv|]. split; [exact Hsame|]. split; [lia|].
  split; [exact Hfit|]. split; [exact Hlen|]. split; [exact Hactive|].
  rewrite (proj2 (proj2 (Hact Hactive))). vm_compute. reflexivity.
Defined.

(** ** SyncManager: the life of a synchronisation *)

Lemma handleTimeBeacon_offset st masterTime system_ms steady :
  SyncManager.timeOffset (fst (SyncManager.handleTimeBeacon st masterTime system_ms steady))
  = i64 (masterTime - system_ms).
Proof.
  cbn [SyncManager.handleTimeBeacon fst SyncManager.timeOffset].
  rewrite i64_u64, i64_sub_l, i64_sub_r. reflexivity.
Qed.

Lemma sync_run_snoc st calls c :
  sync_run st (calls ++ [c]) = sync_step (sync_run st calls) c.
Proof. unfold sync_run. rewrite foldl_app. reflexivity. Qed.

Lemma last_beacon_snoc calls c :
  last_beacon (calls ++ [c])
  = match beacon_of c with Some b => Some b | None => last_beacon calls end.
Proof. unfold last_beacon. rewrite foldl_app. reflexivity. Qed.

Lemma sync_run_state calls :
  let st := sync_run SyncManager.new calls in
  SyncManager.maxJitterMs st = 5 /\
  match last_beacon calls with
  | Some (masterTime, system_ms) =>
      SyncManager.isSynced st = true /\ is_Some (SyncManager.lastBeacon st) /\
      SyncManager.timeOffset st = i64 (masterTime - system_ms)
  | None =>
      SyncManager.isSynced st = false /\ SyncManager.lastBeacon st = None /\
      SyncManager.timeOffset st = 0
  end.
Proof.
  induction calls as [|c calls IH] using rev_ind; [cbn; auto|].
  cbv zeta in *. rewrite sync_run_snoc, last_beacon_snoc.
  destruct IH as (Hjitter & IH).
  destruct c as [M W s|id l|M W s]; cbn [beacon_of sync_step].
  - split; [exact Hjitter|]. split; [reflexivity|]. split; [eexists; reflexivity|].
    apply handleTimeBeacon_offset.
  - split; [exact Hjitter|]. exact IH.
  - split; [exact Hjitter|]. split; [reflexivity|]. split; [eexists; reflexivity|].
    apply (handleTimeBeacon_offset (sync_run SyncManager.new calls) M W s).
Qed.

(** X13.  Synchronisation is acquired at the first beacon and never lost.  After
    any sequence of beacons, emergency syncs and latency updates on a
    fresh manager, [isSynchronized] holds exactly when a beacon or an
    emergency sync was among them, however long ago, and [now] follows the
    most recent of them: it reads that master time plus the wall-clock
    time elapsed since, modulo [2^64].  Before any beacon [now] is the
    wall clock itself. *)
Theorem synchronized_once_for_all (calls : list sync_call) (system_ms : Z) :
  let st := sync_run SyncManager.new calls in
  SyncManager.isSynchronized st = bool_decide (is_Some (last_beacon calls)) /\
  SyncManager.now st system_ms
  = match last_beacon calls with
    | Some (masterTime, beacon_system_ms) =>
        u64 (masterTime + (system_ms - beacon_system_ms))
    | None => u64 system_ms
    end.
Proof.
  cbv zeta. pose proof (sync_run_state calls) as (_ & Hstate). cbv zeta in Hstate.
  rewrite now_eq. unfold SyncManager.isSynchronized.
  destruct (last_beacon calls) as [[M W]|].
  - destruct Hstate as (-> & Hbeacon & ->).
    split.
    + rewrite (bool_decide_eq_true_2 _ Hbeacon). symmetry. apply bool_decide_eq_true_2.
      eexists; reflexivity.
    + rewrite <- u64_add_r, u64_i64, u64_add_r. f_equal. lia.
  - destruct Hstate as (-> & -> & ->). split.
    + rewrite andb_false_r. symmetry. apply bool_decide_eq_false_2. intros [? ?]. discriminate.
    + rewrite Z.add_0_r. reflexivity.
Qed.

(** X14.  [isNodeOutOfSync] on a manager reached from a fresh one: a node is out
    of sync exactly when its reported time differs from the manager's
    [now] by more than 5 ms, in either direction.  The node id is not
    looked at, and neither are the recorded latencies. *)
Theorem isNodeOutOfSync_threshold (calls : list sync_call) (nodeId : string)
    (reportedTime system_ms : Z) :
  is_u64 reportedTime ->
  let st := sync_run SyncManager.new calls in
  SyncManager.isNodeOutOfSync st nodeId reportedTime system_ms
  = (5 <? Z.abs (SyncManager.now st system_ms - reportedTime)) /\
  (forall other latency,
     SyncManager.isNodeOutOfSync
       (SyncManager.updateNodeLatency st other latency) other reportedTime system_ms
     = SyncManager.isNodeOutOfSync st nodeId reportedTime system_ms).
Proof.
  intros Hreported. cbv zeta.
  pose proof (sync_run_state calls) as (Hjitter & _). cbv zeta in Hjitter.
  split; [|reflexivity].
  unfold SyncManager.isNodeOutOfSync. rewrite Hjitter.
  pose proof (u64_range (system_ms + SyncManager.timeOffset (sync_run SyncManager.new calls)))
    as Hnow.
  rewrite <- now_eq in Hnow.
  set (current := SyncManager.now _ _) in *.
  destruct (Z.ltb_spec reportedTime current) as [Hlt|Hge].
  - rewrite u64_small by (unfold_consts; lia). rewrite Z.abs_eq by lia. reflexivity.
  - rewrite u64_small by (unfold_consts; lia). rewrite Z.abs_neq by lia.
    f_equal. lia.
Qed.

Lemma isNodeOutOfSync_threshold_witness :
  let calls := [CallHandleTimeBeacon 5123 5000 77; CallUpdateNodeLatency "n1" 12] in
  is_u64 5160 /\
  SyncManager.isNodeOutOfSync (sync_run SyncManager.new calls) "n1" 5160 5040 = false /\
  is_u64 5170 /\
  SyncManager.isNodeOutOfSync (sync_run SyncManager.new calls) "n1" 5170 5040 = true.
Proof.
  cbv zeta.
  assert (is_u64 5160) as H1 by solve_concrete.
  assert (is_u64 5170) as H2 by solve_concrete.
  split; [exact H1|]. split; [|split; [exact H2|]].
  - rewrite (proj1 (isNodeOutOfSync_threshold
                      [CallHandleTimeBeacon 5123 5000 77; CallUpdateNodeLatency "n1" 12]
                      "n1" 5160 5040 H1)).
    vm_compute. reflexivity.
  - rewrite (proj1 (isNodeOutOfSync_threshold
                      [CallHandleTimeBeacon 5123 5000 77; CallUpdateNodeLatency "n1" 12]
                      "n1" 5170 5040 H2)).
    vm_compute. reflexivity.
Defined.

(** ** MeshNetwork: the node table *)

Lemma ascii_compare_refl a : Ascii.compare a a = Eq.
Proof. unfold Ascii.compare. apply N.compare_refl. Qed.

Lemma ascii_compare_lt_trans a b c :
  Ascii.compare a b = Lt -> Ascii.compare b c = Lt -> Ascii.compare a c = Lt.
Proof. unfold Ascii.compare. rewrite !N.compare_lt_iff. lia. Qed.

Lemma key_le_trans a : forall b c,
  MeshNetwork.key_le a b -> MeshNetwork.key_le b c -> MeshNetwork.key_le a c.
Proof.
  unfold MeshNetwork.key_le, String.leb.
  induction a as [|x a IH]; intros [|y b] [|z c]; cbn [String.compare];
    try (intros; reflexivity); try discriminate.
  destruct (Ascii.compare x y) eqn:Hxy; destruct (Ascii.compare y z) eqn:Hyz;
    try discriminate.
  - apply Ascii.compare_eq_iff in Hxy, Hyz. subst. rewrite ascii_compare_refl. apply IH.
  - apply Ascii.compare_eq_iff in Hxy. subst. rewrite Hyz. reflexivity.
  - apply Ascii.compare_eq_iff in Hyz. subst. rewrite Hxy. reflexivity.
  - rewrite (ascii_compare_lt_trans x y z Hxy Hyz). reflexivity.
Qed.

Lemma entry_le_trans {V} : Transitive (@MeshNetwork.entry_le V).
Proof. intros a b c. unfold MeshNetwork.entry_le. apply key_le_trans. Qed.

Lemma entry_le_total {V} : Total (@MeshNetwork.entry_le V).
Proof. intros a b. unfold MeshNetwork.entry_le. apply String.leb_total. Qed.

Lemma in_key_order_perm {V} (m : gmap string V) :
  MeshNetwork.in_key_order m ≡ₚ map_to_list m.
Proof. apply merge_sort_Permutation. Qed.

Lemma StronglySorted_filter {A} (R : relation A) (P : A -> Prop)
    `{forall x, Decision (P x)} (l : list A) :
  StronglySorted R l -> StronglySorted R (filter P l).
Proof.
  induction 1 as [|x l Hsorted IH Hall]; [constructor|].
  rewrite filter_cons. destruct (decide (P x)); [|exact IH].
  constructor; [exact IH|].
  apply Forall_forall. intros y Hy. apply list_elem_of_filter in Hy as [_ Hy].
  revert y Hy. apply Forall_forall. exact Hall.
Qed.

Lemma getActiveNodes_elem {H} (st : MeshNetwork.t H) (steady : Z) (id : string) :
  id ∈ MeshNetwork.getActiveNodes st steady <->
  exists n p, MeshNetwork.nodes st !! id = Some n /\
              Node.lastPing n = Some p /\ steady - p < 30.
Proof.
  unfold MeshNetwork.getActiveNodes.
  - rewrite list_elem_of_fmap. split.
    + intros ([k n] & -> & Hin).
      apply list_elem_of_filter in Hin as [Hactive Hin].
      rewrite in_key_order_perm in Hin. apply elem_of_map_to_list in Hin.
      cbn [fst snd] in *. unfold Node.isActive in Hactive.
      destruct (Node.lastPing n) as [p|] eqn:Hping; [|contradiction].
      exists n, p. split; [exact Hin|]. split; [exact Hping|].
      apply Is_true_true in Hactive. apply Z.ltb_lt. exact Hactive.
    + intros (n & p & Hin & Hping & Hfresh).
      exists (id, n). split; [reflexivity|].
      apply list_elem_of_filter. split.
      * cbn [snd]. unfold Node.isActive. rewrite Hping.
        apply Is_true_true. apply Z.ltb_lt. exact Hfresh.
      * rewrite in_key_order_perm. apply elem_of_map_to_list. exact Hin.
Qed.

(** X15.  [getActiveNodes] lists exactly the registered nodes whose last ping
    is less than 30 s old at the time of the call, each once, in ascending
    order of their ids.  A node that was never pinged is not listed. *)
Theorem getActiveNodes_spec {H} (st : MeshNetwork.t H) (steady : Z) :
  (forall id,
     id ∈ MeshNetwork.getActiveNodes st steady <->
     exists n p, MeshNetwork.nodes st !! id = Some n /\
                 Node.lastPing n = Some p /\ steady - p < 30) /\
  NoDup (MeshNetwork.getActiveNodes st steady) /\
  StronglySorted MeshNetwork.key_le (MeshNetwork.getActiveNodes st steady).
Proof.
  split; [intros id; apply getActiveNodes_elem|].
  unfold MeshNetwork.getActiveNodes. split.
  - apply (sublist_NoDup _ (fst <$> MeshNetwork.in_key_order (MeshNetwork.nodes st))).
    + rewrite in_key_order_perm. apply NoDup_fst_map_to_list.
    + apply fmap_sublist, sublist_filter.
  - apply (StronglySorted_fmap fst MeshNetwork.entry_le).
    + intros x y Hxy. exact Hxy.
    + apply StronglySorted_filter.
      apply (@StronglySorted_merge_sort _ MeshNetwork.entry_le _
               entry_le_trans entry_le_total).
Qed.

(** Four registered nodes, three of them pinged at times 80, 90 and 100:
    at time 100 the three are listed in the order of their ids, at time
    115 the one pinged at 80 has dropped out, and the local node, never
    pinged, is not listed at all. *)
Example getActiveNodes_in_key_order :
  let net : MeshNetwork.t unit :=
    register_all (MeshNetwork.new (Node.new "local" Sink))
      [("zeta"%string, Sink); ("alpha"%string, Repeater); ("mid"%string, Sink)] in
  let net' :=
    outcome_state
      (fst (MeshNetwork.process_batch net tt
              [(PingPacket "mid" 0, 80); (PingPacket "zeta" 0, 90);
               (PingPacket "alpha" 0, 100)])) in
  MeshNetwork.getActiveNodes net' 100 = ["alpha"; "mid"; "zeta"]%string /\
  MeshNetwork.getActiveNodes net' 115 = ["alpha"; "zeta"]%string.
Proof. vm_compute. split; reflexivity. Qed.

Lemma set_nodes_same {H} (st : MeshNetwork.t H) :
  MeshNetwork.set_nodes st (MeshNetwork.nodes st) = st.
Proof. destruct st. reflexivity. Qed.

(** X16.  The node table starts with the local node alone.  [registerNode] adds
    a fresh record for an unknown id and does nothing for a known one: it
    never resets a node nor changes its role, so registering twice is
    registering once; the other nodes, the queue, the handler and the
    running flag are not touched. *)
Theorem registerNode_spec {H} (st : MeshNetwork.t H) (nodeId : string)
    (role role' : NodeRole) (localNode : Node.t) :
  let st' := MeshNetwork.registerNode st nodeId role in
  MeshNetwork.nodes (MeshNetwork.new (H := H) localNode)
  = {[ Node.id localNode := localNode ]} /\
  MeshNetwork.nodes st' !! nodeId
  = Some (default (Node.new nodeId role) (MeshNetwork.nodes st !! nodeId)) /\
  (forall other, other <> nodeId ->
     MeshNetwork.nodes st' !! other = MeshNetwork.nodes st !! other) /\
  MeshNetwork.registerNode st' nodeId role' = st' /\
  MeshNetwork.packetQueue st' = MeshNetwork.packetQueue st /\
  MeshNetwork.packetHandler st' = MeshNetwork.packetHandler st /\
  MeshNetwork.running st' = MeshNetwork.running st.
Proof.
  cbv zeta. split; [reflexivity|].
  destruct (MeshNetwork.nodes st !! nodeId) as [n|] eqn:Hlookup.
  - assert (MeshNetwork.registerNode st nodeId role = st) as Hsame
      by (unfold MeshNetwork.registerNode; rewrite Hlookup; reflexivity).
    rewrite !Hsame, Hlookup. cbn [default].
    split; [reflexivity|]. split; [reflexivity|].
    split; [|split; [|split]; reflexivity].
    unfold MeshNetwork.registerNode. rewrite Hlookup. reflexivity.
  - assert (MeshNetwork.registerNode st nodeId role
            = MeshNetwork.set_nodes st
                (<[nodeId := Node.new nodeId role]> (MeshNetwork.nodes st))) as Hnew
      by (unfold MeshNetwork.registerNode; rewrite Hlookup; reflexivity).
    rewrite !Hnew.
    cbn [default MeshNetwork.set_nodes MeshNetwork.nodes MeshNetwork.packetQueue
         MeshNetwork.packetHandler MeshNetwork.running].
    split; [apply lookup_insert_eq|].
    split; [intros other Hother; apply lookup_insert_ne; congruence|].
    split; [|split; [|split]; reflexivity].
    unfold MeshNetwork.registerNode.
    cbn [MeshNetwork.set_nodes MeshNetwork.nodes]. rewrite lookup_insert_eq. reflexivity.
Qed.

Lemma register_all_never_pinged {H} (regs : list (string * NodeRole)) :
  forall st : MeshNetwork.t H,
  (forall k n, MeshNetwork.nodes st !! k = Some n -> Node.lastPing n = None) ->
  forall k n, MeshNetwork.nodes (register_all st regs) !! k = Some n ->
              Node.lastPing n = None.
Proof.
  induction regs as [|[id role] regs IH]; intros st Hst; [exact Hst|].
  apply IH. intros k n. cbn [fst snd]. unfold MeshNetwork.registerNode.
  destruct (MeshNetwork.nodes st !! id) eqn:Hlookup; [apply Hst|].
  cbn [MeshNetwork.set_nodes MeshNetwork.nodes].
  destruct (decide (k = id)) as [->|Hne].
  - rewrite lookup_insert_eq. intros [= <-]. reflexivity.
  - rewrite lookup_insert_ne by congruence. apply Hst.
Qed.

(** X17.  Registration alone never makes a node active.  A network built around
    a newly constructed local node, with any number of nodes registered,
    reports no active node at all: not even the local node is listed
    before a ping or a status report of it has been processed. *)
Theorem registration_does_not_activate {H} (id : string) (role : NodeRole)
    (regs : list (string * NodeRole)) (steady : Z) :
  MeshNetwork.getActiveNodes
    (register_all (MeshNetwork.new (H := H) (Node.new id role)) regs) steady
  = [].
Proof.
  apply elem_of_nil_inv. intros k Hk.
  apply getActiveNodes_elem in Hk as (n & p & Hlookup & Hping & _).
  assert (forall k' n',
            MeshNetwork.nodes (MeshNetwork.new (H := H) (Node.new id role)) !! k' = Some n' ->
            Node.lastPing n' = None) as Hfresh.
  { intros k' n'. cbn [MeshNetwork.new MeshNetwork.nodes].
    intros Hin. apply lookup_singleton_Some in Hin as [_ <-]. reflexivity. }
  rewrite (register_all_never_pinged regs _ Hfresh k n Hlookup) in Hping.
  discriminate.
Qed.

(** X18.  [updateNodeStatus], called by a thread that does not hold the network
    mutex: a registered node gets the reported buffer state and latency
    and a fresh ping time, keeps its id and role, and is active at that
    moment; the other nodes are untouched; a report about an unknown id is
    dropped (no node is created for it). *)
Theorem updateNodeStatus_spec {H} (st : MeshNetwork.t H) (nodeId : string)
    (bufferState latency steady : Z) :
  exists st',
    MeshNetwork.updateNodeStatus false st nodeId bufferState latency steady = Some st' /\
    (MeshNetwork.nodes st !! nodeId = None -> st' = st) /\
    (forall n, MeshNetwork.nodes st !! nodeId = Some n ->
       MeshNetwork.nodes st' !! nodeId
       = Some {| Node.id := Node.id n; Node.role := Node.role n;
                 Node.lastPing := Some steady; Node.latency := latency;
                 Node.bufferState := bufferState |} /\
       nodeId ∈ MeshNetwork.getActiveNodes st' steady) /\
    (forall other, other <> nodeId ->
       MeshNetwork.nodes st' !! other = MeshNetwork.nodes st !! other).
Proof.
  eexists. split; [reflexivity|].
  cbn [MeshNetwork.set_nodes MeshNetwork.nodes]. split; [|split].
  - intros Hnone. rewrite alter_id; [apply set_nodes_same|].
    intros n Hn. congruence.
  - intros n Hn.
    assert (alter (fun n0 => Node.updatePing steady
                               (Node.setLatency latency
                                  (Node.updateBufferState bufferState n0)))
              nodeId (MeshNetwork.nodes st) !! nodeId
            = Some {| Node.id := Node.id n; Node.role := Node.role n;
                      Node.lastPing := Some steady; Node.latency := latency;
                      Node.bufferState := bufferState |}) as Hnew
      by (rewrite lookup_alter_eq, Hn; reflexivity).
    split; [exact Hnew|].
    apply getActiveNodes_elem. eexists _, steady.
    cbn [MeshNetwork.set_nodes MeshNetwork.nodes].
    split; [exact Hnew|]. split; [reflexivity|lia].
  - intros other Hother. apply lookup_alter_ne. congruence.
Qed.

(** ** MeshNetwork: what the worker does to the node table *)

Lemma only_pings_differ_refl {H} (st : MeshNetwork.t H) : only_pings_differ st st.
Proof.
  intros k. destruct (MeshNetwork.nodes st !! k); [|exact I].
  repeat split; reflexivity.
Qed.

Lemma only_pings_differ_trans {H} (st1 st2 st3 : MeshNetwork.t H) :
  only_pings_differ st1 st2 -> only_pings_differ st2 st3 -> only_pings_differ st1 st3.
Proof.
  intros H12 H23 k. specialize (H12 k). specialize (H23 k).
  destruct (MeshNetwork.nodes st1 !! k), (MeshNetwork.nodes st2 !! k),
    (MeshNetwork.nodes st3 !! k); try contradiction; try exact I.
  destruct H12 as (? & ? & ? & ?), H23 as (? & ? & ? & ?).
  repeat split; congruence.
Qed.

Lemma only_pings_differ_nodes {H} (st st' : MeshNetwork.t H) :
  MeshNetwork.nodes st' = MeshNetwork.nodes st -> only_pings_differ st st'.
Proof.
  intros Heq k. rewrite Heq.
  destruct (MeshNetwork.nodes st !! k); [|exact I]. repeat split; reflexivity.
Qed.

Lemma ping_only_pings_differ {H} (st : MeshNetwork.t H) source steady :
  only_pings_differ st
    (MeshNetwork.set_nodes st
       (alter (Node.updatePing steady) source (MeshNetwork.nodes st))).
Proof.
  intros k. cbn [MeshNetwork.set_nodes MeshNetwork.nodes].
  destruct (decide (k = source)) as [->|Hne].
  - rewrite lookup_alter_eq. destruct (MeshNetwork.nodes st !! source); [|exact I].
    repeat split; reflexivity.
  - rewrite lookup_alter_ne by congruence.
    destruct (MeshNetwork.nodes st !! k); [|exact I]. repeat split; reflexivity.
Qed.

Lemma processPacket_frame {H} (st : MeshNetwork.t H) env packet steady :
  let st' := outcome_state (MeshNetwork.processPacket st env packet steady) in
  only_pings_differ st st' /\
  MeshNetwork.running st' = MeshNetwork.running st /\
  MeshNetwork.packetQueue st' = MeshNetwork.packetQueue st /\
  MeshNetwork.packetHandler st' = MeshNetwork.packetHandler st.
Proof.
  cbv zeta. unfold MeshNetwork.processPacket.
  destruct packet as [source ts|cmd params|nodeId buffer latency|master|master targets];
    cbn [MeshNetwork.updateNodeStatus].
  2, 4, 5: destruct (MeshNetwork.packetHandler st) as [h|] eqn:Hh;
    [destruct (h _ env) as [env1 [e|]]|]; cbn [outcome_state];
    (split; [apply only_pings_differ_refl|repeat split; (reflexivity || exact Hh)]).
  - cbn [MeshNetwork.set_nodes MeshNetwork.packetHandler].
    destruct (MeshNetwork.packetHandler st) as [h|] eqn:Hh;
      [destruct (h _ env) as [env1 [e|]]|]; cbn [outcome_state];
      (split; [apply ping_only_pings_differ|repeat split; (reflexivity || exact Hh)]).
  - cbn [outcome_state].
    split; [apply only_pings_differ_refl|repeat split; reflexivity].
Qed.

Lemma process_batch_frame {H} (batch : list (MeshPacket * Z)) :
  forall (st : MeshNetwork.t H) env,
  let st' := outcome_state (fst (MeshNetwork.process_batch st env batch)) in
  only_pings_differ st st' /\
  MeshNetwork.running st' = MeshNetwork.running st /\
  MeshNetwork.packetQueue st' = MeshNetwork.packetQueue st /\
  MeshNetwork.packetHandler st' = MeshNetwork.packetHandler st.
Proof.
  induction batch as [|[packet steady] rest IH]; intros st env; cbv zeta.
  - cbn. split; [apply only_pings_differ_refl|repeat split; reflexivity].
  - cbn [MeshNetwork.process_batch].
    pose proof (processPacket_frame st env packet steady) as Hstep. cbv zeta in Hstep.
    destruct (MeshNetwork.processPacket st env packet steady) as [st1 env1|st1 env1 e|st1 env1];
      cbn [outcome_state fst] in *; [|exact Hstep|exact Hstep].
    specialize (IH st1 env1). cbv zeta in IH.
    destruct (MeshNetwork.process_batch st1 env1 rest) as [o entered]. cbn [fst] in *.
    destruct Hstep as (Hn1 & Hr1 & Hq1 & Hh1), IH as (Hn2 & Hr2 & Hq2 & Hh2).
    split; [exact (only_pings_differ_trans _ _ _ Hn1 Hn2)|].
    repeat split; congruence.
Qed.

Lemma wake_nodes {H} (st : MeshNetwork.t H) w :
  MeshNetwork.nodes (MeshNetwork.wake st w) = MeshNetwork.nodes st /\
  MeshNetwork.packetHandler (MeshNetwork.wake st w) = MeshNetwork.packetHandler st.
Proof.
  unfold MeshNetwork.wake.
  assert (forall l (s : MeshNetwork.t H),
            MeshNetwork.nodes (foldl MeshNetwork.sendPacket s l) = MeshNetwork.nodes s /\
            MeshNetwork.packetHandler (foldl MeshNetwork.sendPacket s l)
            = MeshNetwork.packetHandler s) as Hsend.
  { induction l as [|p l IH]; intros s; [split; reflexivity|].
    cbn [foldl]. destruct (IH (MeshNetwork.sendPacket s p)) as (-> & ->).
    split; reflexivity. }
  destruct (Hsend (MeshNetwork.sent w) st) as (Hn & Hh).
  destruct (MeshNetwork.stop_called w); [|split; assumption].
  unfold MeshNetwork.stop.
  destruct (negb (MeshNetwork.running _)); split; assumption.
Qed.

(** X19.  The worker never adds or removes a node and never changes a node's
    id, role, latency or buffer state: whatever packets arrive and however
    the loop ends, the node table differs from the one it started with at
    most in the last-ping times. *)
Theorem worker_only_refreshes_pings {H} (schedule : list MeshNetwork.wakeup)
    (st : MeshNetwork.t H) (env : H) :
  only_pings_differ st
    (outcome_state (fst (MeshNetwork.runNetworkLoop st env schedule))).
Proof.
  revert st env. induction schedule as [|w rest IH]; intros st env.
  - apply only_pings_differ_refl.
  - cbn [MeshNetwork.runNetworkLoop]. unfold MeshNetwork.runNetworkLoop_turn.
    pose proof (wake_nodes st w) as (Hwake & _).
    pose proof (only_pings_differ_nodes st _ Hwake) as Hstart.
    destruct (negb (MeshNetwork.running (MeshNetwork.wake st w))); [exact Hstart|].
    pose proof (process_batch_frame
                  (imap (fun i packet => (packet, MeshNetwork.clock w i))
                        (MeshNetwork.packetQueue (MeshNetwork.wake st w)))
                  (MeshNetwork.set_queue (MeshNetwork.wake st w) []) env)
      as (Hbatch & _).
    assert (only_pings_differ st (MeshNetwork.set_queue (MeshNetwork.wake st w) []))
      as Hqueue by (apply only_pings_differ_nodes; exact Hwake).
    destruct (MeshNetwork.process_batch _ env _) as [[st1 env1|st1 env1 e|st1 env1] entered];
      cbn [fst outcome_state] in *;
      try exact (only_pings_differ_trans _ _ _ Hqueue Hbatch).
    specialize (IH st1 env1).
    destruct (MeshNetwork.runNetworkLoop st1 env1 rest) as [o more]. cbn [fst] in *.
    exact (only_pings_differ_trans _ _ _
             (only_pings_differ_trans _ _ _ Hqueue Hbatch) IH).
Qed.

(** X20.  A ping stamps its source with the time it is processed, not with the
    timestamp it carries: a registered source is listed as active from
    then on until 30 s have passed; a ping from an unknown source leaves
    the node table as it is (no node is created). *)
Theorem ping_refreshes_source {H} (st : MeshNetwork.t H) (env : H)
    (source : string) (timestamp steady : Z) :
  let st' :=
    outcome_state (MeshNetwork.processPacket st env (PingPacket source timestamp) steady) in
  (forall n, MeshNetwork.nodes st !! source = Some n ->
     MeshNetwork.nodes st' !! source = Some (Node.updatePing steady n) /\
     forall later, source ∈ MeshNetwork.getActiveNodes st' later <-> later - steady < 30) /\
  (MeshNetwork.nodes st !! source = None ->
     MeshNetwork.nodes st' = MeshNetwork.nodes st).
Proof.
  cbv zeta.
  assert (MeshNetwork.nodes
            (outcome_state
               (MeshNetwork.processPacket st env (PingPacket source timestamp) steady))
          = alter (Node.updatePing steady) source (MeshNetwork.nodes st)) as Hnodes.
  { unfold MeshNetwork.processPacket.
    cbn [MeshNetwork.set_nodes MeshNetwork.packetHandler].
    destruct (MeshNetwork.packetHandler st) as [h|];
      [destruct (h _ env) as [env1 [e|]]|]; reflexivity. }
  split.
  - intros n Hn.
    assert (MeshNetwork.nodes
              (outcome_state
                 (MeshNetwork.processPacket st env (PingPacket source timestamp) steady))
            !! source = Some (Node.updatePing steady n)) as Hlookup
      by (rewrite Hnodes, lookup_alter_eq, Hn; reflexivity).
    split; [exact Hlookup|].
    intros later. rewrite getActiveNodes_elem. split.
    + intros (n' & p & Hn' & Hping & Hfresh).
      rewrite Hlookup in Hn'. injection Hn' as <-.
      cbn [Node.updatePing Node.lastPing] in Hping. injection Hping as <-. exact Hfresh.
    + intros Hfresh. exists (Node.updatePing steady n), steady.
      split; [exact Hlookup|]. split; [reflexivity|exact Hfresh].
  - intros Hnone. rewrite Hnodes. apply alter_id. intros n Hn. congruence.
Qed.

Lemma ping_refreshes_source_witness :
  let net : MeshNetwork.t (list MeshPacket) :=
    MeshNetwork.registerNode (MeshNetwork.new (Node.new "local" Sink)) "n1" Repeater in
  let net' := outcome_state (MeshNetwork.processPacket net [] (PingPacket "n1" 7) 100) in
  MeshNetwork.nodes net !! "n1"%string = Some (Node.new "n1" Repeater) /\
  MeshNetwork.getActiveNodes net 100 = [] /\
  MeshNetwork.nodes net' !! "n1"%string
  = Some (Node.updatePing 100 (Node.new "n1" Repeater)) /\
  MeshNetwork.getActiveNodes net' 129 = ["n1"%string] /\
  MeshNetwork.getActiveNodes net' 130 = [].
Proof.
  cbv zeta.
  set (net := MeshNetwork.registerNode _ _ _).
  assert (MeshNetwork.nodes net !! "n1"%string = Some (Node.new "n1" Repeater)) as Hn
    by (vm_compute; reflexivity).
  split; [exact Hn|]. split; [vm_compute; reflexivity|].
  split; [exact (proj1 (proj1 (ping_refreshes_source net [] "n1" 7 100) _ Hn))|].
  split; vm_compute; reflexivity.
Defined.

(** ** MeshNetwork: what reaches the packet handler *)

Lemma fst_imap_pair {A B} (f : nat -> B) (l : list A) :
  fst <$> imap (fun i x => (x, f i)) l = l.
Proof.
  revert f. induction l as [|x l IH]; intros f; [reflexivity|].
  cbn [imap fmap list_fmap]. f_equal. apply (IH (f ∘ S)).
Qed.

Lemma processPacket_recording st seen bad packet steady :
  MeshNetwork.packetHandler st = Some (recording_handler bad) ->
  outcome_env (MeshNetwork.processPacket st seen packet steady)
  = match packet with
    | StatusPacket _ _ _ => seen
    | _ => seen ++ [packet]
    end.
Proof.
  intros Hh. unfold MeshNetwork.processPacket.
  destruct packet; cbn [MeshNetwork.updateNodeStatus MeshNetwork.set_nodes
                        MeshNetwork.packetHandler];
    try reflexivity;
    rewrite Hh; unfold recording_handler; destruct (bad _); reflexivity.
Qed.

Lemma processPacket_deadlock {H} (st : MeshNetwork.t H) env packet steady st' env' :
  MeshNetwork.processPacket st env packet steady = MeshNetwork.Deadlocked st' env' ->
  exists nodeId buffer latency, packet = StatusPacket nodeId buffer latency.
Proof.
  unfold MeshNetwork.processPacket.
  destruct packet as [source ts|cmd params|nodeId buffer latency|master|master targets];
    cbn [MeshNetwork.updateNodeStatus MeshNetwork.set_nodes MeshNetwork.packetHandler];
    try (destruct (MeshNetwork.packetHandler st) as [h|];
         [destruct (h _ env) as [env1 [e|]]|]; discriminate).
  intros _. eauto.
Qed.

Lemma process_batch_recording bad (batch : list (MeshPacket * Z)) :
  forall st seen,
  MeshNetwork.packetHandler st = Some (recording_handler bad) ->
  Forall (fun p => MeshNetwork.getType p <> Status) seen ->
  Forall (fun p => MeshNetwork.getType p <> Status)
         (outcome_env (fst (MeshNetwork.process_batch st seen batch))) /\
  (forall st' seen',
     fst (MeshNetwork.process_batch st seen batch) = MeshNetwork.Deadlocked st' seen' ->
     exists nodeId buffer latency,
       last (snd (MeshNetwork.process_batch st seen batch))
       = Some (StatusPacket nodeId buffer latency)).
Proof.
  induction batch as [|[packet steady] rest IH]; intros st seen Hh Hseen.
  - cbn. split; [exact Hseen|]. intros st' seen'. discriminate.
  - cbn [MeshNetwork.process_batch].
    pose proof (processPacket_recording st seen bad packet steady Hh) as Henv.
    pose proof (processPacket_frame st seen packet steady) as (_ & _ & _ & Hh1).
    pose proof (processPacket_deadlock st seen packet steady) as Hdead.
    assert (Forall (fun p => MeshNetwork.getType p <> Status)
                   (outcome_env (MeshNetwork.processPacket st seen packet steady)))
      as Hseen1.
    { rewrite Henv. destruct packet; try exact Hseen;
        (apply Forall_app; split; [exact Hseen|]);
        (constructor; [discriminate|constructor]). }
    destruct (MeshNetwork.processPacket st seen packet steady)
      as [st1 seen1|st1 seen1 e|st1 seen1]; cbn [outcome_env outcome_state fst snd] in *.
    + destruct (IH st1 seen1 ltac:(congruence) Hseen1) as (Hall & Hlast).
      destruct (MeshNetwork.process_batch st1 seen1 rest) as [o entered] eqn:Hrest.
      cbn [fst snd] in *. split; [exact Hall|].
      intros st' seen' Ho. destruct (Hlast st' seen' Ho) as (id & b & l & Hl).
      exists id, b, l. destruct entered as [|q entered]; [discriminate|].
      exact Hl.
    + split; [exact Hseen1|]. intros st' seen'. discriminate.
    + split; [exact Hseen1|]. intros st' seen' _.
      destruct (Hdead st1 seen1 eq_refl) as (id & b & l & ->). eauto.
Qed.

(** X21.  The handler never sees a status packet.  [processPacket] holds the
    network mutex when it calls [updateNodeStatus], which locks the same
    plain mutex again, so the worker stops there.  With a handler that
    records what it is given: nothing it has recorded, however the loop
    ended, is a status packet; and when the worker ends up blocked, the
    last packet it took up is a status packet. *)
Theorem status_packets_never_delivered (bad : MeshPacket -> bool)
    (schedule : list MeshNetwork.wakeup) (st : MeshNetwork.t (list MeshPacket)) :
  MeshNetwork.packetHandler st = Some (recording_handler bad) ->
  let result := MeshNetwork.runNetworkLoop st [] schedule in
  Forall (fun p => MeshNetwork.getType p <> Status) (outcome_env (fst result)) /\
  (forall st' seen',
     fst result = MeshNetwork.Deadlocked st' seen' ->
     exists nodeId buffer latency,
       last (snd result) = Some (StatusPacket nodeId buffer latency)).
Proof.
  intros Hh. cbv zeta.
  assert (Forall (fun p => MeshNetwork.getType p <> Status) (@nil MeshPacket)) as Hseen
    by constructor.
  revert Hh Hseen. generalize (@nil MeshPacket) as seen. revert st.
  induction schedule as [|w rest IH]; intros st seen Hh Hseen.
  - cbn. split; [exact Hseen|]. intros st' seen'. discriminate.
  - cbn [MeshNetwork.runNetworkLoop]. unfold MeshNetwork.runNetworkLoop_turn.
    pose proof (wake_nodes st w) as (_ & Hwake).
    destruct (negb (MeshNetwork.running (MeshNetwork.wake st w))).
    { cbn. split; [exact Hseen|]. intros st' seen'. discriminate. }
    set (batch := imap _ _).
    assert (MeshNetwork.packetHandler (MeshNetwork.set_queue (MeshNetwork.wake st w) [])
            = Some (recording_handler bad)) as Hh0 by (cbn; congruence).
    destruct (process_batch_recording bad batch _ seen Hh0 Hseen) as (Hall & Hlast).
    pose proof (process_batch_frame batch
                  (MeshNetwork.set_queue (MeshNetwork.wake st w) []) seen)
      as (_ & _ & _ & Hh1).
    destruct (MeshNetwork.process_batch _ seen batch)
      as [[st1 seen1|st1 seen1 e|st1 seen1] entered];
      cbn [fst snd outcome_env outcome_state] in *.
    + destruct (IH st1 seen1 ltac:(congruence) Hall) as (Hall2 & Hlast2).
      destruct (MeshNetwork.runNetworkLoop st1 seen1 rest) as [o more].
      cbn [fst snd] in *. split; [exact Hall2|].
      intros st' seen' Ho. destruct (Hlast2 st' seen' Ho) as (id & b & l & Hl).
      exists id, b, l. rewrite last_app, Hl. reflexivity.
    + split; [exact Hall|]. intros st' seen'. discriminate.
    + split; [exact Hall|]. exact Hlast.
Qed.

Lemma status_packets_never_delivered_witness :
  let handler := recording_handler (fun _ => false) in
  let net :=
    MeshNetwork.start
      (MeshNetwork.setPacketHandler
         (MeshNetwork.registerNode (MeshNetwork.new (Node.new "local" Sink)) "n1" Sink)
         handler) in
  let w := {| MeshNetwork.sent :=
                [TimeBeaconPacket 1; StatusPacket "n1" 50 10; TimeBeaconPacket 2];
              MeshNetwork.stop_called := false;
              MeshNetwork.clock := fun i => 10 + Z.of_nat i |} in
  MeshNetwork.packetHandler net = Some handler /\
  MeshNetwork.runNetworkLoop net [] [w]
  = (MeshNetwork.Deadlocked (MeshNetwork.set_queue net []) [TimeBeaconPacket 1],
     [TimeBeaconPacket 1; StatusPacket "n1" 50 10]) /\
  Forall (fun p => MeshNetwork.getType p <> Status)
         (outcome_env (fst (MeshNetwork.runNetworkLoop net [] [w]))).
Proof.
  cbv zeta.
  set (handler := recording_handler _). set (net := MeshNetwork.start _). set (w := MeshNetwork.Build_wakeup _ _ _).
  assert (MeshNetwork.packetHandler net = Some handler) as Hh by reflexivity.
  split; [exact Hh|]. split; [vm_compute; reflexivity|].
  exact (proj1 (status_packets_never_delivered (fun _ => false) [w] net Hh)).
Defined.

Lemma deliver_all_app {H} (h : MeshNetwork.PacketHandler H) env l1 l2 :
  deliver_all h env (l1 ++ l2) = deliver_all h (deliver_all h env l1) l2.
Proof. unfold deliver_all. apply foldl_app. Qed.

Lemma process_batch_quiet {H} (h : MeshNetwork.PacketHandler H)
    (batch : list (MeshPacket * Z)) :
  (forall p env, snd (h p env) = None) ->
  forall st env,
  MeshNetwork.packetHandler st = Some h ->
  Forall (fun p => MeshNetwork.getType p <> Status) (fst <$> batch) ->
  exists st',
    MeshNetwork.process_batch st env batch
    = (MeshNetwork.Returned st' (deliver_all h env (fst <$> batch)), fst <$> batch) /\
    MeshNetwork.packetHandler st' = Some h /\
    MeshNetwork.running st' = MeshNetwork.running st /\
    MeshNetwork.packetQueue st' = MeshNetwork.packetQueue st.
Proof.
  intros Hquiet. induction batch as [|[packet steady] rest IH]; intros st env Hh Hok.
  - exists st. cbn. repeat split; [exact Hh].
  - cbn [fmap list_fmap fst] in Hok. inversion Hok as [|? ? Hpacket Hrest]; subst.
    pose proof (processPacket_frame st env packet steady) as (_ & Hr1 & Hq1 & Hh1).
    assert (exists st1, MeshNetwork.processPacket st env packet steady
                        = MeshNetwork.Returned st1 (fst (h packet env))) as (st1 & Hstep).
    { pose proof (Hquiet packet env) as Hcalm.
      destruct (h packet env) as [env1 thrown] eqn:Hcall. cbn [snd fst] in *.
      subst thrown. unfold MeshNetwork.processPacket.
      destruct packet; cbn [MeshNetwork.getType] in Hpacket; try congruence;
        cbn [MeshNetwork.set_nodes MeshNetwork.packetHandler]; rewrite Hh, Hcall;
        eexists; reflexivity. }
    rewrite Hstep in Hr1, Hq1, Hh1. cbn [outcome_state] in Hr1, Hq1, Hh1.
    destruct (IH st1 (fst (h packet env)) ltac:(congruence) Hrest)
      as (st' & Hbatch & Hh' & Hr' & Hq').
    exists st'. cbn [MeshNetwork.process_batch]. rewrite Hstep, Hbatch.
    split; [reflexivity|]. repeat split; congruence.
Qed.

Lemma foldl_sendPacket_queue {H} (l : list MeshPacket) :
  forall st : MeshNetwork.t H,
  MeshNetwork.packetQueue (foldl MeshNetwork.sendPacket st l)
  = MeshNetwork.packetQueue st ++ l /\
  MeshNetwork.running (foldl MeshNetwork.sendPacket st l) = MeshNetwork.running st.
Proof.
  induction l as [|p l IH]; intros st.
  - rewrite app_nil_r. split; reflexivity.
  - cbn [foldl]. destruct (IH (MeshNetwork.sendPacket st p)) as (-> & ->).
    cbn [MeshNetwork.sendPacket MeshNetwork.set_queue MeshNetwork.packetQueue
         MeshNetwork.running].
    rewrite <- app_assoc. split; reflexivity.
Qed.

(** X22.  Delivery in order.  While the network runs and is not stopped, with a
    handler that never throws and no status packet in the traffic, the
    worker takes up every packet that was sent, once, in the order of the
    [sendPacket] calls, hands each to the handler in that order, and
    leaves the queue empty. *)
Theorem packets_delivered_in_order {H} (h : MeshNetwork.PacketHandler H)
    (schedule : list MeshNetwork.wakeup) (st : MeshNetwork.t H) (env : H) :
  (forall p e, snd (h p e) = None) ->
  MeshNetwork.packetHandler st = Some h ->
  MeshNetwork.running st = true ->
  MeshNetwork.packetQueue st = [] ->
  Forall (fun w => MeshNetwork.stop_called w = false) schedule ->
  Forall (fun p => MeshNetwork.getType p <> Status)
         (concat (MeshNetwork.sent <$> schedule)) ->
  let traffic := concat (MeshNetwork.sent <$> schedule) in
  exists st',
    MeshNetwork.runNetworkLoop st env schedule
    = (MeshNetwork.Returned st' (deliver_all h env traffic), traffic) /\
    MeshNetwork.packetQueue st' = [] /\
    MeshNetwork.running st' = true.
Proof.
  intros Hquiet. cbv zeta. revert st env.
  induction schedule as [|w rest IH]; intros st env Hh Hrun Hqueue Hstop Hok.
  - exists st. cbn. repeat split; assumption.
  - inversion Hstop as [|? ? Hw Hrest]; subst.
    cbn [fmap list_fmap concat] in *. apply Forall_app in Hok as (Hok1 & Hok2).
    cbn [MeshNetwork.runNetworkLoop]. unfold MeshNetwork.runNetworkLoop_turn.
    assert (MeshNetwork.wake st w = foldl MeshNetwork.sendPacket st (MeshNetwork.sent w))
      as Hwake by (unfold MeshNetwork.wake; rewrite Hw; reflexivity).
    destruct (foldl_sendPacket_queue (MeshNetwork.sent w) st) as (Hq & Hr).
    destruct (wake_nodes st w) as (_ & Hhw).
    rewrite Hwake in *. rewrite Hr, Hrun, Hq, Hqueue. cbn [negb app].
    set (batch := imap _ _).
    assert (fst <$> batch = MeshNetwork.sent w) as Hbatch by apply fst_imap_pair.
    destruct (process_batch_quiet h batch Hquiet
                (MeshNetwork.set_queue (foldl MeshNetwork.sendPacket st (MeshNetwork.sent w)) [])
                env ltac:(cbn; congruence) ltac:(rewrite Hbatch; exact Hok1))
      as (st1 & Hstep & Hh1 & Hr1 & Hq1).
    rewrite Hstep, Hbatch.
    cbn [MeshNetwork.set_queue MeshNetwork.running MeshNetwork.packetQueue] in Hr1, Hq1.
    destruct (IH st1 (deliver_all h env (MeshNetwork.sent w)) Hh1
                ltac:(congruence) Hq1 Hrest Hok2) as (st' & Hloop & Hq' & Hr').
    exists st'. rewrite Hloop, deliver_all_app. repeat split; assumption.
Qed.

Lemma packets_delivered_in_order_witness :
  let handler := recording_handler (fun _ => false) in
  let net :=
    MeshNetwork.start
      (MeshNetwork.setPacketHandler (MeshNetwork.new (Node.new "local" Sink)) handler) in
  let w1 := {| MeshNetwork.sent := [TimeBeaconPacket 1; PingPacket "local" 5];
               MeshNetwork.stop_called := false;
               MeshNetwork.clock := fun i => 10 + Z.of_nat i |} in
  let w2 := {| MeshNetwork.sent := [TimeBeaconPacket 2];
               MeshNetwork.stop_called := false;
               MeshNetwork.clock := fun i => 20 + Z.of_nat i |} in
  (forall p e, snd (handler p e) = None) /\
  MeshNetwork.packetHandler net = Some handler /\
  MeshNetwork.running net = true /\
  MeshNetwork.packetQueue net = [] /\
  Forall (fun w => MeshNetwork.stop_called w = false) [w1; w2] /\
  Forall (fun p => MeshNetwork.getType p <> Status)
         (concat (MeshNetwork.sent <$> [w1; w2])) /\
  exists net',
    MeshNetwork.runNetworkLoop net [] [w1; w2]
    = (MeshNetwork.Returned net'
         [TimeBeaconPacket 1; PingPacket "local" 5; TimeBeaconPacket 2],
       [TimeBeaconPacket 1; PingPacket "local" 5; TimeBeaconPacket 2]) /\
    MeshNetwork.packetQueue net' = [] /\
    MeshNetwork.running net' = true.
Proof.
  cbv zeta.
  set (handler := recording_handler _). set (net := MeshNetwork.start _).
  set (w1 := MeshNetwork.Build_wakeup [TimeBeaconPacket 1; _] _ _).
  set (w2 := MeshNetwork.Build_wakeup [TimeBeaconPacket 2] _ _).
  assert (forall p e, snd (handler p e) = None) as Hquiet by (intros p e; reflexivity).
  assert (MeshNetwork.packetHandler net = Some handler) as Hh by reflexivity.
  assert (MeshNetwork.running net = true) as Hrun by reflexivity.
  assert (MeshNetwork.packetQueue net = []) as Hq by reflexivity.
  assert (Forall (fun w => MeshNetwork.stop_called w = false) [w1; w2]) as Hstop
    by (repeat constructor).
  assert (Forall (fun p => MeshNetwork.getType p <> Status)
                 (concat (MeshNetwork.sent <$> [w1; w2]))) as Hok
    by (repeat constructor; discriminate).
  split; [exact Hquiet|]. split; [exact Hh|]. split; [exact Hrun|]. split; [exact Hq|].
  split; [exact Hstop|]. split; [exact Hok|].
  exact (packets_delivered_in_order handler [w1; w2] net [] Hquiet Hh Hrun Hq Hstop Hok).
Defined.

(** ** MeshCrypto: envelopes, signatures, errors *)

(** X23.  The encrypted envelope.  [encrypt] draws one nonce, so the counter
    advances by one whether the cipher succeeds or not, and the key is
    kept.  What it returns starts with that 12-byte nonce, is at least 28
    bytes long, and is opened again to the payload by [decrypt] on the
    same engine or on any engine holding the same network key. *)
Theorem encrypt_decrypt_round_trip (P : Primitives) (st : MeshCrypto.t)
    (payload : list byte) (timestamp : Z) :
  aead_correct P ->
  let st' := fst (MeshCrypto.encrypt P st payload timestamp) in
  MeshCrypto.nonceCounter st' = u64 (MeshCrypto.nonceCounter st + 1) /\
  MeshCrypto.networkKey st' = MeshCrypto.networkKey st /\
  forall out,
    snd (MeshCrypto.encrypt P st payload timestamp) = inr out ->
    take 12 out = snd (MeshCrypto.generateNonce st timestamp) /\
    12 + 16 <= cpp_size out /\
    MeshCrypto.decrypt P st' out = inr payload /\
    (forall peer,
       MeshCrypto.networkKey peer = MeshCrypto.networkKey st ->
       MeshCrypto.decrypt P peer out = inr payload).
Proof.
  intros Haead. cbv zeta.
  destruct (MeshCrypto.encrypt P st payload timestamp) as [st' result] eqn:Henc.
  cbn [fst snd].
  pose proof (generateNonce_length st timestamp) as Hnlen.
  assert (st' = fst (MeshCrypto.generateNonce st timestamp)) as Hst'.
  { unfold MeshCrypto.encrypt in Henc.
    destruct (MeshCrypto.generateNonce st timestamp) as [st1 nonce].
    destruct (aes_256_gcm_seal P (MeshCrypto.networkKey st1) nonce payload)
      as [[ciphertext tag]|]; injection Henc as <- _; reflexivity. }
  split; [rewrite Hst'; reflexivity|]. split; [rewrite Hst'; reflexivity|].
  intros out ->.
  assert (forall peer,
            MeshCrypto.networkKey peer = MeshCrypto.networkKey st ->
            MeshCrypto.decrypt P peer out = inr payload) as Hopen
    by (intros peer Hkey; apply (decrypt_encrypt P st peer payload timestamp st' out
                                   Haead Hkey Henc)).
  split; [|split; [|split; [apply Hopen; rewrite Hst'; reflexivity|exact Hopen]]].
  - unfold MeshCrypto.encrypt in Henc.
    destruct (MeshCrypto.generateNonce st timestamp) as [st1 nonce]. cbn [snd] in *.
    destruct (aes_256_gcm_seal P (MeshCrypto.networkKey st1) nonce payload)
      as [[ciphertext tag]|]; [|discriminate].
    injection Henc as _ <-. apply take_app_length'. symmetry. exact Hnlen.
  - specialize (Hopen st eq_refl). unfold MeshCrypto.decrypt in Hopen.
    destruct (Z.ltb_spec (cpp_size out) (12 + 16)); [discriminate|assumption].
Qed.

Lemma encrypt_decrypt_round_trip_witness :
  let st := MeshCrypto.new (replicate 32 Byte.x07) [] [] in
  let peer := MeshCrypto.set_counter st 99 in
  let payload := [Byte.x01; Byte.x02; Byte.x03] in
  aead_correct plain_primitives /\
  MeshCrypto.networkKey peer = MeshCrypto.networkKey st /\
  match MeshCrypto.encrypt plain_primitives st payload 1700000000000 with
  | (st', inr out) =>
      MeshCrypto.nonceCounter st' = 1 /\
      cpp_size out = 12 + 3 + 16 /\
      MeshCrypto.decrypt plain_primitives peer out = inr payload
  | _ => False
  end.
Proof.
  cbv zeta.
  set (st := MeshCrypto.new _ _ _). set (peer := MeshCrypto.set_counter _ _).
  set (payload := [Byte.x01; Byte.x02; Byte.x03]).
  assert (MeshCrypto.networkKey peer = MeshCrypto.networkKey st) as Hkey by reflexivity.
  split; [exact plain_primitives_aead|]. split; [exact Hkey|].
  pose proof (encrypt_decrypt_round_trip plain_primitives st payload 1700000000000
                plain_primitives_aead) as (Hcounter & _ & Hout).
  destruct (MeshCrypto.encrypt plain_primitives st payload 1700000000000)
    as [st' [e|out]] eqn:Henc; [vm_compute in Henc; discriminate|].
  cbn [fst snd] in *.
  split; [rewrite Hcounter; reflexivity|].
  split; [injection Henc as _ <-; vm_compute; reflexivity|].
  exact (proj2 (proj2 (proj2 (Hout out eq_refl))) peer Hkey).
Defined.

(** X24.  Every failure is typed by the operation that failed, whatever the
    primitives answer.  [encrypt] fails only with Encryption, [decrypt]
    only with Decryption (always so on fewer than 28 bytes), [sign] only
    with Signature, [verify] only with Verification; and [verify] reports
    an unknown node id, a registered key that is not 32 bytes or a
    signature that is not 64 bytes as an error, not as [false].  A
    security token fails to be generated only with Signature (and then
    the engine is unchanged) or Encryption, and fails to verify only with
    Decryption or Verification.  KeyExchange and Hash never come out of
    these operations. *)
Theorem crypto_error_types (P : Primitives) (st : MeshCrypto.t) :
  (forall payload timestamp e,
     snd (MeshCrypto.encrypt P st payload timestamp) = inl e -> e = Encryption) /\
  (forall data e, MeshCrypto.decrypt P st data = inl e -> e = Decryption) /\
  (forall data, cpp_size data < 12 + 16 -> MeshCrypto.decrypt P st data = inl Decryption) /\
  (forall message e, MeshCrypto.sign P st message = inl e -> e = Signature) /\
  (forall nodeId message signature e,
     MeshCrypto.verify P st nodeId message signature = inl e -> e = Verification) /\
  (forall nodeId message signature,
     (forall publicKey,
        MeshCrypto.knownPublicKeys st !! nodeId = Some publicKey ->
        cpp_size publicKey <> 32 \/ cpp_size signature <> 64) ->
     MeshCrypto.verify P st nodeId message signature = inl Verification) /\
  (forall nodeId ttlSeconds timestamp nonce_time e,
     snd (MeshCrypto.generateSecurityToken P st nodeId ttlSeconds timestamp nonce_time)
     = inl e ->
     e = Encryption \/
     e = Signature /\
     fst (MeshCrypto.generateSecurityToken P st nodeId ttlSeconds timestamp nonce_time)
     = st) /\
  (forall token current e,
     MeshCrypto.verifySecurityToken P st token current = inl e ->
     e = Decryption \/ e = Verification).
Proof.
  assert (forall data e, MeshCrypto.decrypt P st data = inl e -> e = Decryption) as Hdec.
  { intros data e. unfold MeshCrypto.decrypt. repeat case_match; congruence. }
  assert (forall payload timestamp st0 e,
            snd (MeshCrypto.encrypt P st0 payload timestamp) = inl e -> e = Encryption)
    as Henc.
  { intros payload timestamp st0 e. unfold MeshCrypto.encrypt.
    destruct (MeshCrypto.generateNonce st0 timestamp) as [st1 nonce].
    repeat case_match; cbn [snd]; congruence. }
  split; [intros payload timestamp e; apply Henc|]. split; [exact Hdec|].
  split; [|split; [|split; [|split; [|split]]]].
  - intros data Hshort. unfold MeshCrypto.decrypt.
    destruct (Z.ltb_spec (cpp_size data) (12 + 16)); [reflexivity|lia].
  - intros message e. unfold MeshCrypto.sign. case_match; congruence.
  - intros nodeId message signature e. unfold MeshCrypto.verify.
    repeat case_match; congruence.
  - intros nodeId message signature Hbad. unfold MeshCrypto.verify.
    destruct (MeshCrypto.knownPublicKeys st !! nodeId) as [publicKey|]; [|reflexivity].
    unfold MeshCrypto.crypto_sign_PUBLICKEYBYTES, MeshCrypto.crypto_sign_BYTES.
    destruct (Hbad publicKey eq_refl) as [Hkey|Hsig].
    + destruct (Z.eqb_spec (cpp_size publicKey) 32); [contradiction|reflexivity].
    + destruct (Z.eqb_spec (cpp_size publicKey) 32); [|reflexivity].
      destruct (Z.eqb_spec (cpp_size signature) 64); [contradiction|reflexivity].
  - intros nodeId ttl timestamp nonce_time e.
    unfold MeshCrypto.generateSecurityToken, MeshCrypto.sign.
    destruct (crypto_sign_detached P (MeshCrypto.signingSecretKey st) _) as [signature|].
    + intros Hfail. left. exact (Henc _ _ _ _ Hfail).
    + cbn [fst snd]. intros [= <-]. right. split; reflexivity.
  - intros token current e Hfail.
    destruct (MeshCrypto.decrypt P st token) as [e'|payload] eqn:Hopen.
    + left. unfold MeshCrypto.verifySecurityToken in Hfail. rewrite Hopen in Hfail.
      injection Hfail as <-. exact (Hdec _ _ Hopen).
    + right. exact (verifySecurityToken_error_type P st token current payload e Hopen Hfail).
Qed.

(** X25.  Signing and verifying.  What an engine signs verifies under its
    public key at any verifier that has registered that key for the
    signer's id, also when an older key was registered for the id before
    (the newest registration wins).  At a verifier that does not know the
    id, verification is an error rather than [false]. *)
Theorem sign_verify_round_trip (P : Primitives) (signer verifier : MeshCrypto.t)
    (nodeId : string) (older : list byte) (message signature : list byte) :
  signature_correct P (MeshCrypto.getPublicKey signer)
                    (MeshCrypto.signingSecretKey signer) ->
  cpp_size (MeshCrypto.getPublicKey signer) = MeshCrypto.crypto_sign_PUBLICKEYBYTES ->
  MeshCrypto.sign P signer message = inr signature ->
  MeshCrypto.verify P
    (MeshCrypto.registerNodeKey verifier nodeId (MeshCrypto.getPublicKey signer))
    nodeId message signature = inr true /\
  MeshCrypto.verify P
    (MeshCrypto.registerNodeKey
       (MeshCrypto.registerNodeKey verifier nodeId older)
       nodeId (MeshCrypto.getPublicKey signer))
    nodeId message signature = inr true /\
  (MeshCrypto.knownPublicKeys verifier !! nodeId = None ->
   MeshCrypto.verify P verifier nodeId message signature = inl Verification).
Proof.
  intros Hcorrect Hpk Hsign.
  unfold MeshCrypto.sign in Hsign.
  destruct (crypto_sign_detached P (MeshCrypto.signingSecretKey signer) message)
    as [s|] eqn:Hs; [|discriminate].
  injection Hsign as <-.
  destruct (Hcorrect message s Hs) as (Hlen & Hverify).
  assert (forall v,
            MeshCrypto.verify P
              (MeshCrypto.registerNodeKey v nodeId (MeshCrypto.getPublicKey signer))
              nodeId message s = inr true) as Hok.
  { intros v. unfold MeshCrypto.verify, MeshCrypto.registerNodeKey.
    cbn [MeshCrypto.knownPublicKeys]. rewrite lookup_insert_eq, Hpk, Z.eqb_refl.
    unfold cpp_size, MeshCrypto.crypto_sign_BYTES. rewrite Hlen. cbn [negb].
    change (Z.of_nat 64 =? 64) with true. cbn [negb]. rewrite Hverify. reflexivity. }
  split; [apply Hok|]. split; [apply Hok|].
  intros Hunknown. unfold MeshCrypto.verify. rewrite Hunknown. reflexivity.
Qed.

Lemma sign_verify_round_trip_witness :
  let seed := replicate 32 Byte.x01 in
  let pk := replicate 32 Byte.x02 in
  let signer := MeshCrypto.new (replicate 32 Byte.x00) pk (seed ++ pk) in
  let verifier := MeshCrypto.new (replicate 32 Byte.x00) [] [] in
  let message := [Byte.x0a; Byte.x0b] in
  signature_correct plain_primitives (MeshCrypto.getPublicKey signer)
                    (MeshCrypto.signingSecretKey signer) /\
  cpp_size (MeshCrypto.getPublicKey signer) = MeshCrypto.crypto_sign_PUBLICKEYBYTES /\
  match MeshCrypto.sign plain_primitives signer message with
  | inr signature =>
      MeshCrypto.verify plain_primitives
        (MeshCrypto.registerNodeKey verifier "n1" (MeshCrypto.getPublicKey signer))
        "n1" message signature = inr true /\
      MeshCrypto.verify plain_primitives verifier "n1" message signature
      = inl Verification
  | inl _ => False
  end.
Proof.
  cbv zeta.
  set (signer := MeshCrypto.new _ (replicate 32 Byte.x02) _).
  set (verifier := MeshCrypto.new _ [] []).
  set (message := [Byte.x0a; Byte.x0b]).
  assert (signature_correct plain_primitives (MeshCrypto.getPublicKey signer)
            (MeshCrypto.signingSecretKey signer)) as Hcorrect
    by (apply plain_primitives_signature; reflexivity).
  assert (cpp_size (MeshCrypto.getPublicKey signer) = MeshCrypto.crypto_sign_PUBLICKEYBYTES)
    as Hpk by reflexivity.
  split; [exact Hcorrect|]. split; [exact Hpk|].
  destruct (MeshCrypto.sign plain_primitives signer message) as [e|signature] eqn:Hsign;
    [vm_compute in Hsign; discriminate|].
  destruct (sign_verify_round_trip plain_primitives signer verifier "n1" []
              message signature Hcorrect Hpk Hsign) as (Hok & _ & Hunknown).
  split; [exact Hok|]. apply Hunknown. reflexivity.
Defined.

(** ** SyncEngine: initialisation and life cycle *)

Lemma AudioStream_new_ok pa sample_rate channels buffer_ms s :
  is_u32 sample_rate -> 0 <= channels < 256 -> is_u32 buffer_ms ->
  AudioStream.new pa sample_rate channels buffer_ms = inr s ->
  AudioStream.stream_ s = true /\
  AudioStream.is_initialized_ s = true /\
  AudioStream.is_active s = false /\
  AudioStream.channels_ s = channels /\
  AudioBuffer.new sample_rate channels buffer_ms = inr (AudioStream.buffer_ s).
Proof.
  intros Hsr Hch Hms. unfold AudioStream.new.
  destruct (AudioBuffer.new sample_rate channels buffer_ms) as [e|buf]; [discriminate|].
  destruct (negb (Pa_Initialize_ok pa)); [discriminate|].
  destruct (negb (Pa_GetDefaultOutputDevice_ok pa)); [discriminate|].
  destruct (negb (Pa_OpenStream_ok pa)); [discriminate|].
  intros [= <-]. repeat split; reflexivity.
Qed.

Lemma set_buffer_size_ms_fields ab buffer_ms :
  AudioBuffer.channels_ (fst (AudioBuffer.set_buffer_size_ms ab buffer_ms))
  = AudioBuffer.channels_ ab /\
  AudioBuffer.samples_per_ms_ (fst (AudioBuffer.set_buffer_size_ms ab buffer_ms))
  = AudioBuffer.samples_per_ms_ ab.
Proof.
  unfold AudioBuffer.set_buffer_size_ms.
  destruct (buffer_ms =? 0); [split; reflexivity|].
  destruct (RingBuffer.new 0 _) as [e|new_buffer]; [split; reflexivity|].
  cbn [AudioBuffer.buffer_].
  destruct (negb (RingBuffer.empty (AudioBuffer.buffer_ ab)));
    [destruct (RingBuffer.read _ _) as [[rb temp] read]|]; split; reflexivity.
Qed.

Lemma write_samples_fields ab samples count timestamp :
  AudioBuffer.channels_ (fst (AudioBuffer.write_samples ab samples count timestamp))
  = AudioBuffer.channels_ ab /\
  AudioBuffer.samples_per_ms_ (fst (AudioBuffer.write_samples ab samples count timestamp))
  = AudioBuffer.samples_per_ms_ ab.
Proof.
  unfold AudioBuffer.write_samples.
  destruct (RingBuffer.empty (AudioBuffer.buffer_ ab));
    destruct (RingBuffer.write _ _ _) as [rb w]; split; reflexivity.
Qed.

Lemma engine_reachable_args se :
  engine_reachable se ->
  is_u32 (SyncEngine.sample_rate_ se) /\ 0 <= SyncEngine.channels_ se < 256.
Proof.
  induction 1 as [sr ch ms Hsr Hch|pa se tp _ IH|pa se ms _ IH|se _ IH
                 |se synced offset _ IH|se data frames ts _ IH Hts].
  - split; assumption.
  - unfold SyncEngine.initialize.
    destruct (AudioStream.new _ _ _ _); exact IH.
  - unfold SyncEngine.start.
    destruct (SyncEngine.audio_stream_ se) as [s|]; [|exact IH].
    destruct (AudioStream.setBufferSize s ms) as [s1 [e|]]; [exact IH|].
    destruct (AudioStream.startStream pa s1) as [s2 [e|]]; exact IH.
  - unfold SyncEngine.stop.
    destruct (SyncEngine.audio_stream_ se) as [s|]; [|exact IH].
    destruct (SyncEngine.is_active_ se); exact IH.
  - exact IH.
  - unfold SyncEngine.writeAudioData.
    destruct (SyncEngine.audio_stream_ se) as [s|]; [|exact IH].
    destruct (AudioStream.writeAudio s data frames ts). exact IH.
Qed.

Lemma stream_ok_fields se se' s :
  SyncEngine.channels_ se' = SyncEngine.channels_ se ->
  SyncEngine.sample_rate_ se' = SyncEngine.sample_rate_ se ->
  stream_ok se s -> stream_ok se' s.
Proof. unfold stream_ok. intros -> ->. exact id. Qed.

Lemma stream_ok_set_buffer se s buf :
  stream_ok se s ->
  AudioBuffer.channels_ buf = AudioBuffer.channels_ (AudioStream.buffer_ s) ->
  AudioBuffer.samples_per_ms_ buf = AudioBuffer.samples_per_ms_ (AudioStream.buffer_ s) ->
  audio_inv buf ->
  stream_ok se (AudioStream.set_buffer s buf).
Proof.
  intros (H1 & H2 & H3 & H4 & H5 & H6) Hch Hspm Hinv.
  unfold stream_ok. cbn [AudioStream.set_buffer AudioStream.stream_
                         AudioStream.is_initialized_ AudioStream.channels_
                         AudioStream.buffer_].
  split; [exact H1|]. split; [exact H2|]. split; [exact H3|].
  split; [congruence|]. split; [congruence|exact Hinv].
Qed.

Lemma stream_ok_set_active se s b :
  stream_ok se s -> stream_ok se (AudioStream.set_active s b).
Proof. intros H. exact H. Qed.

Lemma write_samples_inv ab samples count timestamp :
  audio_inv ab -> is_u64 timestamp ->
  audio_inv (fst (AudioBuffer.write_samples ab samples count timestamp)).
Proof.
  intros Hinv Hts. unfold AudioBuffer.write_samples.
  set (ab1 := if RingBuffer.empty (AudioBuffer.buffer_ ab)
              then AudioBuffer.set_timestamp ab timestamp else ab).
  assert (audio_inv ab1) as Hinv1.
  { subst ab1. destruct (RingBuffer.empty (AudioBuffer.buffer_ ab)); [|exact Hinv].
    destruct Hinv as [Hch Hspm Hring Hold]. constructor; assumption. }
  pose proof (ring_write_spec _ _ samples (u64 (count * AudioBuffer.channels_ ab1))
                (ainv_ring _ Hinv1) (proj1 (u64_range _))) as (Hring' & _).
  destruct (RingBuffer.write _ _ _) as [rb w]. simpl in *.
  apply (audio_inv_set_buffer _ _ _ Hinv1 Hring').
Qed.

Lemma set_buffer_size_ms_inv ab buffer_ms :
  audio_inv ab -> audio_inv (fst (AudioBuffer.set_buffer_size_ms ab buffer_ms)).
Proof.
  intros Hinv. unfold AudioBuffer.set_buffer_size_ms.
  destruct (buffer_ms =? 0); [exact Hinv|].
  set (N := u32 (u32 (AudioBuffer.samples_per_ms_ ab * buffer_ms)
                 * AudioBuffer.channels_ ab)).
  set (ab1 := AudioBuffer.mk _ _ _ _ _ _ _).
  assert (audio_inv ab1) as Hinv1
    by (destruct Hinv as [Hch Hspm Hring Hold]; constructor; assumption).
  destruct (RingBuffer.new 0 N) as [e|new_buffer] eqn:Hnew; [exact Hinv1|].
  pose proof (ring_new_inv 0 N new_buffer (proj1 (u32_range _)) Hnew) as Hfresh.
  destruct (negb (RingBuffer.empty (AudioBuffer.buffer_ ab1))).
  - destruct (RingBuffer.read _ _) as [[rb temp] read] eqn:Hread.
    pose proof (ring_read_spec _ (AudioBuffer.buffer_ ab1)
                  (RingBuffer.size (AudioBuffer.buffer_ ab1)) (ainv_ring _ Hinv1)
                  (proj1 (inv_size _ _ (ainv_ring _ Hinv1)))) as (_ & Hk & _).
    rewrite Hread in Hk. simpl in Hk.
    pose proof (inv_size _ _ (ainv_ring _ Hinv1)) as Hsz.
    assert (0 <= read) as Hread0
      by (unfold ab1 in Hsz; simpl in Hsz; unfold RingBuffer.size in Hk; lia).
    pose proof (ring_write_spec N new_buffer temp read Hfresh Hread0) as (Hring' & _).
    simpl. apply (audio_inv_set_buffer _ _ _ Hinv1 Hring').
  - simpl. apply (audio_inv_set_buffer _ _ _ Hinv1 Hfresh).
Qed.

Lemma engine_reachable_streams se :
  engine_reachable se ->
  (SyncEngine.is_active_ se = true -> is_Some (SyncEngine.audio_stream_ se)) /\
  (forall s, SyncEngine.audio_stream_ se = Some s -> stream_ok se s).
Proof.
  intros Hreach. pose proof (engine_reachable_args se Hreach) as Hargs. revert Hargs.
  induction Hreach as [sr ch ms Hsr Hch|pa se tp Hreach IH|pa se ms Hreach IH|se Hreach IH
                      |se synced offset Hreach IH|se data frames ts Hreach IH Hts];
    intros Hargs.
  - split; [discriminate|]. intros s. discriminate.
  - specialize (IH (engine_reachable_args se Hreach)). destruct IH as (IHa & IHs).
    pose proof (engine_reachable_args se Hreach) as (Hsr & Hch).
    unfold SyncEngine.initialize. cbn [SyncEngine.sample_rate_ SyncEngine.channels_].
    destruct (AudioStream.new pa (SyncEngine.sample_rate_ se) (SyncEngine.channels_ se) 20)
      as [e|s] eqn:Hnew; cbn [fst].
    + split; [exact IHa|]. intros s Hs. apply (stream_ok_fields se); [reflexivity..|].
      apply IHs. exact Hs.
    + split; [intros _; eexists; reflexivity|].
      intros s' [= <-].
      assert (is_u32 20) as H20 by solve_concrete.
      destruct (AudioStream_new_ok pa _ _ 20 s Hsr Hch H20 Hnew)
        as (Hopen & Hinit & _ & Hchs & Hbuf).
      destruct (audio_new_inv _ _ 20 _ Hsr Hch H20 Hbuf) as (Hinv & _ & Hchb & Hspm).
      unfold stream_ok. cbn [SyncEngine.set_stream SyncEngine.channels_
                             SyncEngine.sample_rate_].
      split; [exact Hopen|]. split; [exact Hinit|]. split; [exact Hchs|].
      split; [exact Hchb|]. split; [exact Hspm|exact Hinv].
  - specialize (IH (engine_reachable_args se Hreach)). destruct IH as (IHa & IHs).
    unfold SyncEngine.start.
    destruct (SyncEngine.audio_stream_ se) as [s|] eqn:Hstream;
      [|cbn [fst]; rewrite ?Hstream; split; [exact IHa|exact IHs]].
    specialize (IHs s eq_refl).
    assert (stream_ok se (fst (AudioStream.setBufferSize s ms))) as Hok1.
    { unfold AudioStream.setBufferSize.
      pose proof (set_buffer_size_ms_fields (AudioStream.buffer_ s) ms) as (Hch & Hspm).
      pose proof (set_buffer_size_ms_inv (AudioStream.buffer_ s) ms
                    (proj2 (proj2 (proj2 (proj2 (proj2 IHs)))))) as Hinv.
      destruct (AudioBuffer.set_buffer_size_ms (AudioStream.buffer_ s) ms) as [buf e].
      cbn [fst] in *. apply stream_ok_set_buffer; assumption. }
    destruct (AudioStream.setBufferSize s ms) as [s1 [e|]]; cbn [fst] in *.
    + split; [intros _; eexists; reflexivity|]. intros s' [= <-]. exact Hok1.
    + assert (stream_ok se (fst (AudioStream.startStream pa s1))) as Hok2.
      { unfold AudioStream.startStream.
        destruct (negb (AudioStream.stream_ s1)); [exact Hok1|].
        destruct (negb (Pa_StartStream_ok pa)); exact Hok1. }
      destruct (AudioStream.startStream pa s1) as [s2 [e|]]; cbn [fst] in *;
        (split; [intros _; eexists; reflexivity|]); intros s' [= <-]; exact Hok2.
  - specialize (IH (engine_reachable_args se Hreach)). destruct IH as (IHa & IHs).
    unfold SyncEngine.stop.
    destruct (SyncEngine.audio_stream_ se) as [s|] eqn:Hstream;
      [|rewrite ?Hstream; split; [exact IHa|exact IHs]].
    destruct (SyncEngine.is_active_ se) eqn:Hactive;
      [|rewrite ?Hstream, ?Hactive; split; [discriminate|exact IHs]].
    split; [discriminate|]. intros s' [= <-].
    specialize (IHs s eq_refl). unfold AudioStream.stopStream.
    destruct (negb (AudioStream.stream_ s)); exact IHs.
  - specialize (IH (engine_reachable_args se Hreach)). destruct IH as (IHa & IHs).
    split; [exact IHa|]. intros s Hs. exact (IHs s Hs).
  - specialize (IH (engine_reachable_args se Hreach)). destruct IH as (IHa & IHs).
    unfold SyncEngine.writeAudioData.
    destruct (SyncEngine.audio_stream_ se) as [s|] eqn:Hstream;
      [|cbn [fst]; rewrite ?Hstream; split; [exact IHa|exact IHs]].
    specialize (IHs s eq_refl).
    unfold AudioStream.writeAudio.
    pose proof (write_samples_fields (AudioStream.buffer_ s) data frames ts) as (Hch & Hspm).
    pose proof (write_samples_inv (AudioStream.buffer_ s) data frames ts
                  (proj2 (proj2 (proj2 (proj2 (proj2 IHs))))) Hts) as Hinv.
    destruct (AudioBuffer.write_samples (AudioStream.buffer_ s) data frames ts) as [buf n].
    cbn [fst] in *.
    split; [intros Hactive; eexists; reflexivity|].
    intros s' [= <-]. apply (stream_ok_set_buffer se s buf IHs Hch Hspm Hinv).
Qed.

(** X26.  The life cycle of an engine.  An engine is never active without a
    stream: [isActive] implies that [initialize] has succeeded.  Whenever
    the engine has a stream, the stream is open, its channel count and
    that of its buffer are the engine's, the buffer holds
    [sample_rate / 1000] frames per millisecond and is well formed.  And
    [stop] always leaves the engine inactive. *)
Theorem engine_lifecycle_invariant (se : SyncEngine.t) :
  engine_reachable se ->
  (SyncEngine.isActive se = true -> is_Some (SyncEngine.audio_stream_ se)) /\
  (forall s, SyncEngine.audio_stream_ se = Some s -> stream_ok se s) /\
  SyncEngine.isActive (SyncEngine.stop se) = false /\
  SyncEngine.stop (SyncEngine.stop se) = SyncEngine.stop se.
Proof.
  intros Hreach.
  destruct (engine_reachable_streams se Hreach) as (Hactive & Hstream).
  split; [exact Hactive|]. split; [exact Hstream|].
  unfold SyncEngine.isActive, SyncEngine.stop.
  destruct (SyncEngine.audio_stream_ se) as [s|] eqn:Hs.
  - destruct (SyncEngine.is_active_ se) eqn:Ha.
    + split; reflexivity.
    + rewrite ?Hs, ?Ha. split; reflexivity.
  - destruct (SyncEngine.is_active_ se) eqn:Ha.
    + destruct (Hactive eq_refl) as [s Hsome]. discriminate.
    + rewrite ?Hs, ?Ha. split; reflexivity.
Qed.

Lemma engine_lifecycle_invariant_witness :
  let pa := {| Pa_Initialize_ok := true; Pa_GetDefaultOutputDevice_ok := true;
               Pa_OpenStream_ok := true; Pa_StartStream_ok := true |} in
  let se :=
    fst (SyncEngine.start pa
           (fst (SyncEngine.initialize pa (SyncEngine.new 48000 2 100) None)) 30) in
  engine_reachable se /\
  SyncEngine.isActive se = true /\
  is_Some (SyncEngine.audio_stream_ se) /\
  SyncEngine.isActive (SyncEngine.stop se) = false.
Proof.
  cbv zeta.
  set (pa := Build_PortAudio _ _ _ _).
  assert (engine_reachable
            (fst (SyncEngine.start pa
                    (fst (SyncEngine.initialize pa (SyncEngine.new 48000 2 100) None)) 30)))
    as Hreach.
  { apply er_start, er_initialize, er_new; [solve_concrete|lia]. }
  destruct (engine_lifecycle_invariant _ Hreach) as (Hactive & _ & Hstop & _).
  assert (SyncEngine.isActive
            (fst (SyncEngine.start pa
                    (fst (SyncEngine.initialize pa (SyncEngine.new 48000 2 100) None)) 30))
          = true) as Hon by (vm_compute; reflexivity).
  split; [exact Hreach|]. split; [exact Hon|]. split; [exact (Hactive Hon)|exact Hstop].
Defined.

(** X27.  [initialize] on a new engine.  The stream is always built with a
    20 ms buffer: the [initial_buffer_ms] given to the constructor plays
    no part.  When that buffer has a non-zero size (modulo [2^32]) and
    PortAudio opens the default output device, the engine gets an
    inactive stream with an empty buffer of that size.  Otherwise
    [initialize] throws and the engine is left without a stream, so that
    [start] keeps failing with "SyncEngine non inizializzato"; a sample
    rate below 1000 Hz is such a case.  The time provider is stored
    either way. *)
Theorem initialize_outcome (pa : PortAudio)
    (sample_rate channels initial_buffer_ms : Z) (time_provider : option (Z -> Z)) :
  is_u32 sample_rate -> 0 <= channels < 256 ->
  let se := SyncEngine.new sample_rate channels initial_buffer_ms in
  let N := u32 (u32 (sample_rate / 1000 * 20) * channels) in
  let devices_ok :=
    Pa_Initialize_ok pa && Pa_GetDefaultOutputDevice_ok pa && Pa_OpenStream_ok pa in
  let se' := fst (SyncEngine.initialize pa se time_provider) in
  let thrown := snd (SyncEngine.initialize pa se time_provider) in
  SyncEngine.time_provider_ se' = time_provider /\
  (sample_rate < 1000 -> N = 0) /\
  (N <> 0 -> devices_ok = true ->
     thrown = None /\
     SyncEngine.isActive se' = false /\
     exists s,
       SyncEngine.audio_stream_ se' = Some s /\
       AudioStream.is_active s = false /\
       RingBuffer.capacity (AudioBuffer.buffer_ (AudioStream.buffer_ s)) = N /\
       ring_contents (AudioBuffer.buffer_ (AudioStream.buffer_ s)) = []) /\
  (N = 0 \/ devices_ok = false ->
     is_Some thrown /\
     SyncEngine.audio_stream_ se' = None /\
     forall pa' optimal_buffer_ms,
       SyncEngine.start pa' se' optimal_buffer_ms
       = (se', Some (runtime_error "SyncEngine non inizializzato"))).
Proof.
  intros Hsr Hch se N devices_ok se' thrown.
  assert (sample_rate < 1000 -> N = 0) as Hlow.
  { intros Hlt. subst N. rewrite (Z.div_small sample_rate 1000) by (unfold_consts; lia).
    reflexivity. }
  assert (N <> 0 -> sample_rate <> 0 /\ channels <> 0) as Hnonzero.
  { intros HN. split.
    - intros ->. apply HN. reflexivity.
    - intros ->. apply HN. subst N. rewrite Z.mul_0_r. reflexivity. }
  pose proof (u32_range (u32 (sample_rate / 1000 * 20) * channels)) as Hrange.
  fold N in Hrange.
  subst se' thrown. unfold SyncEngine.initialize, se.
  cbn [SyncEngine.new SyncEngine.sample_rate_ SyncEngine.channels_
       SyncEngine.time_offset_ SyncEngine.is_active_ SyncEngine.is_synchronized_
       SyncEngine.audio_stream_].
  unfold AudioStream.new, AudioBuffer.new. fold N.
  split; [|split; [exact Hlow|split]].
  - destruct (RingBuffer.new 0 N) as [e|rb]; [reflexivity|].
    destruct ((sample_rate =? 0) || (channels =? 0) || (20 =? 0)); [reflexivity|].
    destruct (negb (Pa_Initialize_ok pa)); [reflexivity|].
    destruct (negb (Pa_GetDefaultOutputDevice_ok pa)); [reflexivity|].
    destruct (negb (Pa_OpenStream_ok pa)); reflexivity.
  - intros HN Hdev. destruct (Hnonzero HN) as (Hsr0 & Hch0).
    destruct (ring_new_ok (T := Z) 0 N ltac:(unfold_consts; lia))
      as (rb & -> & Hinv & Hnil).
    destruct (Z.eqb_spec sample_rate 0); [contradiction|].
    destruct (Z.eqb_spec channels 0); [contradiction|].
    cbn [orb Z.eqb].
    subst devices_ok. apply andb_true_iff in Hdev as (Hdev & ->).
    apply andb_true_iff in Hdev as (-> & ->). cbn [negb fst snd].
    split; [reflexivity|]. split; [reflexivity|].
    eexists. split; [reflexivity|]. cbn [AudioStream.is_active AudioStream.buffer_
                                          AudioBuffer.buffer_].
    split; [reflexivity|]. split; [exact (inv_capacity _ _ Hinv)|exact Hnil].
  - intros Hbad.
    destruct (RingBuffer.new 0 N) as [e|rb] eqn:Hring.
    { cbn [fst snd SyncEngine.audio_stream_]. split; [eexists; reflexivity|].
      split; reflexivity. }
    assert (N <> 0) as HN.
    { intros HN. rewrite HN in Hring. discriminate. }
    destruct Hbad as [Hz|Hdev]; [contradiction|].
    destruct (Hnonzero HN) as (Hsr0 & Hch0).
    destruct (Z.eqb_spec sample_rate 0); [contradiction|].
    destruct (Z.eqb_spec channels 0); [contradiction|].
    cbn [orb Z.eqb].
    subst devices_ok.
    destruct (Pa_Initialize_ok pa); cbn [negb andb] in *;
      [|split; [eexists; reflexivity|split; reflexivity]].
    destruct (Pa_GetDefaultOutputDevice_ok pa); cbn [negb andb] in *;
      [|split; [eexists; reflexivity|split; reflexivity]].
    destruct (Pa_OpenStream_ok pa); cbn [negb andb] in *; [discriminate|].
    split; [eexists; reflexivity|split; reflexivity].
Qed.

Lemma initialize_outcome_witness :
  let pa := {| Pa_Initialize_ok := true; Pa_GetDefaultOutputDevice_ok := true;
               Pa_OpenStream_ok := true; Pa_StartStream_ok := true |} in
  is_u32 48000 /\ 0 <= 2 < 256 /\
  snd (SyncEngine.initialize pa (SyncEngine.new 48000 2 100) None) = None /\
  (exists s,
     SyncEngine.audio_stream_
       (fst (SyncEngine.initialize pa (SyncEngine.new 48000 2 100) None)) = Some s /\
     AudioStream.is_active s = false /\
     RingBuffer.capacity (AudioBuffer.buffer_ (AudioStream.buffer_ s)) = 1920 /\
     ring_contents (AudioBuffer.buffer_ (AudioStream.buffer_ s)) = []) /\
  is_u32 800 /\
  SyncEngine.audio_stream_
    (fst (SyncEngine.initialize pa (SyncEngine.new 800 2 100) None)) = None.
Proof.
  cbv zeta.
  set (pa := Build_PortAudio _ _ _ _).
  assert (is_u32 48000) as H48 by solve_concrete.
  assert (is_u32 800) as H800 by solve_concrete.
  assert (0 <= 2 < 256) as Hch by lia.
  destruct (initialize_outcome pa 48000 2 100 None H48 Hch) as (_ & _ & Hgood & _).
  destruct (Hgood ltac:(vm_compute; discriminate) eq_refl) as (Hnone & _ & Hstream).
  destruct (initialize_outcome pa 800 2 100 None H800 Hch) as (_ & Hlow & _ & Hbad).
  split; [exact H48|]. split; [exact Hch|]. split; [exact Hnone|].
  split; [exact Hstream|]. split; [exact H800|].
  exact (proj1 (proj2 (Hbad (or_introl (Hlow ltac:(lia)))))).
Defined.

(** ** AudioSync: playback and the jitter buffer *)

Lemma getOptimalBufferSize_bounds sm :
  0 <= SyncManager.getOptimalBufferSize sm <= 40.
Proof.
  unfold SyncManager.getOptimalBufferSize.
  destruct (SyncManager.getAverageLatency sm) as [avg|]; [|lia].
  unfold SyncManager.calculateBufferAdjustment.
  pose proof (u32_range (u32_of_float avg + 10)) as Hrange. unfold is_u32 in Hrange. lia.
Qed.

Lemma getOptimalBufferSize_default sm :
  SyncManager.nodeLatencies sm = ∅ -> SyncManager.getOptimalBufferSize sm = 20.
Proof.
  intros Hempty.
  unfold SyncManager.getOptimalBufferSize, SyncManager.getAverageLatency.
  rewrite Hempty, map_size_empty. reflexivity.
Qed.

(** X28.  Playback starts only on a synchronised manager.  [startPlayback]
    answers whether the manager is synchronised; if it is not, nothing
    changes; if it is, playback is on with the jitter buffer the manager
    proposes.  That proposal is never above 40 ms, and is the default
    20 ms while no latency has been recorded, which is also the case right
    after an emergency sync.  Stopping ends synchronised playback. *)
Theorem playback_needs_synchronisation (sm : SyncManager.t) (a : AudioSync.t) :
  let a' := fst (AudioSync.startPlayback sm a) in
  snd (AudioSync.startPlayback sm a) = SyncManager.isSynchronized sm /\
  (SyncManager.isSynchronized sm = false ->
     a' = a /\ AudioSync.isPlaybackSynchronized sm a' = false) /\
  (SyncManager.isSynchronized sm = true ->
     AudioSync.isPlaying a' = true /\
     AudioSync.jitterBuffer a' = SyncManager.getOptimalBufferSize sm /\
     AudioSync.isPlaybackSynchronized sm a' = true) /\
  0 <= SyncManager.getOptimalBufferSize sm <= 40 /\
  (SyncManager.nodeLatencies sm = ∅ -> SyncManager.getOptimalBufferSize sm = 20) /\
  (forall masterTime system_ms steady,
     SyncManager.getOptimalBufferSize
       (fst (SyncManager.emergencySync sm masterTime system_ms steady)) = 20) /\
  AudioSync.isPlaybackSynchronized sm (AudioSync.stopPlayback a') = false.
Proof.
  cbv zeta. unfold AudioSync.startPlayback, AudioSync.isPlaybackSynchronized.
  destruct (SyncManager.isSynchronized sm) eqn:Hsync; cbn [negb fst snd andb].
  - split; [reflexivity|]. split; [discriminate|].
    split; [intros _; repeat split; reflexivity|].
    split; [apply getOptimalBufferSize_bounds|].
    split; [apply getOptimalBufferSize_default|].
    split; [|reflexivity].
    intros M W s. apply getOptimalBufferSize_default. reflexivity.
  - split; [reflexivity|]. split; [intros _; split; reflexivity|].
    split; [discriminate|].
    split; [apply getOptimalBufferSize_bounds|].
    split; [apply getOptimalBufferSize_default|].
    split; [|reflexivity].
    intros M W s. apply getOptimalBufferSize_default. reflexivity.
Qed.

Lemma sync_step_keeps_synchronized st c :
  SyncManager.isSynchronized st = true ->
  SyncManager.isSynchronized (sync_step st c) = true.
Proof.
  destruct c; [reflexivity|intros H; exact H|reflexivity].
Qed.

Lemma sync_run_keeps_synchronized calls : forall st,
  SyncManager.isSynchronized st = true ->
  SyncManager.isSynchronized (sync_run st calls) = true.
Proof.
  induction calls as [|c calls IH]; intros st Hst; [exact Hst|].
  apply (IH (sync_step st c)), sync_step_keeps_synchronized, Hst.
Qed.

Lemma audio_run_state isMusic calls : forall sm0,
  let sm := fst (audio_run (sm0, AudioSync.new isMusic) calls) in
  let a := snd (audio_run (sm0, AudioSync.new isMusic) calls) in
  0 <= AudioSync.jitterBuffer a <= 40 /\
  (AudioSync.isPlaying a = true -> SyncManager.isSynchronized sm = true) /\
  AudioSync.sampleRate a = (if isMusic then 48000 else 16000).
Proof.
  induction calls as [|c calls IH] using rev_ind; intros sm0; cbv zeta.
  - cbn. split; [lia|]. split; [discriminate|reflexivity].
  - unfold audio_run. rewrite foldl_app. cbn [foldl]. fold (audio_run (sm0, AudioSync.new isMusic) calls).
    specialize (IH sm0). cbv zeta in IH.
    destruct (audio_run (sm0, AudioSync.new isMusic) calls) as [sm a]. cbn [fst snd] in IH.
    destruct IH as (Hjitter & Hplaying & Hrate).
    destruct c as [before| |quality]; cbn [audio_step fst snd].
    + unfold AudioSync.startPlayback.
      destruct (SyncManager.isSynchronized (sync_run sm before)) eqn:Hsync; cbn [negb fst].
      * cbn [AudioSync.jitterBuffer AudioSync.isPlaying AudioSync.sampleRate].
        split; [apply getOptimalBufferSize_bounds|]. split; [reflexivity|exact Hrate].
      * split; [exact Hjitter|]. split; [|exact Hrate].
        intros Hon. rewrite (sync_run_keeps_synchronized before sm (Hplaying Hon)) in Hsync.
        discriminate.
    + split; [exact Hjitter|]. split; [discriminate|exact Hrate].
    + split; [exact Hjitter|]. split; [exact Hplaying|exact Hrate].
Qed.

(** X29.  An [AudioSync] over its life, from construction through any sequence
    of start, stop and bitrate adjustments, with the shared manager
    receiving beacons and latency reports in between.  The jitter buffer
    stays within 0..40 ms.  Playback is on only if the manager is
    synchronised.  The sample rate stays the one chosen at construction
    (48 kHz for music, 16 kHz for voice), so [adjustBitrate] halves the
    nominal bitrate (128 or 64 kbps) exactly when the quality is below
    0.5; a NaN quality counts as good. *)
Theorem audio_sync_over_its_life (isMusic : bool) (calls : list audio_call)
    (networkQuality : spec_float) :
  let sm := fst (audio_run (SyncManager.new, AudioSync.new isMusic) calls) in
  let a := snd (audio_run (SyncManager.new, AudioSync.new isMusic) calls) in
  0 <= AudioSync.jitterBuffer a <= 40 /\
  (AudioSync.isPlaying a = true -> SyncManager.isSynchronized sm = true) /\
  (AudioSync.isPlaybackSynchronized sm a = AudioSync.isPlaying a) /\
  AudioSync.sampleRate a = (if isMusic then 48000 else 16000) /\
  AudioSync.bitrate (AudioSync.adjustBitrate networkQuality a)
  = (if float_lt_half networkQuality
     then (if isMusic then 64 else 32)
     else (if isMusic then 128 else 64)) /\
  AudioSync.bitrate (AudioSync.adjustBitrate S754_nan a)
  = (if isMusic then 128 else 64).
Proof.
  cbv zeta.
  pose proof (audio_run_state isMusic calls SyncManager.new) as (Hjitter & Hplaying & Hrate).
  cbv zeta in Hjitter, Hplaying, Hrate.
  split; [exact Hjitter|]. split; [exact Hplaying|]. split; [|split; [exact Hrate|]].
  - unfold AudioSync.isPlaybackSynchronized.
    destruct (AudioSync.isPlaying _) eqn:Hon.
    + rewrite (Hplaying eq_refl). reflexivity.
    + apply andb_false_r.
  - unfold AudioSync.adjustBitrate. cbn [AudioSync.bitrate]. rewrite Hrate.
    change (float_lt_half S754_nan) with false. cbv iota.
    destruct isMusic; split; reflexivity.
Qed.

(** Three managers: the average of 10, 15 and 11 ms is 12 ms, which gives
    a 22 ms buffer; the average 10.5 ms of 10 and 11 ms is cut to 10 ms,
    which gives 20 ms; a single latency of 100 ms is capped at 40 ms. *)
Example getOptimalBufferSize_scenarios :
  SyncManager.getOptimalBufferSize
    (sync_run SyncManager.new
       [CallUpdateNodeLatency "a" 10; CallUpdateNodeLatency "b" 15;
        CallUpdateNodeLatency "c" 11]) = 22 /\
  SyncManager.getOptimalBufferSize
    (sync_run SyncManager.new
       [CallUpdateNodeLatency "a" 10; CallUpdateNodeLatency "b" 11]) = 20 /\
  SyncManager.getOptimalBufferSize
    (sync_run SyncManager.new [CallUpdateNodeLatency "a" 100]) = 40.
Proof. vm_compute. repeat split; reflexivity. Qed.

(** ** SaberProtocol: what the facade lets through *)





